(** * Pointwise quadrature kernels of libCEED: a shallow embedding

    The development covers the four kernel sources of the repository:
    - [examples/ceed/ex1.okl]: [f_build_mass], [f_apply_mass];
    - the BP3 kernel file: [SetupDiff3Rhs], [Diff3];
    - [examples/shallow-water/shallow-water.h]: [SWICs], [SWExplicit],
      [SWImplicit], [SWJacobian];
    - [examples/navier-stokes/densitycurrent.h]: [ICsDC], [DC].

    A kernel is a loop over the quadrature points [0 <= i < Q].  Its inputs
    are constant arrays, modelled as total maps from index to scalar; its
    output array is the only mutable state, and every access to it is an
    explicit node ([Load] or [Store]) of a small free monad, so that
    statements on which output elements a kernel reads or writes are
    statements on the program itself.

    [CeedScalar] is [double].  The kernels are written once over an
    interface of scalar operations ([Arith], [Libm]); the interface has an
    instance on binary64 machine floats, one on the real numbers, and one
    on the real numbers with every operation rounded, the standard model
    of binary64.

    [CeedInt] is [int].  The indices of the arrays are taken in [Z]: the
    kernels contain no bounds check, and arrays are total maps.  The one
    [int] a kernel branches on, the tag [dims] of [f_build_mass], is
    computed as the compiled code computes it, on 32 bits with wrap-around
    ([wrap32]). *)

From Stdlib Require Import PrimFloat ZArith List Lia Reals Lra Permutation.
From Stdlib Require Import Machin SpecFloat FloatOps.
From stdpp Require Import base decidable numbers functions.
Import ListNotations.

Local Open Scope Z_scope.

(** ** Scalars *)

(** The arithmetic of [CeedScalar]: the conversions of literals, the four
    operations, unary minus, [sqrt], [fabs] and the comparisons. *)
Class Arith (F : Type) : Type := {
  fofZ : Z -> F;         (* an integer constant, or an int converted to double *)
  fdec : Z -> Z -> F;    (* the decimal literal  m e  =  m * 10^e *)
  fadd : F -> F -> F;
  fsub : F -> F -> F;
  fmul : F -> F -> F;
  fdiv : F -> F -> F;
  fneg : F -> F;
  fsqrt : F -> F;
  ffabs : F -> F;
  fltb : F -> F -> bool;
  fleb : F -> F -> bool;
  feqb : F -> F -> bool }.

(** What the kernels take from [math.h]. *)
Class Libm (F : Type) : Type := {
  M_PI : F;
  fsin : F -> F;
  fcos : F -> F;
  fexp : F -> F;
  fpow : F -> F -> F }.

Declare Scope F_scope.
Delimit Scope F_scope with sc.
Notation "# z" := (fofZ z%Z) (at level 5, format "# z") : F_scope.
Infix "+" := fadd : F_scope.
Infix "-" := fsub : F_scope.
Infix "*" := fmul : F_scope.
Infix "/" := fdiv : F_scope.
Notation "- x" := (fneg x) : F_scope.

(** *** binary64 *)

(** Exact for every constant below [2^53]. *)
Fixpoint float_of_pos (p : positive) : float :=
  match p with
  | xH => 1%float
  | xO q => PrimFloat.mul 2%float (float_of_pos q)
  | xI q => PrimFloat.add (PrimFloat.mul 2%float (float_of_pos q)) 1%float
  end.

Definition float_of_Z (z : Z) : float :=
  match z with
  | Z0 => 0%float
  | Zpos p => float_of_pos p
  | Zneg p => PrimFloat.opp (float_of_pos p)
  end.

(** One correctly rounded division of two exact integers. *)
Definition float_dec (m e : Z) : float :=
  if 0 <=? e then float_of_Z (m * 10 ^ e)
  else PrimFloat.div (float_of_Z m) (float_of_Z (10 ^ (- e))).

#[export] Instance float_arith : Arith float := {|
  fofZ := float_of_Z;
  fdec := float_dec;
  fadd := PrimFloat.add;
  fsub := PrimFloat.sub;
  fmul := PrimFloat.mul;
  fdiv := PrimFloat.div;
  fneg := PrimFloat.opp;
  fsqrt := PrimFloat.sqrt;
  ffabs := PrimFloat.abs;
  fltb := PrimFloat.ltb;
  fleb := PrimFloat.leb;
  feqb := PrimFloat.eqb |}.

(** *** Real numbers *)

(** [pow] where it has a real value: a positive base, or an integer
    exponent. *)
Definition Rpow (x y : R) : R :=
  if Rlt_dec 0 x then Rpower x y
  else if Req_dec_T y (IZR (Int_part y)) then powerRZ x (Int_part y)
  else 0%R.

#[export] Instance R_arith : Arith R := {|
  fofZ := IZR;
  fdec := fun m e => (IZR m * powerRZ 10 e)%R;
  fadd := Rplus;
  fsub := Rminus;
  fmul := Rmult;
  fdiv := Rdiv;
  fneg := Ropp;
  fsqrt := R_sqrt.sqrt;
  ffabs := Rabs;
  fltb := fun x y => if Rlt_dec x y then true else false;
  fleb := fun x y => if Rle_dec x y then true else false;
  feqb := fun x y => if Req_dec_T x y then true else false |}.

#[export] Instance R_libm : Libm R := {|
  M_PI := PI;
  fsin := sin;
  fcos := cos;
  fexp := exp;
  fpow := Rpow |}.

(** *** binary64 as rounded real arithmetic

    In [R_arith] no operation rounds, division is the total division of
    [R] ([x / 0 = 0]) and [M_PI] is pi itself.  A statement on the doubles
    that the kernels compute is made on the instances below, where every
    operation rounds its exact result and [M_PI] is the double. *)

(** The unit roundoff of binary64 in rounding to nearest, [2^-53]; half the
    smallest positive subnormal number, [2^-1075]; [2^1023], below the
    largest finite number. *)
Definition u64 : R := (/ 2 ^ 53)%R.
Definition eta64 : R := (/ 2 ^ 1075)%R.
Definition max64 : R := (2 ^ 1023)%R.

(** The double that [M_PI] denotes, the one nearest to pi:
    [0x1.921fb54442d18p+1]. *)
Definition pi_double : R := (884279719003555 / 281474976710656)%R.

(** The standard model of binary64: the result of an operation is its exact
    result [x], rounded; rounding errs by at most [u64 |x| + eta64], as long
    as [x] does not overflow. *)
Definition standard_model (rnd : R -> R) : Prop :=
  forall x, (Rabs x <= max64 -> Rabs (rnd x - x) <= u64 * Rabs x + eta64)%R.

(** A [sin] that errs by less than one unit in the last place of 1. *)
Definition accurate_sin (sinf : R -> R) : Prop :=
  forall x, (Rabs (sinf x - sin x) <= / 2 ^ 52)%R.

(** The binade of a real number [x <> 0]: the integer [b] with
    [2^b <= |x| < 2^(b+1)]. *)
Definition binade (x : R) : Z := Int_part (ln (Rabs x) / ln 2).

(** Rounding to the nearest multiple of [2^(b-52)], where [b] is the binade
    of [x] and at least -1022: to 53 significant bits, or to the grid of
    the subnormal doubles.  It is what rounding to nearest does on
    binary64 below the overflow threshold, up to the choice at a tie,
    which is rounded up here. *)
Definition round64 (x : R) : R :=
  if Req_dec_T x 0 then 0%R
  else
    let e := Z.max (binade x) (-1022) - 52 in
    (IZR (Int_part (x * powerRZ 2 (- e) + / 2)) * powerRZ 2 e)%R.

(** The real number that a finite double denotes. *)
Definition float_value (f : float) : R :=
  match Prim2SF f with
  | S754_finite s m e =>
      ((if s then -1 else 1) * IZR (Z.pos m) * powerRZ 2 e)%R
  | _ => 0%R
  end.

Section Rounded.
Variables (rnd : R -> R) (sinf cosf expf : R -> R) (powf : R -> R -> R).

(** The operations of [CeedScalar] on the real values of the doubles, each
    rounded by [rnd]: every operation of the source rounds once, none is
    contracted with another into a fused multiply-add.  Integer constants
    (below [2^53]), negation and [fabs] are exact.  Overflow, NaN and the
    division by 0 have no counterpart here: [standard_model] constrains
    [rnd] on the finite range only, and the statements made on this
    instance are on code that does not divide. *)
Definition rounded_arith : Arith R := {|
  fofZ := IZR;
  fdec := fun m e => rnd (IZR m * powerRZ 10 e);
  fadd := fun x y => rnd (x + y);
  fsub := fun x y => rnd (x - y);
  fmul := fun x y => rnd (x * y);
  fdiv := fun x y => rnd (x / y);
  fneg := Ropp;
  fsqrt := fun x => rnd (R_sqrt.sqrt x);
  ffabs := Rabs;
  fltb := fun x y => if Rlt_dec x y then true else false;
  fleb := fun x y => if Rle_dec x y then true else false;
  feqb := fun x y => if Req_dec_T x y then true else false |}.

Definition rounded_libm : Libm R := {|
  M_PI := pi_double;
  fsin := sinf;
  fcos := cosf;
  fexp := expf;
  fpow := powf |}.
End Rounded.

(** ** Programs on the output array *)

Section Prog.
Context {A F : Type}.

(** A program loads from and stores to the output array, whose elements
    have addresses in [A]. *)
Inductive prog (X : Type) : Type :=
| Ret (x : X)
| Load (a : A) (k : F -> prog X)
| Store (a : A) (v : F) (k : prog X).
Arguments Ret {X} x.
Arguments Load {X} a k.
Arguments Store {X} a v k.

Fixpoint bind {X Y : Type} (p : prog X) (f : X -> prog Y) : prog Y :=
  match p with
  | Ret x => f x
  | Load a k => Load a (fun v => bind (k v) f)
  | Store a v k => Store a v (bind k f)
  end.

Definition load (a : A) : prog F := Load a Ret.
Definition store (a : A) (v : F) : prog unit := Store a v (Ret tt).

(** [if (c) stmt;] *)
Definition when (c : bool) (p : prog unit) : prog unit :=
  if c then p else Ret tt.

(** [for (int i = s; i < s + n; i++) body(i);] *)
Fixpoint for_range (n : nat) (s : Z) (body : Z -> prog unit) : prog unit :=
  match n with
  | O => Ret tt
  | S n' => bind (body s) (fun _ => for_range n' (s + 1) body)
  end.

(** [for (int i = 0; i < Q; i++) body(i);] *)
Definition for_loop (Q : Z) (body : Z -> prog unit) : prog unit :=
  for_range (Z.to_nat Q) 0 body.

(** *** Execution *)
Context `{EqDecision A}.

Fixpoint run {X : Type} (p : prog X) (m : A -> F) : X * (A -> F) :=
  match p with
  | Ret x => (x, m)
  | Load a k => run (k (m a)) m
  | Store a v k => run k (<[a := v]> m)
  end.

(** The stores of an execution, in program order. *)
Fixpoint effect {X : Type} (p : prog X) (m : A -> F) : list (A * F) :=
  match p with
  | Ret _ => []
  | Load a k => effect (k (m a)) m
  | Store a v k => (a, v) :: effect k (<[a := v]> m)
  end.

(** The addresses an execution loads from, in program order. *)
Fixpoint loads {X : Type} (p : prog X) (m : A -> F) : list A :=
  match p with
  | Ret _ => []
  | Load a k => a :: loads (k (m a)) m
  | Store a v k => loads k (<[a := v]> m)
  end.

(** *** Properties of the program text *)

(** No load at all. *)
Fixpoint write_only {X : Type} (p : prog X) : Prop :=
  match p with
  | Ret _ => True
  | Load _ _ => False
  | Store _ _ k => write_only k
  end.

(** Every store goes to an address in [P]. *)
Fixpoint stores_in {X : Type} (P : A -> Prop) (p : prog X) : Prop :=
  match p with
  | Ret _ => True
  | Load _ k => forall v, stores_in P (k v)
  | Store a _ k => P a /\ stores_in P k
  end.

(** Every load is from an address in [W] or from one that the program
    has stored to before. *)
Fixpoint local {X : Type} (W : list A) (p : prog X) : Prop :=
  match p with
  | Ret _ => True
  | Load a k => In a W /\ forall v, local W (k v)
  | Store a _ k => local (a :: W) k
  end.
End Prog.

Arguments prog A F X : clear implicits.
Arguments Ret {A F X} x.
Arguments Load {A F X} a k.
Arguments Store {A F X} a v%_sc k.
Arguments store {A F} a v%_sc.

Notation "x <- p ;; q" := (bind p (fun x => q))
  (at level 100, p at next level, right associativity).
Notation "p ;; q" := (bind p (fun _ => q))
  (at level 100, right associativity).

(** What a kernel hands back: nothing ([void]) or an [int]. *)
Inductive retval : Type :=
| RVoid
| RInt (z : Z).

(** Local arrays given by their elements; the kernels index them in range
    only. *)
Definition vec3 {F : Type} (a b c : F) (j : Z) : F :=
  if j =? 0 then a else if j =? 1 then b else c.

Definition vec2 {F : Type} (a b : F) (j : Z) : F :=
  if j =? 0 then a else b.

Definition vec4 {F : Type} (a b c d : F) (j : Z) : F :=
  if j =? 0 then a else if j =? 1 then b else if j =? 2 then c else d.

Definition vec5 {F : Type} (a b c d e : F) (j : Z) : F :=
  if j =? 0 then a else if j =? 1 then b else if j =? 2 then c
  else if j =? 3 then d else e.

Definition vec6 {F : Type} (a b c d e f : F) (j : Z) : F :=
  if j =? 0 then a else if j =? 1 then b else if j =? 2 then c
  else if j =? 3 then d else if j =? 4 then e else f.

(** [a[k]] for an array [a], the index read as an integer expression. *)
Notation "a .[ k ]" := (a k%Z)
  (at level 1, left associativity, only parsing).

(** ** 32-bit integers *)

(** The value of an [int] expression whose mathematical value is [z]: the
    representative of [z] modulo [2^32] in [-2^31 .. 2^31 - 1]. *)
Definition wrap32 (z : Z) : Z := (z + 2 ^ 31) mod 2 ^ 32 - 2 ^ 31.

(** The values of an [int]. *)
Definition int_range (z : Z) : Prop := - 2 ^ 31 <= z < 2 ^ 31.

(** ** [examples/ceed/ex1.okl] *)

(** The OKL kernels get one flat input array and one flat output array; the
    fields of each are found through the offset tables [iOf7] and [oOf7].
    An address of the output array is its index. *)
Section Ex1.
Context {F : Type} `{Arith F}.

(** [dims], the tag the determinant branches test: [dim + 10*space_dim] in
    [int] arithmetic, the product and the sum each on 32 bits. *)
Definition f_build_mass_dims (ctx : Z -> Z) : Z :=
  let dim := ctx.[0] in
  let space_dim := ctx.[1] in
  wrap32 (dim + wrap32 (10 * space_dim)).

Definition f_build_mass_body (ctx : Z -> Z) (Q : Z) (iOf7 oOf7 : Z -> Z)
    (u : Z -> F) (i : Z) : prog Z F unit :=
  let dims := f_build_mass_dims ctx in
  when (dims =? 11)
    (store (oOf7.[0] + i) (u.[iOf7.[0] + i] * u.[iOf7.[1] + i])%sc) ;;
  when (dims =? 22)
    (store (oOf7.[0] + i)
       ((u.[iOf7.[0] + i + Q*0] * u.[iOf7.[0] + i + Q*3] -
         u.[iOf7.[0] + i + Q*1] * u.[iOf7.[0] + i + Q*2]) * u.[iOf7.[1] + i])%sc) ;;
  when (dims =? 33)
    (store (oOf7.[0] + i)
       ((u.[iOf7.[0] + i + Q*0] * (u.[iOf7.[0] + i + Q*4] * u.[iOf7.[0] + i + Q*8] -
                                 u.[iOf7.[0] + i + Q*5] * u.[iOf7.[0] + i + Q*7]) -
         u.[iOf7.[0] + i + Q*1] * (u.[iOf7.[0] + i + Q*3] * u.[iOf7.[0] + i + Q*8] -
                                 u.[iOf7.[0] + i + Q*5] * u.[iOf7.[0] + i + Q*6]) +
         u.[iOf7.[0] + i + Q*2] * (u.[iOf7.[0] + i + Q*3] * u.[iOf7.[0] + i + Q*7] -
                                 u.[iOf7.[0] + i + Q*4] * u.[iOf7.[0] + i + Q*6]))
        * u.[iOf7.[1] + i])%sc).

Definition f_build_mass (ctx : Z -> Z) (Q : Z) (iOf7 oOf7 : Z -> Z)
    (u : Z -> F) : prog Z F retval :=
  for_loop Q (f_build_mass_body ctx Q iOf7 oOf7 u) ;; Ret RVoid.

Definition f_apply_mass_body (Q : Z) (iOf7 oOf7 : Z -> Z) (inp : Z -> F)
    (i : Z) : prog Z F unit :=
  store (oOf7.[0] + i) (inp.[iOf7.[1] + i] * inp.[iOf7.[0] + i])%sc.

Definition f_apply_mass (Q : Z) (iOf7 oOf7 : Z -> Z) (inp : Z -> F) :
    prog Z F retval :=
  for_loop Q (f_apply_mass_body Q iOf7 oOf7 inp) ;; Ret RVoid.
End Ex1.

(** ** The BP3 kernel file: [SetupDiff3Rhs] and [Diff3] *)

Section BP3.
Context {F : Type} `{Arith F} `{Libm F}.

(** The value stored to component 0 of the target field. *)
Definition SetupDiff3Rhs_target (Q : Z) (iOf7 : Z -> Z) (inp : Z -> F)
    (i : Z) : F :=
  let c := (vec3 #0 #1 #2)%sc in
  let k := (vec3 #1 #2 #3)%sc in
  (fsin (M_PI * (c.[0] + k.[0] * inp.[iOf7.[0] + 0*Q + i])) *
   fsin (M_PI * (c.[1] + k.[1] * inp.[iOf7.[0] + 1*Q + i])) *
   fsin (M_PI * (c.[2] + k.[2] * inp.[iOf7.[0] + 2*Q + i])))%sc.

(** [rho], the quadrature weight times the determinant of the Jacobian. *)
Definition SetupDiff3Rhs_rho (Q : Z) (iOf7 : Z -> Z) (inp : Z -> F)
    (i : Z) : F :=
  let J11 := inp.[iOf7.[1] + i + Q*0] in
  let J21 := inp.[iOf7.[1] + i + Q*1] in
  let J31 := inp.[iOf7.[1] + i + Q*2] in
  let J12 := inp.[iOf7.[1] + i + Q*3] in
  let J22 := inp.[iOf7.[1] + i + Q*4] in
  let J32 := inp.[iOf7.[1] + i + Q*5] in
  let J13 := inp.[iOf7.[1] + i + Q*6] in
  let J23 := inp.[iOf7.[1] + i + Q*7] in
  let J33 := inp.[iOf7.[1] + i + Q*8] in
  let A11 := (J22*J33 - J23*J32)%sc in
  let A12 := (J13*J32 - J12*J33)%sc in
  let A13 := (J12*J23 - J13*J22)%sc in
  (inp.[iOf7.[2] + i] * (J11*A11 + J21*A12 + J31*A13))%sc.

Definition SetupDiff3Rhs_body (Q : Z) (iOf7 oOf7 : Z -> Z) (inp : Z -> F)
    (i : Z) : prog Z F unit :=
  let c := (vec3 #0 #1 #2)%sc in
  let k := (vec3 #1 #2 #3)%sc in
  store (oOf7.[0] + i + 0*Q) (SetupDiff3Rhs_target Q iOf7 inp i) ;;
  t <- load (oOf7.[1] + i + 0*Q) ;; store (oOf7.[0] + i + 1*Q) t ;;
  t <- load (oOf7.[1] + i + 0*Q) ;; store (oOf7.[0] + i + 2*Q) t ;;
  let rho := SetupDiff3Rhs_rho Q iOf7 inp i in
  store (oOf7.[1] + i + 0*Q)
    (rho * M_PI * M_PI * (k.[0] * k.[0] + k.[1] * k.[1] + k.[2] * k.[2]) *
     fsin (M_PI * (c.[0] + k.[0] * inp.[iOf7.[0] + 0*Q + i])) *
     fsin (M_PI * (c.[1] + k.[1] * inp.[iOf7.[0] + 1*Q + i])) *
     fsin (M_PI * (c.[2] + k.[2] * inp.[iOf7.[0] + 2*Q + i])))%sc ;;
  t <- load (oOf7.[2] + i + 0*Q) ;; store (oOf7.[1] + i + 1*Q) t ;;
  t <- load (oOf7.[2] + i + 0*Q) ;; store (oOf7.[1] + i + 2*Q) t.

Definition SetupDiff3Rhs (Q : Z) (iOf7 oOf7 : Z -> Z) (inp : Z -> F) :
    prog Z F retval :=
  for_loop Q (SetupDiff3Rhs_body Q iOf7 oOf7 inp) ;; Ret RVoid.

(** One row of [Diff3]: component [c] of the gradient, contracted with
    the symmetric tensor of input field 1.  The source writes the three
    rows out one after the other. *)
Definition Diff3_row (Q : Z) (iOf7 oOf7 : Z -> Z) (inp : Z -> F)
    (i c : Z) : prog Z F unit :=
  let ug0 := inp.[iOf7.[0] + i + Q*(c+0*3)] in
  let ug1 := inp.[iOf7.[0] + i + Q*(c+1*3)] in
  let ug2 := inp.[iOf7.[0] + i + Q*(c+2*3)] in
  store (oOf7.[0] + i + Q*(c+0*3))
    (inp.[iOf7.[1] + i + Q*0] * ug0 +
     inp.[iOf7.[1] + i + Q*1] * ug1 + inp.[iOf7.[1] + i + Q*2] * ug2)%sc ;;
  store (oOf7.[0] + i + Q*(c+1*3))
    (inp.[iOf7.[1] + i + Q*1] * ug0 +
     inp.[iOf7.[1] + i + Q*3] * ug1 + inp.[iOf7.[1] + i + Q*4] * ug2)%sc ;;
  store (oOf7.[0] + i + Q*(c+2*3))
    (inp.[iOf7.[1] + i + Q*2] * ug0 +
     inp.[iOf7.[1] + i + Q*4] * ug1 + inp.[iOf7.[1] + i + Q*5] * ug2)%sc.

Definition Diff3_body (Q : Z) (iOf7 oOf7 : Z -> Z) (inp : Z -> F)
    (i : Z) : prog Z F unit :=
  Diff3_row Q iOf7 oOf7 inp i 0 ;;
  Diff3_row Q iOf7 oOf7 inp i 1 ;;
  Diff3_row Q iOf7 oOf7 inp i 2.

Definition Diff3 (Q : Z) (iOf7 oOf7 : Z -> Z) (inp : Z -> F) :
    prog Z F retval :=
  for_loop Q (Diff3_body Q iOf7 oOf7 inp) ;; Ret RVoid.
End BP3.

(** ** QFunctions in C *)

(** A C QFunction gets an array [in] of input fields and an array [out] of
    output fields.  An address of the output is the pair of the field
    number and of the index in the field. *)

(** [(f, k)] is the address of [out[f][k]]. *)
Definition cell (f k : Z) : Z * Z := (f, k).

(** A field [a] cast to a pointer to rows of [Q] scalars: element
    [[c][i]] is [a[c*Q + i]]. *)
Definition rows {T : Type} (Q : Z) (a : Z -> T) (c i : Z) : T := a (c * Q + i).

(** A field [a] cast to a pointer to blocks of 5 rows of [Q] scalars:
    element [[k][j][i]] is [a[(k*5 + j)*Q + i]]. *)
Definition rows5 {T : Type} (Q : Z) (a : Z -> T) (k j i : Z) : T :=
  a ((k * 5 + j) * Q + i).

(** ** [examples/shallow-water/shallow-water.h] *)

Section ShallowWater.
Context {F : Type} `{Arith F} `{Libm F}.

Definition SWICs_body (ctx : Z -> F) (Q : Z) (inp : Z -> Z -> F)
    (i : Z) : prog (Z * Z) F unit :=
  let X := inp.[0] in
  let q0 := cell 0 in
  let h_s := cell 1 in
  let H_0 := cell 2 in
  let coords := cell 3 in
  let u0 := ctx.[0] in
  let v0 := ctx.[1] in
  let h0 := ctx.[2] in
  let x := X.[i+0*Q] in
  let y := X.[i+1*Q] in
  store (q0 (i+0*Q)) u0 ;;
  store (q0 (i+1*Q)) v0 ;;
  store (q0 (i+2*Q)) h0 ;;
  store (h_s (i+0*Q)) (fsin x + fcos y)%sc ;;
  store (H_0 (i+0*Q)) #0 ;;
  store (coords (i+0*Q)) x ;;
  store (coords (i+1*Q)) y.

Definition SWICs (ctx : Z -> F) (Q : Z) (inp : Z -> Z -> F) :
    prog (Z * Z) F retval :=
  for_loop Q (SWICs_body ctx Q inp) ;; Ret (RInt 0).

Definition SWExplicit_body (ctx : Z -> F) (Q : Z) (inp : Z -> Z -> F)
    (i : Z) : prog (Z * Z) F unit :=
  let q := inp.[0] in
  let dq := inp.[1] in
  let qdata := inp.[2] in
  let v := cell 0 in
  let dv := cell 1 in
  let f := ctx.[0] in
  let u := vec2 q.[i+0*Q] q.[i+1*Q] in
  let h := q.[i+2*Q] in
  let du := vec2 (vec2 dq.[i+(0+4*0)*Q] dq.[i+(0+4*1)*Q])
                 (vec2 dq.[i+(1+4*0)*Q] dq.[i+(1+4*1)*Q]) in
  let dh := vec2 dq.[i+(2+4*0)*Q] dq.[i+(2+4*1)*Q] in
  let wJ := qdata.[i+0*Q] in
  let wBJ := vec4 qdata.[i+1*Q] qdata.[i+2*Q] qdata.[i+3*Q] qdata.[i+4*Q] in
  store (dv (i+(0+3*0)*Q)) #0 ;;
  store (dv (i+(0+3*1)*Q)) #0 ;;
  store (dv (i+(1+3*0)*Q)) #0 ;;
  store (dv (i+(1+3*1)*Q)) #0 ;;
  store (v (i+0*Q))
    (- (u.[0]*du.[0].[0] + u.[1]*du.[0].[1] + f*u.[1]))%sc ;;
  store (v (i+1*Q))
    (- (u.[0]*du.[1].[0] + u.[1]*du.[1].[1] - f*u.[0]))%sc ;;
  store (dv (i+(2+3*0)*Q)) #0 ;;
  store (dv (i+(2+3*1)*Q)) #0 ;;
  store (v (i+2*Q)) #0.

Definition SWExplicit (ctx : Z -> F) (Q : Z) (inp : Z -> Z -> F) :
    prog (Z * Z) F retval :=
  for_loop Q (SWExplicit_body ctx Q inp) ;; Ret (RInt 0).
Definition SWImplicit_body (ctx : Z -> F) (Q : Z) (inp : Z -> Z -> F)
    (i : Z) : prog (Z * Z) F unit :=
  let q := inp.[0] in
  let dq := inp.[1] in
  let qdata := inp.[2] in
  let h_sq := inp.[4] in
  let H_0q := inp.[5] in
  let v := cell 0 in
  let dv := cell 1 in
  let g := ctx.[0] in
  let u := vec2 q.[i+0*Q] q.[i+1*Q] in
  let h := q.[i+2*Q] in
  let du := vec2 (vec2 dq.[i+(0+4*0)*Q] dq.[i+(0+4*1)*Q])
                 (vec2 dq.[i+(1+4*0)*Q] dq.[i+(1+4*1)*Q]) in
  let dh := vec2 dq.[i+(2+4*0)*Q] dq.[i+(2+4*1)*Q] in
  let wJ := qdata.[i+0*Q] in
  let wBJ := vec4 qdata.[i+1*Q] qdata.[i+2*Q] qdata.[i+3*Q] qdata.[i+4*Q] in
  let h_s := h_sq.[i+0*Q] in
  let H_0 := H_0q.[i+0*Q] in
  store (dv (i+(0+3*0)*Q)) (- g*(h + h_s)*(wBJ.[0] + wBJ.[1]))%sc ;;
  store (dv (i+(0+3*1)*Q)) #0 ;;
  store (dv (i+(1+3*0)*Q)) #0 ;;
  store (dv (i+(1+3*1)*Q)) (- g*(h + h_s)*(wBJ.[2] + wBJ.[3]))%sc ;;
  store (v (i+0*Q)) #0 ;;
  store (v (i+1*Q)) #0 ;;
  store (dv (i+(2+3*0)*Q)) (- (h + H_0)*(u.[0]*wBJ.[0] + u.[1]*wBJ.[1]))%sc ;;
  store (dv (i+(2+3*1)*Q)) (- (h + H_0)*(u.[0]*wBJ.[2] + u.[1]*wBJ.[3]))%sc ;;
  store (v (i+2*Q)) #0.

Definition SWImplicit (ctx : Z -> F) (Q : Z) (inp : Z -> Z -> F) :
    prog (Z * Z) F retval :=
  for_loop Q (SWImplicit_body ctx Q inp) ;; Ret (RInt 0).

Definition SWJacobian_body (ctx : Z -> F) (Q : Z) (inp : Z -> Z -> F)
    (i : Z) : prog (Z * Z) F unit :=
  let q := inp.[0] in
  let dq := inp.[1] in
  let qdata := inp.[2] in
  let v := cell 0 in
  let dv := cell 1 in
  let g := ctx.[0] in
  let u := vec2 q.[i+0*Q] q.[i+1*Q] in
  let h := q.[i+2*Q] in
  let du := vec2 (vec2 dq.[i+(0+4*0)*Q] dq.[i+(0+4*1)*Q])
                 (vec2 dq.[i+(1+4*0)*Q] dq.[i+(1+4*1)*Q]) in
  let dh := vec2 dq.[i+(2+4*0)*Q] dq.[i+(2+4*1)*Q] in
  let wBJ := vec4 qdata.[i+1*Q] qdata.[i+2*Q] qdata.[i+3*Q] qdata.[i+4*Q] in
  store (dv (i+(0+3*0)*Q)) (- g*wBJ.[0] * dh.[0])%sc ;;
  store (dv (i+(0+3*1)*Q)) #0 ;;
  store (dv (i+(1+3*0)*Q)) #0 ;;
  store (dv (i+(1+3*1)*Q)) (- g*wBJ.[3] * dh.[1])%sc ;;
  store (v (i+0*Q)) #0 ;;
  store (v (i+1*Q)) #0 ;;
  store (dv (i+(2+3*0)*Q)) (- (du.[0].[0]*wBJ.[0] + u.[0]*dh.[0]*wBJ.[1]))%sc ;;
  store (dv (i+(2+3*1)*Q)) (- (du.[1].[1]*wBJ.[2] + u.[1]*dh.[1]*wBJ.[3]))%sc ;;
  store (v (i+2*Q)) #0.

Definition SWJacobian (ctx : Z -> F) (Q : Z) (inp : Z -> Z -> F) :
    prog (Z * Z) F retval :=
  for_loop Q (SWJacobian_body ctx Q inp) ;; Ret (RInt 0).
End ShallowWater.

(** ** [examples/navier-stokes/densitycurrent.h] *)

Section DensityCurrent.
Context {F : Type} `{Arith F} `{Libm F}.

Definition ICsDC_body (ctx : Z -> F) (Q : Z) (inp : Z -> Z -> F)
    (i : Z) : prog (Z * Z) F unit :=
  let X := rows Q inp.[0] in
  let q0 := rows Q (cell 0) in
  let coords := rows Q (cell 1) in
  let theta0 := ctx.[0] in
  let thetaC := ctx.[1] in
  let P0 := ctx.[2] in
  let N := ctx.[3] in
  let cv := ctx.[4] in
  let cp := ctx.[5] in
  let Rd := ctx.[6] in
  let g := ctx.[7] in
  let rc := ctx.[8] in
  let lx := ctx.[9] in
  let ly := ctx.[10] in
  let lz := ctx.[11] in
  let periodic := fun j : Z => ctx.[12 + j] in
  let tol := fdec 1 (-14) in
  let center := (vec3 (fdec 5 (-1) * lx) (fdec 5 (-1) * ly)
                      (fdec 5 (-1) * lz))%sc in
  let x := X.[0].[i] in
  let y := X.[1].[i] in
  let z := X.[2].[i] in
  let r := (fsqrt (fpow (x - center.[0]) #2 +
                   fpow (y - center.[1]) #2 +
                   fpow (z - center.[2]) #2))%sc in
  let deltatheta :=
    (if fleb r rc then thetaC*(#1 + fcos (M_PI*r/rc))/#2 else #0)%sc in
  let theta := (theta0 * fexp (N*N*z/g) + deltatheta)%sc in
  let Pi := (#1 + g*g*(fexp (-N*N*z/g) - #1) / (cp*theta0*N*N))%sc in
  let rho := (P0 * fpow Pi (cv/Rd) / (Rd*theta))%sc in
  store q0.[0].[i] rho ;;
  store q0.[1].[i] #0 ;;
  store q0.[2].[i] #0 ;;
  store q0.[3].[i] #0 ;;
  store q0.[4].[i] (rho * (cv*theta*Pi))%sc ;;
  when ((feqb (periodic 0) #0 &&
           (fltb (ffabs (x - #0)) tol || fltb (ffabs (x - lx)) tol))
        || (feqb (periodic 1) #0 &&
           (fltb (ffabs (y - #0)) tol || fltb (ffabs (y - ly)) tol))
        || (feqb (periodic 2) #0 &&
           (fltb (ffabs (z - #0)) tol || fltb (ffabs (z - lz)) tol)))%sc
    (store q0.[1].[i] #0 ;;
     store q0.[2].[i] #0 ;;
     store q0.[3].[i] #0) ;;
  store coords.[0].[i] x ;;
  store coords.[1].[i] y ;;
  store coords.[2].[i] z.

Definition ICsDC (ctx : Z -> F) (Q : Z) (inp : Z -> Z -> F) :
    prog (Z * Z) F retval :=
  for_loop Q (ICsDC_body ctx Q inp) ;; Ret (RInt 0).

(** [acc = 0; for (l = 0; l < 3; l++) acc += t(l);] *)
Definition acc3 (t : Z -> F) : F := (#0 + t 0 + t 1 + t 2)%sc.

(** *** The locals of [DC] at the quadrature point [i]

    The local array [du] is declared without an initialiser, and the
    innermost loop of the nest that fills it reads [du[j][l]] for every
    [l], although at that time only the elements [l <= k] have been
    assigned.  [du0 j l] is the indeterminate value of [du[j][l]] at its
    declaration. *)
Section DCPoint.
Variables (ctx : Z -> F) (Q : Z) (inp : Z -> Z -> F).
Variables (du0 : Z -> Z -> F) (i : Z).

Definition DC_q := rows Q inp.[0].
Definition DC_dq := rows5 Q inp.[1].
Definition DC_qdata := rows Q inp.[2].

Definition DC_lambda := ctx.[0].
Definition DC_mu := ctx.[1].
Definition DC_k := ctx.[2].
Definition DC_cv := ctx.[3].
Definition DC_cp := ctx.[4].
Definition DC_g := ctx.[5].
Definition DC_Rd := ctx.[6].
Definition DC_gamma := (DC_cp / DC_cv)%sc.

Definition DC_rho := DC_q.[0].[i].
Definition DC_u :=
  (vec3 (DC_q.[1].[i] / DC_rho) (DC_q.[2].[i] / DC_rho)
        (DC_q.[3].[i] / DC_rho))%sc.
Definition DC_E := DC_q.[4].[i].
Definition DC_drho :=
  vec3 DC_dq.[0].[0].[i] DC_dq.[1].[0].[i] DC_dq.[2].[0].[i].
Definition DC_dU :=
  vec3 (vec3 DC_dq.[0].[1].[i] DC_dq.[1].[1].[i] DC_dq.[2].[1].[i])
       (vec3 DC_dq.[0].[2].[i] DC_dq.[1].[2].[i] DC_dq.[2].[2].[i])
       (vec3 DC_dq.[0].[3].[i] DC_dq.[1].[3].[i] DC_dq.[2].[3].[i]).
Definition DC_dE :=
  vec3 DC_dq.[0].[4].[i] DC_dq.[1].[4].[i] DC_dq.[2].[4].[i].
Definition DC_wJ := DC_qdata.[0].[i].
Definition DC_dXdx :=
  vec3 (vec3 DC_qdata.[1].[i] DC_qdata.[2].[i] DC_qdata.[3].[i])
       (vec3 DC_qdata.[4].[i] DC_qdata.[5].[i] DC_qdata.[6].[i])
       (vec3 DC_qdata.[7].[i] DC_qdata.[8].[i] DC_qdata.[9].[i]).

(** The arrays the loop nest fills, each given by the value of its
    element after the nest. *)
Definition DC_du (j k : Z) : F :=
  let rho := DC_rho in let u := DC_u in
  let dU := DC_dU in let drho := DC_drho in
  ((dU.[j].[k] - drho.[k]*u.[j]) / rho)%sc.

(** [du[j][l]] as the innermost loop reads it in the iteration [k]. *)
Definition DC_du_read (j k l : Z) : F :=
  if l <=? k then DC_du j l else du0 j l.

Definition DC_drhodx (j : Z) : F :=
  let drho := DC_drho in let dXdx := DC_dXdx in
  acc3 (fun k => drho.[k] * dXdx.[k].[j])%sc.
Definition DC_dEdx (j : Z) : F :=
  let dE := DC_dE in let dXdx := DC_dXdx in
  acc3 (fun k => dE.[k] * dXdx.[k].[j])%sc.
Definition DC_dUdx (j k : Z) : F :=
  let dU := DC_dU in let dXdx := DC_dXdx in
  acc3 (fun l => dU.[j].[l] * dXdx.[l].[k])%sc.
Definition DC_dudx (j k : Z) : F :=
  let dXdx := DC_dXdx in
  acc3 (fun l => DC_du_read j k l * dXdx.[l].[k])%sc.
Definition DC_dXdxdXdxT (j k : Z) : F :=
  let dXdx := DC_dXdx in
  acc3 (fun l => dXdx.[j].[l] * dXdx.[k].[l])%sc.

Definition DC_gradT : Z -> F :=
  let rho := DC_rho in let u := DC_u in let E := DC_E in
  let cv := DC_cv in let dEdx := DC_dEdx in
  let drhodx := DC_drhodx in let dudx := DC_dudx in
  (vec3
    ((dEdx.[0]/rho - E*drhodx.[0]/(rho*rho) -
      (u.[0]*dudx.[0].[0] + u.[1]*dudx.[1].[0] + u.[2]*dudx.[2].[0]))/cv)
    ((dEdx.[1]/rho - E*drhodx.[1]/(rho*rho) -
      (u.[0]*dudx.[0].[1] + u.[1]*dudx.[1].[1] + u.[2]*dudx.[2].[1]))/cv)
    ((dEdx.[2]/rho - E*drhodx.[2]/(rho*rho) -
      (u.[0]*dudx.[0].[2] + u.[1]*dudx.[1].[2] + u.[2]*dudx.[2].[2]))/cv)
  )%sc.

(** The viscous stress, a symmetric 3x3 matrix packed as
    (11, 12, 13, 22, 23, 33). *)
Definition DC_Fu : Z -> F :=
  let mu := DC_mu in let lambda := DC_lambda in let dudx := DC_dudx in
  (vec6
    (mu *(dudx.[0].[0] * (#2 + lambda) +
          lambda * (dudx.[1].[1] + dudx.[2].[2])))
    (mu *(dudx.[0].[1] + dudx.[1].[0]))
    (mu *(dudx.[0].[2] + dudx.[2].[0]))
    (mu *(dudx.[1].[1] * (#2 + lambda) +
          lambda * (dudx.[0].[0] + dudx.[2].[2])))
    (mu *(dudx.[1].[2] + dudx.[2].[1]))
    (mu *(dudx.[2].[2] * (#2 + lambda) +
          lambda * (dudx.[0].[0] + dudx.[1].[1]))))%sc.

Definition DC_Fe : Z -> F :=
  let u := DC_u in let Fu := DC_Fu in let k := DC_k in
  let gradT := DC_gradT in
  (vec3
    (u.[0]*Fu.[0] + u.[1]*Fu.[1] + u.[2]*Fu.[2] + k *gradT.[0])
    (u.[0]*Fu.[1] + u.[1]*Fu.[3] + u.[2]*Fu.[4] + k *gradT.[1])
    (u.[0]*Fu.[2] + u.[1]*Fu.[4] + u.[2]*Fu.[5] + k *gradT.[2]))%sc.

Definition DC_ke : F :=
  let u := DC_u in
  ((u.[0]*u.[0] + u.[1]*u.[1] + u.[2]*u.[2]) / #2)%sc.

Definition DC_P : F :=
  let E := DC_E in let ke := DC_ke in let rho := DC_rho in
  let gamma := DC_gamma in
  ((E - ke * rho) * (gamma - #1))%sc.

Definition DC_uX (j : Z) : F :=
  let dXdx := DC_dXdx in let u := DC_u in
  (dXdx.[j].[0]*u.[0] + dXdx.[j].[1]*u.[1] + dXdx.[j].[2]*u.[2])%sc.

Definition DC_uiujgij : F :=
  let uX := DC_uX in
  (uX.[0]*uX.[0] + uX.[1]*uX.[1] + uX.[2]*uX.[2])%sc.

Definition DC_f1 : F := (DC_rho * fsqrt DC_uiujgij)%sc.

Definition DC_TauC : F :=
  let Cc := (#1)%sc in let f1 := DC_f1 in
  let dXdxdXdxT := DC_dXdxdXdxT in
  ((Cc * f1) /
   (#8 * (dXdxdXdxT.[0].[0] + dXdxdXdxT.[1].[1] + dXdxdXdxT.[2].[2])))%sc.

Definition DC_TauM : F := (#1 / DC_f1)%sc.

Definition DC_TauE : F :=
  let Ce := (#1)%sc in
  (DC_TauM / (Ce * DC_cv))%sc.

(** [Stab_Conv], the 5x3 matrix of the convective stabilization. *)
Definition DC_Stab_Conv : Z -> Z -> F :=
  let TauC := DC_TauC in let TauM := DC_TauM in let TauE := DC_TauE in
  let u := DC_u in let ke := DC_ke in let E := DC_E in
  let Rd := DC_Rd in let cv := DC_cv in
  let drho := DC_drho in let dU := DC_dU in let dE := DC_dE in
  vec5
  (vec3
    (* [0][0] *)
    (TauM*(u.[0]*u.[0] - (Rd*ke)/cv)*(drho.[0]*(u.[0]*u.[0] - (Rd*ke)/cv)
     - dU.[0].[2]*u.[2] - dU.[1].[1]*u.[0] - dU.[2].[2]*u.[0] -
     dU.[0].[1]*u.[1] + dU.[0].[0]*u.[0]*(Rd/cv - #2) +
     drho.[1]*u.[0]*u.[1] + drho.[2]*u.[0]*u.[2] - (Rd*dE.[0])/cv +
     (Rd*dU.[1].[0]*u.[1])/cv + (Rd*dU.[2].[0]*u.[2])/cv) +
     TauM*u.[0]*u.[1]*(drho.[1]*(u.[1]*u.[1] - (Rd*ke)/cv) -
     dU.[1].[0]*u.[0] - dU.[1].[2]*u.[2] - dU.[2].[2]*u.[1] -
     dU.[0].[0]*u.[1] + dU.[1].[1]*u.[1]*(Rd/cv - #2) +
     drho.[0]*u.[0]*u.[1] + drho.[2]*u.[1]*u.[2] - (Rd*dE.[1])/cv +
     (Rd*dU.[0].[1]*u.[0])/cv + (Rd*dU.[2].[1]*u.[2])/cv) +
     TauM*u.[0]*u.[2]*(drho.[2]*(u.[2]*u.[2] - (Rd*ke)/cv) -
     dU.[1].[1]*u.[2] - dU.[2].[0]*u.[0] - dU.[2].[1]*u.[1] -
     dU.[0].[0]*u.[2] + dU.[2].[2]*u.[2]*(Rd/cv - #2) +
     drho.[0]*u.[0]*u.[2] + drho.[1]*u.[1]*u.[2] - (Rd*dE.[2])/cv +
     (Rd*dU.[0].[2]*u.[0])/cv + (Rd*dU.[1].[2]*u.[1])/cv) +
     TauE*u.[0]*(E*(Rd/cv + #1) - (#2*Rd*ke)/cv)*(drho.[0]*u.[0]*(E*(Rd/cv
     + #1) - (#2*Rd*ke)/cv) - dU.[1].[1]*(E*(Rd/cv + #1) -
     (Rd*(u.[1]*u.[1] + ke))/cv) - dU.[2].[2]*(E*(Rd/cv + #1) -
     (Rd*(u.[2]*u.[2] + ke))/cv) - dE.[0]*u.[0]*(Rd/cv + #1) -
     dE.[1]*u.[1]*(Rd/cv + #1) - dE.[2]*u.[2]*(Rd/cv + #1) -
     dU.[0].[0]*(E*(Rd/cv + #1) - (Rd*(u.[0]*u.[0] + ke))/cv) +
     drho.[1]*u.[1]*(E*(Rd/cv + #1) - (#2*Rd*ke)/cv) +
     drho.[2]*u.[2]*(E*(Rd/cv + #1) - (#2*Rd*ke)/cv) +
     (Rd*dU.[0].[1]*u.[0]*u.[1])/cv + (Rd*dU.[0].[2]*u.[0]*u.[2])/cv +
     (Rd*dU.[1].[0]*u.[0]*u.[1])/cv + (Rd*dU.[1].[2]*u.[1]*u.[2])/cv +
     (Rd*dU.[2].[0]*u.[0]*u.[2])/cv + (Rd*dU.[2].[1]*u.[1]*u.[2])/cv))%sc
    (* [0][1] *)
    (TauM*(u.[1]*u.[1] - (Rd*ke)/cv)*(drho.[1]*(u.[1]*u.[1] - (Rd*ke)/cv)
     - dU.[1].[0]*u.[0] - dU.[1].[2]*u.[2] - dU.[2].[2]*u.[1] -
     dU.[0].[0]*u.[1] + dU.[1].[1]*u.[1]*(Rd/cv - #2) +
     drho.[0]*u.[0]*u.[1] + drho.[2]*u.[1]*u.[2] - (Rd*dE.[1])/cv +
     (Rd*dU.[0].[1]*u.[0])/cv + (Rd*dU.[2].[1]*u.[2])/cv) +
     TauM*u.[0]*u.[1]*(drho.[0]*(u.[0]*u.[0] - (Rd*ke)/cv) -
     dU.[0].[2]*u.[2] - dU.[1].[1]*u.[0] - dU.[2].[2]*u.[0] -
     dU.[0].[1]*u.[1] + dU.[0].[0]*u.[0]*(Rd/cv - #2) +
     drho.[1]*u.[0]*u.[1] + drho.[2]*u.[0]*u.[2] - (Rd*dE.[0])/cv +
     (Rd*dU.[1].[0]*u.[1])/cv + (Rd*dU.[2].[0]*u.[2])/cv) +
     TauM*u.[1]*u.[2]*(drho.[2]*(u.[2]*u.[2] - (Rd*ke)/cv) -
     dU.[1].[1]*u.[2] - dU.[2].[0]*u.[0] - dU.[2].[1]*u.[1] -
     dU.[0].[0]*u.[2] + dU.[2].[2]*u.[2]*(Rd/cv - #2) +
     drho.[0]*u.[0]*u.[2] + drho.[1]*u.[1]*u.[2] - (Rd*dE.[2])/cv +
     (Rd*dU.[0].[2]*u.[0])/cv + (Rd*dU.[1].[2]*u.[1])/cv) +
     TauE*u.[1]*(E*(Rd/cv + #1) - (#2*Rd*ke)/cv)*(drho.[0]*u.[0]*(E*(Rd/cv
     + #1) - (#2*Rd*ke)/cv) - dU.[1].[1]*(E*(Rd/cv + #1) -
     (Rd*(u.[1]*u.[1] + ke))/cv) - dU.[2].[2]*(E*(Rd/cv + #1) -
     (Rd*(u.[2]*u.[2] + ke))/cv) - dE.[0]*u.[0]*(Rd/cv + #1) -
     dE.[1]*u.[1]*(Rd/cv + #1) - dE.[2]*u.[2]*(Rd/cv + #1) -
     dU.[0].[0]*(E*(Rd/cv + #1) - (Rd*(u.[0]*u.[0] + ke))/cv) +
     drho.[1]*u.[1]*(E*(Rd/cv + #1) - (#2*Rd*ke)/cv) +
     drho.[2]*u.[2]*(E*(Rd/cv + #1) - (#2*Rd*ke)/cv) +
     (Rd*dU.[0].[1]*u.[0]*u.[1])/cv + (Rd*dU.[0].[2]*u.[0]*u.[2])/cv +
     (Rd*dU.[1].[0]*u.[0]*u.[1])/cv + (Rd*dU.[1].[2]*u.[1]*u.[2])/cv +
     (Rd*dU.[2].[0]*u.[0]*u.[2])/cv + (Rd*dU.[2].[1]*u.[1]*u.[2])/cv))%sc
    (* [0][2] *)
    (TauM*(u.[2]*u.[2] - (Rd*ke)/cv)*(drho.[2]*(u.[2]*u.[2] - (Rd*ke)/cv)
     - dU.[1].[1]*u.[2] - dU.[2].[0]*u.[0] - dU.[2].[1]*u.[1] -
     dU.[0].[0]*u.[2] + dU.[2].[2]*u.[2]*(Rd/cv - #2) +
     drho.[0]*u.[0]*u.[2] + drho.[1]*u.[1]*u.[2] - (Rd*dE.[2])/cv +
     (Rd*dU.[0].[2]*u.[0])/cv + (Rd*dU.[1].[2]*u.[1])/cv) +
     TauM*u.[0]*u.[2]*(drho.[0]*(u.[0]*u.[0] - (Rd*ke)/cv) -
     dU.[0].[2]*u.[2] - dU.[1].[1]*u.[0] - dU.[2].[2]*u.[0] -
     dU.[0].[1]*u.[1] + dU.[0].[0]*u.[0]*(Rd/cv - #2) +
     drho.[1]*u.[0]*u.[1] + drho.[2]*u.[0]*u.[2] - (Rd*dE.[0])/cv +
     (Rd*dU.[1].[0]*u.[1])/cv + (Rd*dU.[2].[0]*u.[2])/cv) +
     TauM*u.[1]*u.[2]*(drho.[1]*(u.[1]*u.[1] - (Rd*ke)/cv) -
     dU.[1].[0]*u.[0] - dU.[1].[2]*u.[2] - dU.[2].[2]*u.[1] -
     dU.[0].[0]*u.[1] + dU.[1].[1]*u.[1]*(Rd/cv - #2) +
     drho.[0]*u.[0]*u.[1] + drho.[2]*u.[1]*u.[2] - (Rd*dE.[1])/cv +
     (Rd*dU.[0].[1]*u.[0])/cv + (Rd*dU.[2].[1]*u.[2])/cv) +
     TauE*u.[2]*(E*(Rd/cv + #1) - (#2*Rd*ke)/cv)*(drho.[0]*u.[0]*(E*(Rd/cv
     + #1) - (#2*Rd*ke)/cv) - dU.[1].[1]*(E*(Rd/cv + #1) -
     (Rd*(u.[1]*u.[1] + ke))/cv) - dU.[2].[2]*(E*(Rd/cv + #1) -
     (Rd*(u.[2]*u.[2] + ke))/cv) - dE.[0]*u.[0]*(Rd/cv + #1) -
     dE.[1]*u.[1]*(Rd/cv + #1) - dE.[2]*u.[2]*(Rd/cv + #1) -
     dU.[0].[0]*(E*(Rd/cv + #1) - (Rd*(u.[0]*u.[0] + ke))/cv) +
     drho.[1]*u.[1]*(E*(Rd/cv + #1) - (#2*Rd*ke)/cv) +
     drho.[2]*u.[2]*(E*(Rd/cv + #1) - (#2*Rd*ke)/cv) +
     (Rd*dU.[0].[1]*u.[0]*u.[1])/cv + (Rd*dU.[0].[2]*u.[0]*u.[2])/cv +
     (Rd*dU.[1].[0]*u.[0]*u.[1])/cv + (Rd*dU.[1].[2]*u.[1]*u.[2])/cv +
     (Rd*dU.[2].[0]*u.[0]*u.[2])/cv + (Rd*dU.[2].[1]*u.[1]*u.[2])/cv))%sc)
  (vec3
    (* [1][0] *)
    (TauC*(dU.[0].[0] + dU.[1].[1] + dU.[2].[2]) -
     TauM*u.[1]*(drho.[1]*(u.[1]*u.[1] - (Rd*ke)/cv) - dU.[1].[0]*u.[0] -
     dU.[1].[2]*u.[2] - dU.[2].[2]*u.[1] - dU.[0].[0]*u.[1] +
     dU.[1].[1]*u.[1]*(Rd/cv - #2) + drho.[0]*u.[0]*u.[1] +
     drho.[2]*u.[1]*u.[2] - (Rd*dE.[1])/cv + (Rd*dU.[0].[1]*u.[0])/cv +
     (Rd*dU.[2].[1]*u.[2])/cv) - TauM*u.[2]*(drho.[2]*(u.[2]*u.[2] -
     (Rd*ke)/cv) - dU.[1].[1]*u.[2] - dU.[2].[0]*u.[0] - dU.[2].[1]*u.[1]
     - dU.[0].[0]*u.[2] + dU.[2].[2]*u.[2]*(Rd/cv - #2) +
     drho.[0]*u.[0]*u.[2] + drho.[1]*u.[1]*u.[2] - (Rd*dE.[2])/cv +
     (Rd*dU.[0].[2]*u.[0])/cv + (Rd*dU.[1].[2]*u.[1])/cv) - TauE*(E*(Rd/cv
     + #1) - (Rd*(u.[0]*u.[0] + ke))/cv)*(drho.[0]*u.[0]*(E*(Rd/cv + #1) -
     (#2*Rd*ke)/cv) - dU.[1].[1]*(E*(Rd/cv + #1) - (Rd*(u.[1]*u.[1] +
     ke))/cv) - dU.[2].[2]*(E*(Rd/cv + #1) - (Rd*(u.[2]*u.[2] + ke))/cv) -
     dE.[0]*u.[0]*(Rd/cv + #1) - dE.[1]*u.[1]*(Rd/cv + #1) -
     dE.[2]*u.[2]*(Rd/cv + #1) - dU.[0].[0]*(E*(Rd/cv + #1) -
     (Rd*(u.[0]*u.[0] + ke))/cv) + drho.[1]*u.[1]*(E*(Rd/cv + #1) -
     (#2*Rd*ke)/cv) + drho.[2]*u.[2]*(E*(Rd/cv + #1) - (#2*Rd*ke)/cv) +
     (Rd*dU.[0].[1]*u.[0]*u.[1])/cv + (Rd*dU.[0].[2]*u.[0]*u.[2])/cv +
     (Rd*dU.[1].[0]*u.[0]*u.[1])/cv + (Rd*dU.[1].[2]*u.[1]*u.[2])/cv +
     (Rd*dU.[2].[0]*u.[0]*u.[2])/cv + (Rd*dU.[2].[1]*u.[1]*u.[2])/cv) +
     TauM*u.[0]*(Rd/cv - #2)*(drho.[0]*(u.[0]*u.[0] - (Rd*ke)/cv) -
     dU.[0].[2]*u.[2] - dU.[1].[1]*u.[0] - dU.[2].[2]*u.[0] -
     dU.[0].[1]*u.[1] + dU.[0].[0]*u.[0]*(Rd/cv - #2) +
     drho.[1]*u.[0]*u.[1] + drho.[2]*u.[0]*u.[2] - (Rd*dE.[0])/cv +
     (Rd*dU.[1].[0]*u.[1])/cv + (Rd*dU.[2].[0]*u.[2])/cv))%sc
    (* [1][1] *)
    ((Rd*TauM*u.[0]*(drho.[1]*(u.[1]*u.[1] - (Rd*ke)/cv) -
     dU.[1].[0]*u.[0] - dU.[1].[2]*u.[2] - dU.[2].[2]*u.[1] -
     dU.[0].[0]*u.[1] + dU.[1].[1]*u.[1]*(Rd/cv - #2) +
     drho.[0]*u.[0]*u.[1] + drho.[2]*u.[1]*u.[2] - (Rd*dE.[1])/cv +
     (Rd*dU.[0].[1]*u.[0])/cv + (Rd*dU.[2].[1]*u.[2])/cv))/cv -
     TauM*u.[1]*(drho.[0]*(u.[0]*u.[0] - (Rd*ke)/cv) - dU.[0].[2]*u.[2] -
     dU.[1].[1]*u.[0] - dU.[2].[2]*u.[0] - dU.[0].[1]*u.[1] +
     dU.[0].[0]*u.[0]*(Rd/cv - #2) + drho.[1]*u.[0]*u.[1] +
     drho.[2]*u.[0]*u.[2] - (Rd*dE.[0])/cv + (Rd*dU.[1].[0]*u.[1])/cv +
     (Rd*dU.[2].[0]*u.[2])/cv) +
     (Rd*TauE*u.[0]*u.[1]*(drho.[0]*u.[0]*(E*(Rd/cv + #1) - (#2*Rd*ke)/cv)
     - dU.[1].[1]*(E*(Rd/cv + #1) - (Rd*(u.[1]*u.[1] + ke))/cv) -
     dU.[2].[2]*(E*(Rd/cv + #1) - (Rd*(u.[2]*u.[2] + ke))/cv) -
     dE.[0]*u.[0]*(Rd/cv + #1) - dE.[1]*u.[1]*(Rd/cv + #1) -
     dE.[2]*u.[2]*(Rd/cv + #1) - dU.[0].[0]*(E*(Rd/cv + #1) -
     (Rd*(u.[0]*u.[0] + ke))/cv) + drho.[1]*u.[1]*(E*(Rd/cv + #1) -
     (#2*Rd*ke)/cv) + drho.[2]*u.[2]*(E*(Rd/cv + #1) - (#2*Rd*ke)/cv) +
     (Rd*dU.[0].[1]*u.[0]*u.[1])/cv + (Rd*dU.[0].[2]*u.[0]*u.[2])/cv +
     (Rd*dU.[1].[0]*u.[0]*u.[1])/cv + (Rd*dU.[1].[2]*u.[1]*u.[2])/cv +
     (Rd*dU.[2].[0]*u.[0]*u.[2])/cv + (Rd*dU.[2].[1]*u.[1]*u.[2])/cv))/cv)%sc
    (* [1][2] *)
    ((Rd*TauM*u.[0]*(drho.[2]*(u.[2]*u.[2] - (Rd*ke)/cv) -
     dU.[1].[1]*u.[2] - dU.[2].[0]*u.[0] - dU.[2].[1]*u.[1] -
     dU.[0].[0]*u.[2] + dU.[2].[2]*u.[2]*(Rd/cv - #2) +
     drho.[0]*u.[0]*u.[2] + drho.[1]*u.[1]*u.[2] - (Rd*dE.[2])/cv +
     (Rd*dU.[0].[2]*u.[0])/cv + (Rd*dU.[1].[2]*u.[1])/cv))/cv -
     TauM*u.[2]*(drho.[0]*(u.[0]*u.[0] - (Rd*ke)/cv) - dU.[0].[2]*u.[2] -
     dU.[1].[1]*u.[0] - dU.[2].[2]*u.[0] - dU.[0].[1]*u.[1] +
     dU.[0].[0]*u.[0]*(Rd/cv - #2) + drho.[1]*u.[0]*u.[1] +
     drho.[2]*u.[0]*u.[2] - (Rd*dE.[0])/cv + (Rd*dU.[1].[0]*u.[1])/cv +
     (Rd*dU.[2].[0]*u.[2])/cv) +
     (Rd*TauE*u.[0]*u.[2]*(drho.[0]*u.[0]*(E*(Rd/cv + #1) - (#2*Rd*ke)/cv)
     - dU.[1].[1]*(E*(Rd/cv + #1) - (Rd*(u.[1]*u.[1] + ke))/cv) -
     dU.[2].[2]*(E*(Rd/cv + #1) - (Rd*(u.[2]*u.[2] + ke))/cv) -
     dE.[0]*u.[0]*(Rd/cv + #1) - dE.[1]*u.[1]*(Rd/cv + #1) -
     dE.[2]*u.[2]*(Rd/cv + #1) - dU.[0].[0]*(E*(Rd/cv + #1) -
     (Rd*(u.[0]*u.[0] + ke))/cv) + drho.[1]*u.[1]*(E*(Rd/cv + #1) -
     (#2*Rd*ke)/cv) + drho.[2]*u.[2]*(E*(Rd/cv + #1) - (#2*Rd*ke)/cv) +
     (Rd*dU.[0].[1]*u.[0]*u.[1])/cv + (Rd*dU.[0].[2]*u.[0]*u.[2])/cv +
     (Rd*dU.[1].[0]*u.[0]*u.[1])/cv + (Rd*dU.[1].[2]*u.[1]*u.[2])/cv +
     (Rd*dU.[2].[0]*u.[0]*u.[2])/cv + (Rd*dU.[2].[1]*u.[1]*u.[2])/cv))/cv)%sc)
  (vec3
    (* [2][0] *)
    ((Rd*TauM*u.[1]*(drho.[0]*(u.[0]*u.[0] - (Rd*ke)/cv) -
     dU.[0].[2]*u.[2] - dU.[1].[1]*u.[0] - dU.[2].[2]*u.[0] -
     dU.[0].[1]*u.[1] + dU.[0].[0]*u.[0]*(Rd/cv - #2) +
     drho.[1]*u.[0]*u.[1] + drho.[2]*u.[0]*u.[2] - (Rd*dE.[0])/cv +
     (Rd*dU.[1].[0]*u.[1])/cv + (Rd*dU.[2].[0]*u.[2])/cv))/cv -
     TauM*u.[0]*(drho.[1]*(u.[1]*u.[1] - (Rd*ke)/cv) - dU.[1].[0]*u.[0] -
     dU.[1].[2]*u.[2] - dU.[2].[2]*u.[1] - dU.[0].[0]*u.[1] +
     dU.[1].[1]*u.[1]*(Rd/cv - #2) + drho.[0]*u.[0]*u.[1] +
     drho.[2]*u.[1]*u.[2] - (Rd*dE.[1])/cv + (Rd*dU.[0].[1]*u.[0])/cv +
     (Rd*dU.[2].[1]*u.[2])/cv) +
     (Rd*TauE*u.[0]*u.[1]*(drho.[0]*u.[0]*(E*(Rd/cv + #1) - (#2*Rd*ke)/cv)
     - dU.[1].[1]*(E*(Rd/cv + #1) - (Rd*(u.[1]*u.[1] + ke))/cv) -
     dU.[2].[2]*(E*(Rd/cv + #1) - (Rd*(u.[2]*u.[2] + ke))/cv) -
     dE.[0]*u.[0]*(Rd/cv + #1) - dE.[1]*u.[1]*(Rd/cv + #1) -
     dE.[2]*u.[2]*(Rd/cv + #1) - dU.[0].[0]*(E*(Rd/cv + #1) -
     (Rd*(u.[0]*u.[0] + ke))/cv) + drho.[1]*u.[1]*(E*(Rd/cv + #1) -
     (#2*Rd*ke)/cv) + drho.[2]*u.[2]*(E*(Rd/cv + #1) - (#2*Rd*ke)/cv) +
     (Rd*dU.[0].[1]*u.[0]*u.[1])/cv + (Rd*dU.[0].[2]*u.[0]*u.[2])/cv +
     (Rd*dU.[1].[0]*u.[0]*u.[1])/cv + (Rd*dU.[1].[2]*u.[1]*u.[2])/cv +
     (Rd*dU.[2].[0]*u.[0]*u.[2])/cv + (Rd*dU.[2].[1]*u.[1]*u.[2])/cv))/cv)%sc
    (* [2][1] *)
    (TauC*(dU.[0].[0] + dU.[1].[1] + dU.[2].[2]) -
     TauM*u.[0]*(drho.[0]*(u.[0]*u.[0] - (Rd*ke)/cv) - dU.[0].[2]*u.[2] -
     dU.[1].[1]*u.[0] - dU.[2].[2]*u.[0] - dU.[0].[1]*u.[1] +
     dU.[0].[0]*u.[0]*(Rd/cv - #2) + drho.[1]*u.[0]*u.[1] +
     drho.[2]*u.[0]*u.[2] - (Rd*dE.[0])/cv + (Rd*dU.[1].[0]*u.[1])/cv +
     (Rd*dU.[2].[0]*u.[2])/cv) - TauM*u.[2]*(drho.[2]*(u.[2]*u.[2] -
     (Rd*ke)/cv) - dU.[1].[1]*u.[2] - dU.[2].[0]*u.[0] - dU.[2].[1]*u.[1]
     - dU.[0].[0]*u.[2] + dU.[2].[2]*u.[2]*(Rd/cv - #2) +
     drho.[0]*u.[0]*u.[2] + drho.[1]*u.[1]*u.[2] - (Rd*dE.[2])/cv +
     (Rd*dU.[0].[2]*u.[0])/cv + (Rd*dU.[1].[2]*u.[1])/cv) - TauE*(E*(Rd/cv
     + #1) - (Rd*(u.[1]*u.[1] + ke))/cv)*(drho.[0]*u.[0]*(E*(Rd/cv + #1) -
     (#2*Rd*ke)/cv) - dU.[1].[1]*(E*(Rd/cv + #1) - (Rd*(u.[1]*u.[1] +
     ke))/cv) - dU.[2].[2]*(E*(Rd/cv + #1) - (Rd*(u.[2]*u.[2] + ke))/cv) -
     dE.[0]*u.[0]*(Rd/cv + #1) - dE.[1]*u.[1]*(Rd/cv + #1) -
     dE.[2]*u.[2]*(Rd/cv + #1) - dU.[0].[0]*(E*(Rd/cv + #1) -
     (Rd*(u.[0]*u.[0] + ke))/cv) + drho.[1]*u.[1]*(E*(Rd/cv + #1) -
     (#2*Rd*ke)/cv) + drho.[2]*u.[2]*(E*(Rd/cv + #1) - (#2*Rd*ke)/cv) +
     (Rd*dU.[0].[1]*u.[0]*u.[1])/cv + (Rd*dU.[0].[2]*u.[0]*u.[2])/cv +
     (Rd*dU.[1].[0]*u.[0]*u.[1])/cv + (Rd*dU.[1].[2]*u.[1]*u.[2])/cv +
     (Rd*dU.[2].[0]*u.[0]*u.[2])/cv + (Rd*dU.[2].[1]*u.[1]*u.[2])/cv) +
     TauM*u.[1]*(Rd/cv - #2)*(drho.[1]*(u.[1]*u.[1] - (Rd*ke)/cv) -
     dU.[1].[0]*u.[0] - dU.[1].[2]*u.[2] - dU.[2].[2]*u.[1] -
     dU.[0].[0]*u.[1] + dU.[1].[1]*u.[1]*(Rd/cv - #2) +
     drho.[0]*u.[0]*u.[1] + drho.[2]*u.[1]*u.[2] - (Rd*dE.[1])/cv +
     (Rd*dU.[0].[1]*u.[0])/cv + (Rd*dU.[2].[1]*u.[2])/cv))%sc
    (* [2][2] *)
    ((Rd*TauM*u.[1]*(drho.[2]*(u.[2]*u.[2] - (Rd*ke)/cv) -
     dU.[1].[1]*u.[2] - dU.[2].[0]*u.[0] - dU.[2].[1]*u.[1] -
     dU.[0].[0]*u.[2] + dU.[2].[2]*u.[2]*(Rd/cv - #2) +
     drho.[0]*u.[0]*u.[2] + drho.[1]*u.[1]*u.[2] - (Rd*dE.[2])/cv +
     (Rd*dU.[0].[2]*u.[0])/cv + (Rd*dU.[1].[2]*u.[1])/cv))/cv -
     TauM*u.[2]*(drho.[1]*(u.[1]*u.[1] - (Rd*ke)/cv) - dU.[1].[0]*u.[0] -
     dU.[1].[2]*u.[2] - dU.[2].[2]*u.[1] - dU.[0].[0]*u.[1] +
     dU.[1].[1]*u.[1]*(Rd/cv - #2) + drho.[0]*u.[0]*u.[1] +
     drho.[2]*u.[1]*u.[2] - (Rd*dE.[1])/cv + (Rd*dU.[0].[1]*u.[0])/cv +
     (Rd*dU.[2].[1]*u.[2])/cv) +
     (Rd*TauE*u.[1]*u.[2]*(drho.[0]*u.[0]*(E*(Rd/cv + #1) - (#2*Rd*ke)/cv)
     - dU.[1].[1]*(E*(Rd/cv + #1) - (Rd*(u.[1]*u.[1] + ke))/cv) -
     dU.[2].[2]*(E*(Rd/cv + #1) - (Rd*(u.[2]*u.[2] + ke))/cv) -
     dE.[0]*u.[0]*(Rd/cv + #1) - dE.[1]*u.[1]*(Rd/cv + #1) -
     dE.[2]*u.[2]*(Rd/cv + #1) - dU.[0].[0]*(E*(Rd/cv + #1) -
     (Rd*(u.[0]*u.[0] + ke))/cv) + drho.[1]*u.[1]*(E*(Rd/cv + #1) -
     (#2*Rd*ke)/cv) + drho.[2]*u.[2]*(E*(Rd/cv + #1) - (#2*Rd*ke)/cv) +
     (Rd*dU.[0].[1]*u.[0]*u.[1])/cv + (Rd*dU.[0].[2]*u.[0]*u.[2])/cv +
     (Rd*dU.[1].[0]*u.[0]*u.[1])/cv + (Rd*dU.[1].[2]*u.[1]*u.[2])/cv +
     (Rd*dU.[2].[0]*u.[0]*u.[2])/cv + (Rd*dU.[2].[1]*u.[1]*u.[2])/cv))/cv)%sc)
  (vec3
    (* [3][0] *)
    ((Rd*TauM*u.[2]*(drho.[0]*(u.[0]*u.[0] - (Rd*ke)/cv) -
     dU.[0].[2]*u.[2] - dU.[1].[1]*u.[0] - dU.[2].[2]*u.[0] -
     dU.[0].[1]*u.[1] + dU.[0].[0]*u.[0]*(Rd/cv - #2) +
     drho.[1]*u.[0]*u.[1] + drho.[2]*u.[0]*u.[2] - (Rd*dE.[0])/cv +
     (Rd*dU.[1].[0]*u.[1])/cv + (Rd*dU.[2].[0]*u.[2])/cv))/cv -
     TauM*u.[0]*(drho.[2]*(u.[2]*u.[2] - (Rd*ke)/cv) - dU.[1].[1]*u.[2] -
     dU.[2].[0]*u.[0] - dU.[2].[1]*u.[1] - dU.[0].[0]*u.[2] +
     dU.[2].[2]*u.[2]*(Rd/cv - #2) + drho.[0]*u.[0]*u.[2] +
     drho.[1]*u.[1]*u.[2] - (Rd*dE.[2])/cv + (Rd*dU.[0].[2]*u.[0])/cv +
     (Rd*dU.[1].[2]*u.[1])/cv) +
     (Rd*TauE*u.[0]*u.[2]*(drho.[0]*u.[0]*(E*(Rd/cv + #1) - (#2*Rd*ke)/cv)
     - dU.[1].[1]*(E*(Rd/cv + #1) - (Rd*(u.[1]*u.[1] + ke))/cv) -
     dU.[2].[2]*(E*(Rd/cv + #1) - (Rd*(u.[2]*u.[2] + ke))/cv) -
     dE.[0]*u.[0]*(Rd/cv + #1) - dE.[1]*u.[1]*(Rd/cv + #1) -
     dE.[2]*u.[2]*(Rd/cv + #1) - dU.[0].[0]*(E*(Rd/cv + #1) -
     (Rd*(u.[0]*u.[0] + ke))/cv) + drho.[1]*u.[1]*(E*(Rd/cv + #1) -
     (#2*Rd*ke)/cv) + drho.[2]*u.[2]*(E*(Rd/cv + #1) - (#2*Rd*ke)/cv) +
     (Rd*dU.[0].[1]*u.[0]*u.[1])/cv + (Rd*dU.[0].[2]*u.[0]*u.[2])/cv +
     (Rd*dU.[1].[0]*u.[0]*u.[1])/cv + (Rd*dU.[1].[2]*u.[1]*u.[2])/cv +
     (Rd*dU.[2].[0]*u.[0]*u.[2])/cv + (Rd*dU.[2].[1]*u.[1]*u.[2])/cv))/cv)%sc
    (* [3][1] *)
    ((Rd*TauM*u.[2]*(drho.[1]*(u.[1]*u.[1] - (Rd*ke)/cv) -
     dU.[1].[0]*u.[0] - dU.[1].[2]*u.[2] - dU.[2].[2]*u.[1] -
     dU.[0].[0]*u.[1] + dU.[1].[1]*u.[1]*(Rd/cv - #2) +
     drho.[0]*u.[0]*u.[1] + drho.[2]*u.[1]*u.[2] - (Rd*dE.[1])/cv +
     (Rd*dU.[0].[1]*u.[0])/cv + (Rd*dU.[2].[1]*u.[2])/cv))/cv -
     TauM*u.[1]*(drho.[2]*(u.[2]*u.[2] - (Rd*ke)/cv) - dU.[1].[1]*u.[2] -
     dU.[2].[0]*u.[0] - dU.[2].[1]*u.[1] - dU.[0].[0]*u.[2] +
     dU.[2].[2]*u.[2]*(Rd/cv - #2) + drho.[0]*u.[0]*u.[2] +
     drho.[1]*u.[1]*u.[2] - (Rd*dE.[2])/cv + (Rd*dU.[0].[2]*u.[0])/cv +
     (Rd*dU.[1].[2]*u.[1])/cv) +
     (Rd*TauE*u.[1]*u.[2]*(drho.[0]*u.[0]*(E*(Rd/cv + #1) - (#2*Rd*ke)/cv)
     - dU.[1].[1]*(E*(Rd/cv + #1) - (Rd*(u.[1]*u.[1] + ke))/cv) -
     dU.[2].[2]*(E*(Rd/cv + #1) - (Rd*(u.[2]*u.[2] + ke))/cv) -
     dE.[0]*u.[0]*(Rd/cv + #1) - dE.[1]*u.[1]*(Rd/cv + #1) -
     dE.[2]*u.[2]*(Rd/cv + #1) - dU.[0].[0]*(E*(Rd/cv + #1) -
     (Rd*(u.[0]*u.[0] + ke))/cv) + drho.[1]*u.[1]*(E*(Rd/cv + #1) -
     (#2*Rd*ke)/cv) + drho.[2]*u.[2]*(E*(Rd/cv + #1) - (#2*Rd*ke)/cv) +
     (Rd*dU.[0].[1]*u.[0]*u.[1])/cv + (Rd*dU.[0].[2]*u.[0]*u.[2])/cv +
     (Rd*dU.[1].[0]*u.[0]*u.[1])/cv + (Rd*dU.[1].[2]*u.[1]*u.[2])/cv +
     (Rd*dU.[2].[0]*u.[0]*u.[2])/cv + (Rd*dU.[2].[1]*u.[1]*u.[2])/cv))/cv)%sc
    (* [3][2] *)
    (TauC*(dU.[0].[0] + dU.[1].[1] + dU.[2].[2]) -
     TauM*u.[0]*(drho.[0]*(u.[0]*u.[0] - (Rd*ke)/cv) - dU.[0].[2]*u.[2] -
     dU.[1].[1]*u.[0] - dU.[2].[2]*u.[0] - dU.[0].[1]*u.[1] +
     dU.[0].[0]*u.[0]*(Rd/cv - #2) + drho.[1]*u.[0]*u.[1] +
     drho.[2]*u.[0]*u.[2] - (Rd*dE.[0])/cv + (Rd*dU.[1].[0]*u.[1])/cv +
     (Rd*dU.[2].[0]*u.[2])/cv) - TauM*u.[1]*(drho.[1]*(u.[1]*u.[1] -
     (Rd*ke)/cv) - dU.[1].[0]*u.[0] - dU.[1].[2]*u.[2] - dU.[2].[2]*u.[1]
     - dU.[0].[0]*u.[1] + dU.[1].[1]*u.[1]*(Rd/cv - #2) +
     drho.[0]*u.[0]*u.[1] + drho.[2]*u.[1]*u.[2] - (Rd*dE.[1])/cv +
     (Rd*dU.[0].[1]*u.[0])/cv + (Rd*dU.[2].[1]*u.[2])/cv) - TauE*(E*(Rd/cv
     + #1) - (Rd*(u.[2]*u.[2] + ke))/cv)*(drho.[0]*u.[0]*(E*(Rd/cv + #1) -
     (#2*Rd*ke)/cv) - dU.[1].[1]*(E*(Rd/cv + #1) - (Rd*(u.[1]*u.[1] +
     ke))/cv) - dU.[2].[2]*(E*(Rd/cv + #1) - (Rd*(u.[2]*u.[2] + ke))/cv) -
     dE.[0]*u.[0]*(Rd/cv + #1) - dE.[1]*u.[1]*(Rd/cv + #1) -
     dE.[2]*u.[2]*(Rd/cv + #1) - dU.[0].[0]*(E*(Rd/cv + #1) -
     (Rd*(u.[0]*u.[0] + ke))/cv) + drho.[1]*u.[1]*(E*(Rd/cv + #1) -
     (#2*Rd*ke)/cv) + drho.[2]*u.[2]*(E*(Rd/cv + #1) - (#2*Rd*ke)/cv) +
     (Rd*dU.[0].[1]*u.[0]*u.[1])/cv + (Rd*dU.[0].[2]*u.[0]*u.[2])/cv +
     (Rd*dU.[1].[0]*u.[0]*u.[1])/cv + (Rd*dU.[1].[2]*u.[1]*u.[2])/cv +
     (Rd*dU.[2].[0]*u.[0]*u.[2])/cv + (Rd*dU.[2].[1]*u.[1]*u.[2])/cv) +
     TauM*u.[2]*(Rd/cv - #2)*(drho.[2]*(u.[2]*u.[2] - (Rd*ke)/cv) -
     dU.[1].[1]*u.[2] - dU.[2].[0]*u.[0] - dU.[2].[1]*u.[1] -
     dU.[0].[0]*u.[2] + dU.[2].[2]*u.[2]*(Rd/cv - #2) +
     drho.[0]*u.[0]*u.[2] + drho.[1]*u.[1]*u.[2] - (Rd*dE.[2])/cv +
     (Rd*dU.[0].[2]*u.[0])/cv + (Rd*dU.[1].[2]*u.[1])/cv))%sc)
  (vec3
    (* [4][0] *)
    (-(Rd*TauM*(drho.[0]*(u.[0]*u.[0] - (Rd*ke)/cv) - dU.[0].[2]*u.[2] -
     dU.[1].[1]*u.[0] - dU.[2].[2]*u.[0] - dU.[0].[1]*u.[1] +
     dU.[0].[0]*u.[0]*(Rd/cv - #2) + drho.[1]*u.[0]*u.[1] +
     drho.[2]*u.[0]*u.[2] - (Rd*dE.[0])/cv + (Rd*dU.[1].[0]*u.[1])/cv +
     (Rd*dU.[2].[0]*u.[2])/cv))/cv - TauE*u.[0]*(Rd/cv +
     #1)*(drho.[0]*u.[0]*(E*(Rd/cv + #1) - (#2*Rd*ke)/cv) -
     dU.[1].[1]*(E*(Rd/cv + #1) - (Rd*(u.[1]*u.[1] + ke))/cv) -
     dU.[2].[2]*(E*(Rd/cv + #1) - (Rd*(u.[2]*u.[2] + ke))/cv) -
     dE.[0]*u.[0]*(Rd/cv + #1) - dE.[1]*u.[1]*(Rd/cv + #1) -
     dE.[2]*u.[2]*(Rd/cv + #1) - dU.[0].[0]*(E*(Rd/cv + #1) -
     (Rd*(u.[0]*u.[0] + ke))/cv) + drho.[1]*u.[1]*(E*(Rd/cv + #1) -
     (#2*Rd*ke)/cv) + drho.[2]*u.[2]*(E*(Rd/cv + #1) - (#2*Rd*ke)/cv) +
     (Rd*dU.[0].[1]*u.[0]*u.[1])/cv + (Rd*dU.[0].[2]*u.[0]*u.[2])/cv +
     (Rd*dU.[1].[0]*u.[0]*u.[1])/cv + (Rd*dU.[1].[2]*u.[1]*u.[2])/cv +
     (Rd*dU.[2].[0]*u.[0]*u.[2])/cv + (Rd*dU.[2].[1]*u.[1]*u.[2])/cv))%sc
    (* [4][1] *)
    (-(Rd*TauM*(drho.[1]*(u.[1]*u.[1] - (Rd*ke)/cv) - dU.[1].[0]*u.[0] -
     dU.[1].[2]*u.[2] - dU.[2].[2]*u.[1] - dU.[0].[0]*u.[1] +
     dU.[1].[1]*u.[1]*(Rd/cv - #2) + drho.[0]*u.[0]*u.[1] +
     drho.[2]*u.[1]*u.[2] - (Rd*dE.[1])/cv + (Rd*dU.[0].[1]*u.[0])/cv +
     (Rd*dU.[2].[1]*u.[2])/cv))/cv - TauE*u.[1]*(Rd/cv +
     #1)*(drho.[0]*u.[0]*(E*(Rd/cv + #1) - (#2*Rd*ke)/cv) -
     dU.[1].[1]*(E*(Rd/cv + #1) - (Rd*(u.[1]*u.[1] + ke))/cv) -
     dU.[2].[2]*(E*(Rd/cv + #1) - (Rd*(u.[2]*u.[2] + ke))/cv) -
     dE.[0]*u.[0]*(Rd/cv + #1) - dE.[1]*u.[1]*(Rd/cv + #1) -
     dE.[2]*u.[2]*(Rd/cv + #1) - dU.[0].[0]*(E*(Rd/cv + #1) -
     (Rd*(u.[0]*u.[0] + ke))/cv) + drho.[1]*u.[1]*(E*(Rd/cv + #1) -
     (#2*Rd*ke)/cv) + drho.[2]*u.[2]*(E*(Rd/cv + #1) - (#2*Rd*ke)/cv) +
     (Rd*dU.[0].[1]*u.[0]*u.[1])/cv + (Rd*dU.[0].[2]*u.[0]*u.[2])/cv +
     (Rd*dU.[1].[0]*u.[0]*u.[1])/cv + (Rd*dU.[1].[2]*u.[1]*u.[2])/cv +
     (Rd*dU.[2].[0]*u.[0]*u.[2])/cv + (Rd*dU.[2].[1]*u.[1]*u.[2])/cv))%sc
    (* [4][2] *)
    (-(Rd*TauM*(drho.[2]*(u.[2]*u.[2] - (Rd*ke)/cv) - dU.[1].[1]*u.[2] -
     dU.[2].[0]*u.[0] - dU.[2].[1]*u.[1] - dU.[0].[0]*u.[2] +
     dU.[2].[2]*u.[2]*(Rd/cv - #2) + drho.[0]*u.[0]*u.[2] +
     drho.[1]*u.[1]*u.[2] - (Rd*dE.[2])/cv + (Rd*dU.[0].[2]*u.[0])/cv +
     (Rd*dU.[1].[2]*u.[1])/cv))/cv - TauE*u.[2]*(Rd/cv +
     #1)*(drho.[0]*u.[0]*(E*(Rd/cv + #1) - (#2*Rd*ke)/cv) -
     dU.[1].[1]*(E*(Rd/cv + #1) - (Rd*(u.[1]*u.[1] + ke))/cv) -
     dU.[2].[2]*(E*(Rd/cv + #1) - (Rd*(u.[2]*u.[2] + ke))/cv) -
     dE.[0]*u.[0]*(Rd/cv + #1) - dE.[1]*u.[1]*(Rd/cv + #1) -
     dE.[2]*u.[2]*(Rd/cv + #1) - dU.[0].[0]*(E*(Rd/cv + #1) -
     (Rd*(u.[0]*u.[0] + ke))/cv) + drho.[1]*u.[1]*(E*(Rd/cv + #1) -
     (#2*Rd*ke)/cv) + drho.[2]*u.[2]*(E*(Rd/cv + #1) - (#2*Rd*ke)/cv) +
     (Rd*dU.[0].[1]*u.[0]*u.[1])/cv + (Rd*dU.[0].[2]*u.[0]*u.[2])/cv +
     (Rd*dU.[1].[0]*u.[0]*u.[1])/cv + (Rd*dU.[1].[2]*u.[1]*u.[2])/cv +
     (Rd*dU.[2].[0]*u.[0]*u.[2])/cv + (Rd*dU.[2].[1]*u.[1]*u.[2])/cv))%sc).

(** The statements of the section "The Physics". *)
Definition DC_body : prog (Z * Z) F unit :=
  let v := rows Q (cell 0) in
  let dv := rows5 Q (cell 1) in
  let rho := DC_rho in let u := DC_u in let E := DC_E in
  let wJ := DC_wJ in let dXdx := DC_dXdx in
  let Fu := DC_Fu in let Fe := DC_Fe in let P := DC_P in
  let g := DC_g in
  let Stab_Conv := DC_Stab_Conv in
  for_loop 3 (fun j =>
    store dv.[j].[0].[i]
      (wJ*(rho*u.[0]*dXdx.[j].[0] + rho*u.[1]*dXdx.[j].[1] +
           rho*u.[2]*dXdx.[j].[2]))%sc) ;;
  store v.[0].[i] #0 ;;
  for_loop 3 (fun j =>
    for_loop 3 (fun k =>
      store dv.[k].[j+1].[i]
        (wJ*((rho*u.[j]*u.[0] + (if j =? 0 then P else #0))*dXdx.[k].[0] +
             (rho*u.[j]*u.[1] + (if j =? 1 then P else #0))*dXdx.[k].[1] +
             (rho*u.[j]*u.[2] + (if j =? 2 then P else #0))*dXdx.[k].[2])
        )%sc)) ;;
  let Fuviscidx := vec3 (vec3 0 1 2) (vec3 1 3 4) (vec3 2 4 5) in
  for_loop 3 (fun j =>
    for_loop 3 (fun k =>
      t <- load dv.[k].[j+1].[i] ;;
      store dv.[k].[j+1].[i]
        (t - wJ*(Fu.[Fuviscidx.[j].[0]]*dXdx.[k].[0] +
                 Fu.[Fuviscidx.[j].[1]]*dXdx.[k].[1] +
                 Fu.[Fuviscidx.[j].[2]]*dXdx.[k].[2]))%sc)) ;;
  store v.[1].[i] #0 ;;
  store v.[2].[i] #0 ;;
  store v.[3].[i] (-rho*g*wJ)%sc ;;
  for_loop 3 (fun j =>
    store dv.[j].[4].[i]
      (wJ * (E + P) * (u.[0]*dXdx.[j].[0] + u.[1]*dXdx.[j].[1] +
                       u.[2]*dXdx.[j].[2]))%sc) ;;
  for_loop 3 (fun j =>
    t <- load dv.[j].[4].[i] ;;
    store dv.[j].[4].[i]
      (t - wJ * (Fe.[0]*dXdx.[j].[0] + Fe.[1]*dXdx.[j].[1] +
                 Fe.[2]*dXdx.[j].[2]))%sc) ;;
  store v.[4].[i] (-rho*g*u.[2]*wJ)%sc.
End DCPoint.

(** [du0 i] holds the indeterminate contents of [du] in the iteration
    [i]. *)
Definition DC (ctx : Z -> F) (Q : Z) (inp : Z -> Z -> F)
    (du0 : Z -> Z -> Z -> F) : prog (Z * Z) F retval :=
  for_loop Q (fun i => DC_body ctx Q inp (du0 i) i) ;; Ret (RInt 0).
End DensityCurrent.

(** ** Output elements of a quadrature point *)

(** The address of element [k] of a field: the OKL kernels name a field by
    its offset in the flat output array, the C QFunctions by its number
    ([cell]). *)
Definition flat (off k : Z) : Z := off + k.

(** [shape] lists the output fields with their numbers of components.
    [point_cell mk shape Q i a]: [a] is the element of the point [i] in
    some component of some field. *)
Definition point_cell {A : Type} (mk : Z -> Z -> A) (shape : list (Z * Z))
    (Q i : Z) (a : A) : Prop :=
  exists f n c, In (f, n) shape /\ 0 <= c < n /\ a = mk f (c * Q + i).

(** An iteration that loads nothing from the output and stores to the
    elements of its point only. *)
Definition point_write_only {A F : Type} (own : Z -> A -> Prop)
    (body : Z -> prog A F unit) : Prop :=
  forall i, write_only (body i) /\ stores_in (own i) (body i).

(** An iteration that stores to the elements of its point only, and loads
    only what it has stored itself. *)
Definition point_local {A F : Type} (own : Z -> A -> Prop)
    (body : Z -> prog A F unit) : Prop :=
  forall i, local [] (body i) /\ stores_in (own i) (body i).

(** The output array after a kernel has run on [m]. *)
Definition output {A F X : Type} `{EqDecision A} (p : prog A F X)
    (m : A -> F) : A -> F := (run p m).2.

(** The value a kernel returns. *)
Definition returned {A F X : Type} `{EqDecision A} (p : prog A F X)
    (m : A -> F) : X := (run p m).1.

(** The stores of a program do not depend on the array it starts on. *)
Definition prior_free {A F X : Type} `{EqDecision A} (p : prog A F X) : Prop :=
  forall m1 m2, effect p m1 = effect p m2.

(** ** Reference values *)

Section Reference.
Context {F : Type} `{Arith F}.

(** The determinant of the 2x2 matrix (a b; c d). *)
Definition spec_det2 (a b c d : F) : F := (a*d - b*c)%sc.

(** The determinant of the 3x3 matrix (a b c; d e f; g h k), expanded by
    cofactors along its first row. *)
Definition spec_det3 (a b c d e f g h k : F) : F :=
  (a*(e*k - f*h) - b*(d*k - f*g) + c*(d*h - e*g))%sc.

(** What the statements of [DC] leave in [dv[k][j][i]]: the advective
    flux of the component [j] minus, for the momentum and the energy,
    its viscous flux. *)
Definition DC_dv_value (ctx : Z -> F) (Q : Z) (inp : Z -> Z -> F)
    (du0 : Z -> Z -> F) (i k j : Z) : F :=
  let rho := DC_rho Q inp i in let u := DC_u Q inp i in
  let E := DC_E Q inp i in let wJ := DC_wJ Q inp i in
  let dXdx := DC_dXdx Q inp i in let P := DC_P ctx Q inp i in
  let Fu := DC_Fu ctx Q inp du0 i in let Fe := DC_Fe ctx Q inp du0 i in
  let Fuviscidx := vec3 (vec3 0 1 2) (vec3 1 3 4) (vec3 2 4 5) in
  if j =? 0 then
    (wJ*(rho*u.[0]*dXdx.[k].[0] + rho*u.[1]*dXdx.[k].[1] +
         rho*u.[2]*dXdx.[k].[2]))%sc
  else if j =? 4 then
    (wJ * (E + P) * (u.[0]*dXdx.[k].[0] + u.[1]*dXdx.[k].[1] +
                     u.[2]*dXdx.[k].[2]) -
     wJ * (Fe.[0]*dXdx.[k].[0] + Fe.[1]*dXdx.[k].[1] +
           Fe.[2]*dXdx.[k].[2]))%sc
  else
    (wJ*((rho*u.[j-1]*u.[0] + (if j-1 =? 0 then P else #0))*dXdx.[k].[0] +
         (rho*u.[j-1]*u.[1] + (if j-1 =? 1 then P else #0))*dXdx.[k].[1] +
         (rho*u.[j-1]*u.[2] + (if j-1 =? 2 then P else #0))*dXdx.[k].[2]) -
     wJ*(Fu.[Fuviscidx.[j-1].[0]]*dXdx.[k].[0] +
         Fu.[Fuviscidx.[j-1].[1]]*dXdx.[k].[1] +
         Fu.[Fuviscidx.[j-1].[2]]*dXdx.[k].[2]))%sc.
End Reference.

(** ** Sample inputs *)

(** The array with the elements of [l], and [d] elsewhere. *)
Definition arr {T : Type} (d : T) (l : list T) (k : Z) : T :=
  nth (Z.to_nat k) l d.

Module Sample.
Definition zeros : Z -> float := fun _ => 0%float.
Definition zeros2 : Z * Z -> float := fun _ => 0%float.

(** Two points of [f_apply_mass]: the values 1.5 and 2, the weights 3
    and 4. *)
Definition mass_iOf7 : Z -> Z := arr 0 [0; 2].
Definition mass_oOf7 : Z -> Z := arr 0 [0].
Definition mass_in : Z -> float :=
  arr 0%float [1.5%float; 2%float; 3%float; 4%float].

(** One point of [f_build_mass] with a 3x3 Jacobian and the weight 0.5. *)
Definition build_ctx : Z -> Z := arr 0 [3; 3].
Definition build_iOf7 : Z -> Z := arr 0 [0; 9].
Definition build_u : Z -> float :=
  arr 0%float [2%float; 0%float; 1%float;
               0%float; 3%float; 0%float;
               1%float; 0%float; 4%float; 0.5%float].

(** A context in which [dim*10 + space_dim] and [dim + 10*space_dim]
    differ. *)
Definition ctx_1_2 : Z -> Z := arr 0 [1; 2].

(** A context block whose tag leaves the range of [int]. *)
Definition ctx_wrap : Z -> Z := arr 0 [7; 429496730].

(** One point of [SetupDiff3Rhs] at x = (1/4, 1/4, 1/4), with the
    identity as Jacobian and the weight 1; the output fields are at the
    offsets 0 and 3. *)
Definition diff_iOf7 : Z -> Z := arr 0 [0; 3; 12].
Definition diff_oOf7 : Z -> Z := arr 0 [0; 3; 6].
Definition diff_in : Z -> R :=
  arr 0%R [(1/4)%R; (1/4)%R; (1/4)%R;
           1%R; 0%R; 0%R; 0%R; 1%R; 0%R; 0%R; 0%R; 1%R; 1%R].
Definition diff_out0 : Z -> R := fun _ => 0%R.

(** One point of the shallow-water kernels. *)
Definition sw_ctx : Z -> float := arr 0%float [0.5%float].
Definition sw_in : Z -> Z -> float :=
  arr zeros
    [arr 0%float [2%float; 3%float; 1%float];
     arr 0%float [1%float; 2%float; 0%float; 0%float;
                  3%float; 4%float; 0%float; 0%float];
     arr 0%float [1%float; 1%float; 0%float; 0%float; 1%float]].

(** The context of [DC]: lambda, mu, k, cv, cp, g, Rd. *)
Definition dc_ctx : Z -> float :=
  arr 0%float [(-0.5)%float; 1%float; 1%float; 1%float; 1.5%float;
               9.5%float; 0.5%float].

(** One point in motion: rho = 1, U = (1, 0, 0), E = 2, the density
    gradient (1, 0, 0), the identity as dXdx and wJ = 1. *)
Definition dc_moving : Z -> Z -> float :=
  arr zeros
    [arr 0%float [1%float; 1%float; 0%float; 0%float; 2%float];
     arr 0%float [1%float];
     arr 0%float [1%float;
                  1%float; 0%float; 0%float;
                  0%float; 1%float; 0%float;
                  0%float; 0%float; 1%float]].

(** One point at rest in a uniform state: rho = 1, U = 0, E = 2, all
    gradients zero, wJ = 1 and dXdx = (1 0 0; 1 1 0; 0 0 1). *)
Definition dc_rest : Z -> Z -> float :=
  arr zeros
    [arr 0%float [1%float; 0%float; 0%float; 0%float; 2%float];
     zeros;
     arr 0%float [1%float;
                  1%float; 0%float; 0%float;
                  1%float; 1%float; 0%float;
                  0%float; 0%float; 1%float]].

(** Contents of the uninitialised [du]. *)
Definition du_zeros : Z -> Z -> Z -> float := fun _ _ _ => 0%float.
Definition du_ones : Z -> Z -> Z -> float := fun _ _ _ => 1%float.
End Sample.

(** ** Schedules and store lists *)

Section Schedules.
Context {A F : Type}.

(** The iterations of a loop, run in the order of the list [l]. *)
Fixpoint for_list (l : list Z) (body : Z -> prog A F unit) : prog A F unit :=
  match l with
  | [] => Ret tt
  | i :: l' => body i ;; for_list l' body
  end.

(** The indices [s, s+1, ..., s+n-1], the order of [for_range]. *)
Fixpoint range (n : nat) (s : Z) : list Z :=
  match n with
  | O => []
  | S n' => s :: range n' (s + 1)
  end.

Context `{EqDecision A}.

(** The array after a list of stores, done first to last. *)
Fixpoint replay (l : list (A * F)) (m : A -> F) : A -> F :=
  match l with
  | [] => m
  | (a, v) :: l' => replay l' (<[a := v]> m)
  end.

(** The value that the last store to [a] in [l] puts there. *)
Fixpoint last_store (l : list (A * F)) (a : A) : option F :=
  match l with
  | [] => None
  | (b, v) :: l' =>
      match last_store l' a with
      | Some w => Some w
      | None => if decide (b = a) then Some v else None
      end
  end.
End Schedules.

(** ** The extent of the output fields *)

(** A field with [n] components of a kernel run on [Q] points has the
    elements [0 .. n*Q - 1].  [in_flat shape Q a]: the index [a] of the flat
    output array of an OKL kernel lies in a field of [shape], the fields
    given by their offsets. *)
Definition in_flat (shape : list (Z * Z)) (Q : Z) (a : Z) : bool :=
  existsb (fun '(off, n) => (off <=? a) && (a <? off + n * Q)) shape.

(** [in_cell shape Q a]: the address [a] of the output of a C QFunction
    lies in a field of [shape], the fields given by their numbers. *)
Definition in_cell (shape : list (Z * Z)) (Q : Z) (a : Z * Z) : bool :=
  existsb (fun '(f, n) => (a.1 =? f) && (0 <=? a.2) && (a.2 <? n * Q)) shape.

(** ** Index maps and sums *)

(** Where [Diff3] finds the entry (r, s) of the symmetric 3x3 tensor among
    the six components of input field 1. *)
Definition Diff3_sym : Z -> Z -> Z :=
  vec3 (vec3 0 1 2) (vec3 1 3 4) (vec3 2 4 5).

(** The place that the entry [k] of an [n] x [n] matrix has in the
    transposed matrix. *)
Definition transpose_index (n k : Z) : Z := (k mod n) * n + k / n.

(** The sum of [t c r] over the nine pairs (c, r). *)
Definition sum9 (t : Z -> Z -> R) : R :=
  fold_right Rplus 0%R
    (map (fun cr : Z * Z => t cr.1 cr.2) (list_prod [0; 1; 2] [0; 1; 2])).

(** ** Sample inputs in real arithmetic *)

Module SampleR.
Definition zeros2 : Z * Z -> R := fun _ => 0%R.


(** One point of [Diff3]: the gradients [grad_u] and [grad_v], nine
    components each, with the same tensor of six components behind. *)
Definition grad_iOf7 : Z -> Z := arr 0 [0; 9].
Definition grad_oOf7 : Z -> Z := arr 0 [0].
Definition grad_u : Z -> R :=
  arr 0%R [1%R; 2%R; 3%R; 4%R; 5%R; 6%R; 7%R; 8%R; 9%R;
           2%R; 1%R; 0%R; 3%R; 1%R; 4%R].
Definition grad_v : Z -> R :=
  fun k => if k <? 9 then IZR (9 - k) else grad_u k.

(** One point of [f_build_mass]: a 3x3 Jacobian, its transpose, and the
    weight 1/2. *)
Definition jac_u : Z -> R :=
  arr 0%R [1%R; 2%R; 3%R; 4%R; 5%R; 6%R; 7%R; 8%R; 10%R; (1/2)%R].
Definition jac_ut : Z -> R :=
  arr 0%R [1%R; 4%R; 7%R; 2%R; 5%R; 8%R; 3%R; 6%R; 10%R; (1/2)%R].

(** The Jacobian and the weight of [Sample.diff_in], as the input fields
    of [f_build_mass]. *)
Definition jw_iOf7 : Z -> Z := arr 0 [3; 12].

(** One point of the shallow-water kernels: the context (1, 2, 3), the
    state (2, 3, 1). *)
Definition sw_ctx : Z -> R := arr 0%R [1%R; 2%R; 3%R].
Definition sw_in : Z -> Z -> R :=
  arr (fun _ => 0%R)
    [arr 0%R [2%R; 3%R; 1%R];
     arr 0%R [1%R; 2%R; 0%R; 0%R; 3%R; 4%R; 0%R; 0%R];
     arr 0%R [1%R; 1%R; 0%R; 0%R; 1%R]].

(** The context of [ICsDC]: theta0, thetaC, P0, N, cv, cp, Rd, g, the
    radius rc = 1/2, lx = ly = lz = 0 and no periodic direction; one point
    at (1, 0, 0). *)
Definition ics_ctx : Z -> R :=
  arr 0%R [300%R; (-15)%R; 100000%R; (1/100)%R; 717%R; 1004%R; 287%R;
           (981/100)%R; (1/2)%R; 0%R; 0%R; 0%R; 0%R; 0%R; 0%R].
(** The same with the three directions periodic. *)
Definition ics_ctx_periodic : Z -> R :=
  fun k => if k <? 12 then ics_ctx k else 1%R.
Definition ics_in : Z -> Z -> R :=
  arr (fun _ => 0%R) [arr 0%R [1%R; 0%R; 0%R]].

(** The context of [DC]: lambda, mu, k, cv, cp, g, Rd. *)
Definition dc_ctx : Z -> R :=
  arr 0%R [(-2/3)%R; 1%R; 1%R; 1%R; (3/2)%R; (19/2)%R; (1/2)%R].
(** The same without viscosity and heat conduction. *)
Definition dc_ctx_inviscid : Z -> R :=
  arr 0%R [(-2/3)%R; 0%R; 0%R; 1%R; (3/2)%R; (19/2)%R; (1/2)%R].

(** One point in motion: rho = 2, U = (1, 0, 4), E = 2, the density
    gradient (1, 0, 0), the identity as dXdx and wJ = 1. *)
Definition dc_moving : Z -> Z -> R :=
  arr (fun _ => 0%R)
    [arr 0%R [2%R; 1%R; 0%R; 4%R; 2%R];
     arr 0%R [1%R];
     arr 0%R [1%R;
              1%R; 0%R; 0%R;
              0%R; 1%R; 0%R;
              0%R; 0%R; 1%R]].

(** One point at rest in a uniform state: rho = 1, U = 0, E = 2, all
    gradients zero, wJ = 1 and dXdx = (1 0 0; 1 1 0; 0 0 1). *)
Definition dc_rest : Z -> Z -> R :=
  arr (fun _ => 0%R)
    [arr 0%R [1%R; 0%R; 0%R; 0%R; 2%R];
     (fun _ => 0%R);
     arr 0%R [1%R;
              1%R; 0%R; 0%R;
              1%R; 1%R; 0%R;
              0%R; 0%R; 1%R]].

(** Contents of the uninitialised [du]. *)
Definition du_zeros : Z -> Z -> Z -> R := fun _ _ _ => 0%R.
Definition du_ones : Z -> Z -> Z -> R := fun _ _ _ => 1%R.
End SampleR.

(** ** Sample inputs on binary64, for [SetupDiff3Rhs] *)

Module Sample64.
(** binary64 [sin] at the three arguments that a point with the coordinates
    (1/4, 1/4, 1/4) passes to it, [M_PI/4], [M_PI*1.5] and [M_PI*2.75]: the
    doubles nearest to the sines, 0.7071067811865475, -1 and
    0.7071067811865483.  The table says nothing of [sin] elsewhere. *)
Definition sin_quarter (x : float) : float :=
  (if PrimFloat.eqb x 0x1.921fb54442d18p-1 then 0x1.6a09e667f3bccp-1
   else if PrimFloat.eqb x 0x1.2d97c7f3321d2p+2 then -1
   else if PrimFloat.eqb x 0x1.1475cc9eedf00p+3 then 0x1.6a09e667f3bd4p-1
   else nan)%float.

(** What [SetupDiff3Rhs] takes from [math.h], on binary64: [M_PI], the
    double nearest to pi, and [sin] at the point (1/4, 1/4, 1/4).  The
    kernel calls nothing else. *)
Definition libm_quarter : Libm float := {|
  M_PI := 0x1.921fb54442d18p+1%float;
  fsin := sin_quarter;
  fcos := fun _ => nan;
  fexp := fun _ => nan;
  fpow := fun _ _ => nan |}.

(** One point of [SetupDiff3Rhs] at x = (1/4, 1/4, 1/4), with the identity
    as Jacobian and the weight 0.3. *)
Definition quarter_in : Z -> float :=
  arr 0%float [0.25%float; 0.25%float; 0.25%float;
               1%float; 0%float; 0%float; 0%float; 1%float; 0%float;
               0%float; 0%float; 1%float; 0x1.3333333333333p-2%float].
End Sample64.

(** * Facts on programs *)

Section ProgFacts.
Context {A F : Type} `{EqDecision A}.
Implicit Types (m : A -> F) (a : A).

Lemma run_bind {X Y : Type} (p : prog A F X) (f : X -> prog A F Y) m :
  run (bind p f) m = run (f (run p m).1) (run p m).2.
Proof.
  revert m; induction p as [x | a k IH | a v k IH]; intros m; simpl; auto.
Qed.

Lemma effect_bind {X Y : Type} (p : prog A F X) (f : X -> prog A F Y) m :
  effect (bind p f) m = effect p m ++ effect (f (run p m).1) (run p m).2.
Proof.
  revert m; induction p as [x | a k IH | a v k IH]; intros m; simpl; auto.
  now rewrite IH.
Qed.

Lemma write_only_bind {X Y : Type} (p : prog A F X) (f : X -> prog A F Y) :
  write_only p -> (forall x, write_only (f x)) -> write_only (bind p f).
Proof.
  induction p as [x | a k IH | a v k IH]; simpl; intros Hp Hf;
    try contradiction; auto.
Qed.

Lemma stores_in_bind {X Y : Type} (P : A -> Prop) (p : prog A F X)
    (f : X -> prog A F Y) :
  stores_in P p -> (forall x, stores_in P (f x)) -> stores_in P (bind p f).
Proof.
  induction p as [x | a k IH | a v k IH]; simpl; intros Hp Hf; auto.
  destruct Hp as [Ha Hk]; split; auto.
Qed.

Lemma stores_in_mono {X : Type} (P P' : A -> Prop) (p : prog A F X) :
  (forall a, P a -> P' a) -> stores_in P p -> stores_in P' p.
Proof.
  intros HP; induction p as [x | a k IH | a v k IH]; simpl; auto.
  intros [Ha Hk]; split; auto.
Qed.

Lemma local_mono {X : Type} (W W' : list A) (p : prog A F X) :
  (forall a, In a W -> In a W') -> local W p -> local W' p.
Proof.
  revert W W'; induction p as [x | a k IH | a v k IH]; simpl; intros W W' HW; auto.
  - intros [Ha Hk]; split; [auto | intros v; eapply IH; eauto].
  - apply IH. simpl. intuition.
Qed.

Lemma local_bind {X Y : Type} (W : list A) (p : prog A F X)
    (f : X -> prog A F Y) :
  local W p -> (forall x, local W (f x)) -> local W (bind p f).
Proof.
  revert W; induction p as [x | a k IH | a v k IH]; simpl; intros W Hp Hf; auto.
  - destruct Hp as [Ha Hk]; split; auto.
  - apply IH; auto. intros x. eapply local_mono; [| apply Hf].
    simpl; auto.
Qed.

Lemma write_only_local {X : Type} (W : list A) (p : prog A F X) :
  write_only p -> local W p.
Proof.
  revert W; induction p as [x | a k IH | a v k IH]; simpl; intros W Hp;
    try contradiction; auto.
Qed.

(** A store outside [P] never happens: the elements outside [P] keep
    their values. *)
Lemma stores_in_frame {X : Type} (P : A -> Prop) (p : prog A F X) m a :
  stores_in P p -> ~ P a -> (run p m).2 a = m a.
Proof.
  revert m; induction p as [x | a0 k IH | a0 v k IH]; simpl; intros m Hp Ha; auto.
  destruct Hp as [Ha0 Hk]. rewrite IH by auto.
  apply fn_lookup_insert_ne. intros ->. contradiction.
Qed.

(** A local program does the same on two arrays that agree on [W]. *)
Lemma local_agree {X : Type} (p : prog A F X) (W : list A) m1 m2 :
  local W p -> (forall a, In a W -> m1 a = m2 a) ->
  effect p m1 = effect p m2 /\ (run p m1).1 = (run p m2).1 /\
  loads p m1 = loads p m2.
Proof.
  revert W m1 m2; induction p as [x | a k IH | a v k IH];
    simpl; intros W m1 m2 Hp Hm; auto.
  - destruct Hp as [Ha Hk]. rewrite (Hm a Ha).
    destruct (IH (m2 a) W m1 m2 (Hk _) Hm) as (E1 & E2 & E3).
    rewrite E3; auto.
  - assert (Hm' : forall b, In b (a :: W) ->
              (<[a := v]> m1) b = (<[a := v]> m2) b).
    { intros b Hb. destruct (decide (a = b)) as [-> | Hne].
      - now rewrite !fn_lookup_insert.
      - rewrite !fn_lookup_insert_ne by assumption.
        destruct Hb as [Hb | Hb]; [contradiction | auto]. }
    destruct (IH (a :: W) _ _ Hp Hm') as (E1 & E2 & E3).
    rewrite E1; auto.
Qed.

(** *** Loops *)

Lemma write_only_for_range (body : Z -> prog A F unit) n s :
  (forall i, write_only (body i)) -> write_only (for_range n s body).
Proof.
  intros Hb; revert s; induction n as [| n IH]; intros s; simpl; auto.
  apply write_only_bind; auto.
Qed.

Lemma local_for_range (body : Z -> prog A F unit) n s :
  (forall i, local [] (body i)) -> local [] (for_range n s body).
Proof.
  intros Hb; revert s; induction n as [| n IH]; intros s; simpl; auto.
  apply local_bind; auto.
Qed.

Lemma stores_in_for_range (own : Z -> A -> Prop)
    (body : Z -> prog A F unit) n s :
  (forall i, stores_in (own i) (body i)) ->
  stores_in (fun a => exists j, s <= j < s + Z.of_nat n /\ own j a)
    (for_range n s body).
Proof.
  intros Hb; revert s; induction n as [| n IH]; intros s; simpl; auto.
  apply stores_in_bind.
  - eapply stores_in_mono; [| apply Hb].
    intros a Ha; exists s; split; [lia | assumption].
  - intros _. eapply stores_in_mono; [| apply IH].
    intros a (j & Hj & Ha); exists j; split; [lia | assumption].
Qed.

(** After the loop, an element of the point [i] is as the iteration [i]
    left it; the iteration started on an array [m'] that differs from
    the initial one only on elements of earlier points. *)
Lemma run_for_range_point (own : Z -> A -> Prop)
    (body : Z -> prog A F unit) n s m i a :
  (forall j, stores_in (own j) (body j)) ->
  (forall j j' b, s <= j < s + Z.of_nat n -> s <= j' < s + Z.of_nat n ->
                  own j b -> own j' b -> j = j') ->
  s <= i < s + Z.of_nat n -> own i a ->
  exists m', (run (for_range n s body) m).2 a = (run (body i) m').2 a /\
             forall b, (forall j, s <= j < i -> ~ own j b) -> m' b = m b.
Proof.
  intros Hb. revert s m; induction n as [| n IH]; intros s m Hd Hi Ha.
  - lia.
  - simpl for_range. rewrite run_bind.
    destruct (decide (i = s)) as [-> | Hne].
    + exists m; split; [| auto].
      apply (stores_in_frame _ _ _ _ (stores_in_for_range own body n (s + 1) Hb)).
      intros (j & Hj & Hja).
      assert (j = s) by (apply (Hd j s a); auto; lia). lia.
    + destruct (IH (s + 1) (run (body s) m).2) as (m' & E & Hm').
      * intros j j' b Hj Hj'; apply Hd; lia.
      * lia.
      * assumption.
      * exists m'; split; [exact E |].
        intros b Hb'. rewrite Hm' by (intros j Hj; apply Hb'; lia).
        apply (stores_in_frame _ _ _ _ (Hb s)). apply Hb'; lia.
Qed.

Lemma output_for_loop_point (own : Z -> A -> Prop)
    (body : Z -> prog A F unit) {X : Type} (x : X) Q m i a :
  (forall j, stores_in (own j) (body j)) ->
  (forall j j' b, 0 <= j < Q -> 0 <= j' < Q ->
                  own j b -> own j' b -> j = j') ->
  0 <= i < Q -> own i a ->
  exists m', output (for_loop Q body ;; Ret x) m a = output (body i) m' a /\
             forall b, (forall j, 0 <= j < i -> ~ own j b) -> m' b = m b.
Proof.
  intros Hb Hd Hi Ha. unfold output, for_loop. rewrite run_bind. simpl.
  apply run_for_range_point; auto.
  - intros j j' b Hj Hj'; apply Hd; lia.
  - lia.
Qed.

(** The stores of a loop of local iterations do not depend on the array
    the loop starts on. *)
Lemma effect_for_loop_local (own : Z -> A -> Prop)
    (body : Z -> prog A F unit) {X : Type} (x : X) Q m1 m2 :
  point_local own body ->
  effect (for_loop Q body ;; Ret x) m1 = effect (for_loop Q body ;; Ret x) m2.
Proof.
  intros Hb.
  apply (local_agree _ []); [| simpl; tauto].
  apply local_bind; [| simpl; auto].
  apply local_for_range. intros i; apply Hb.
Qed.

Lemma point_write_only_local (own : Z -> A -> Prop)
    (body : Z -> prog A F unit) :
  point_write_only own body -> point_local own body.
Proof.
  intros Hb i; destruct (Hb i); split; auto using write_only_local.
Qed.
End ProgFacts.

(** * The iterations, one by one *)

(** Programs are brought to the form of nested [Load] and [Store] by
    computing the control structure only. *)
Ltac norm_prog :=
  cbv beta iota zeta delta
    [bind store load when for_loop for_range Z.to_nat Pos.to_nat
     Pos.iter_op Nat.add].

Ltac cell_at f n c :=
  exists f, n, c;
  split; [simpl; tauto | split; [lia | first [lia | f_equal; lia]]].

Ltac cell_in sh c :=
  lazymatch sh with
  | (?f, ?n) :: ?rest => first [cell_at f n c | cell_in rest c]
  end.

(** A field of these kernels has at most fifteen components. *)
Ltac solve_cell :=
  lazymatch goal with
  | |- point_cell _ ?sh _ _ _ =>
      unfold point_cell, rows, rows5, cell, flat;
      first [ cell_in sh 0 | cell_in sh 1 | cell_in sh 2 | cell_in sh 3
            | cell_in sh 4 | cell_in sh 5 | cell_in sh 6 | cell_in sh 7
            | cell_in sh 8 | cell_in sh 9 | cell_in sh 10 | cell_in sh 11
            | cell_in sh 12 | cell_in sh 13 | cell_in sh 14 ]
  end.

Ltac solve_stores :=
  cbv beta iota zeta delta [stores_in];
  repeat match goal with
         | |- _ /\ _ => split
         | |- forall _, _ => intro
         | |- True => exact I
         | |- point_cell _ _ _ _ _ => solve_cell
         end.

Ltac solve_write_only :=
  cbv beta iota zeta delta [write_only]; exact I.

Ltac solve_local :=
  cbv beta iota zeta delta [local];
  repeat first [split | intro | (simpl; tauto)].

Section Iterations.
Context {F : Type} `{Arith F} `{Libm F}.

Lemma f_build_mass_body_point ctx Q iOf7 oOf7 (u : Z -> F) :
  point_write_only (point_cell flat [(oOf7 0, 1)] Q)
    (f_build_mass_body ctx Q iOf7 oOf7 u).
Proof.
  intros i. unfold f_build_mass_body. cbv zeta.
  destruct (f_build_mass_dims ctx =? 11), (f_build_mass_dims ctx =? 22),
    (f_build_mass_dims ctx =? 33); norm_prog;
    (split; [solve_write_only | solve_stores]).
Qed.

Lemma f_apply_mass_body_point Q iOf7 oOf7 (inp : Z -> F) :
  point_write_only (point_cell flat [(oOf7 0, 1)] Q)
    (f_apply_mass_body Q iOf7 oOf7 inp).
Proof.
  intros i. unfold f_apply_mass_body. norm_prog.
  split; [solve_write_only | solve_stores].
Qed.

Lemma Diff3_body_point Q iOf7 oOf7 (inp : Z -> F) :
  point_write_only (point_cell flat [(oOf7 0, 9)] Q)
    (Diff3_body Q iOf7 oOf7 inp).
Proof.
  intros i. unfold Diff3_body, Diff3_row. norm_prog.
  split; [solve_write_only | solve_stores].
Qed.

Lemma SetupDiff3Rhs_body_stores Q iOf7 oOf7 (inp : Z -> F) i :
  stores_in (point_cell flat [(oOf7 0, 3); (oOf7 1, 3)] Q i)
    (SetupDiff3Rhs_body Q iOf7 oOf7 inp i).
Proof. unfold SetupDiff3Rhs_body. norm_prog. solve_stores. Qed.

Lemma SWICs_body_point ctx Q (inp : Z -> Z -> F) :
  point_write_only (point_cell cell [(0, 3); (1, 1); (2, 1); (3, 2)] Q)
    (SWICs_body ctx Q inp).
Proof.
  intros i. unfold SWICs_body. norm_prog.
  split; [solve_write_only | solve_stores].
Qed.

Lemma SWExplicit_body_point ctx Q (inp : Z -> Z -> F) :
  point_write_only (point_cell cell [(0, 3); (1, 6)] Q)
    (SWExplicit_body ctx Q inp).
Proof.
  intros i. unfold SWExplicit_body. norm_prog.
  split; [solve_write_only | solve_stores].
Qed.

Lemma SWImplicit_body_point ctx Q (inp : Z -> Z -> F) :
  point_write_only (point_cell cell [(0, 3); (1, 6)] Q)
    (SWImplicit_body ctx Q inp).
Proof.
  intros i. unfold SWImplicit_body. norm_prog.
  split; [solve_write_only | solve_stores].
Qed.

Lemma SWJacobian_body_point ctx Q (inp : Z -> Z -> F) :
  point_write_only (point_cell cell [(0, 3); (1, 6)] Q)
    (SWJacobian_body ctx Q inp).
Proof.
  intros i. unfold SWJacobian_body. norm_prog.
  split; [solve_write_only | solve_stores].
Qed.

Lemma ICsDC_body_point ctx Q (inp : Z -> Z -> F) :
  point_write_only (point_cell cell [(0, 5); (1, 3)] Q)
    (ICsDC_body ctx Q inp).
Proof.
  intros i. unfold ICsDC_body. cbv zeta.
  match goal with |- context [when ?c _] => destruct c end; norm_prog;
    (split; [solve_write_only | solve_stores]).
Qed.

Lemma DC_body_point ctx Q (inp : Z -> Z -> F) du0 :
  point_local (point_cell cell [(0, 5); (1, 15)] Q)
    (fun i => DC_body ctx Q inp (du0 i) i).
Proof.
  intros i. unfold DC_body. norm_prog.
  split; [solve_local | solve_stores].
Qed.

(** The iteration of [DC] does load from the output: the [-=] of the
    viscous fluxes. *)
Lemma DC_body_loads ctx Q (inp : Z -> Z -> F) du0 i :
  ~ write_only (DC_body ctx Q inp du0 i).
Proof.
  unfold DC_body. norm_prog. cbv beta iota zeta delta [write_only]. tauto.
Qed.

(** The iteration of [SetupDiff3Rhs] loads what it has not stored. *)
Lemma SetupDiff3Rhs_body_not_local Q iOf7 oOf7 (inp : Z -> F) i :
  oOf7 0 + 3 * Q <= oOf7 1 -> 0 <= i < Q ->
  ~ local [] (SetupDiff3Rhs_body Q iOf7 oOf7 inp i).
Proof.
  intros Ho Hi. unfold SetupDiff3Rhs_body. norm_prog.
  cbv beta iota zeta delta [local]. simpl. intros [[E | []] _]. lia.
Qed.
End Iterations.

(** * The output after a kernel *)

Section Lookup.
Context {A F : Type} `{EqDecision A}.

Lemma lookup_insert_same (m : A -> F) a b v :
  a = b -> (<[a := v]> m) b = v.
Proof. intros ->. apply fn_lookup_insert. Qed.

Lemma lookup_insert_other (m : A -> F) a b v :
  a <> b -> (<[a := v]> m) b = m b.
Proof. apply fn_lookup_insert_ne. Qed.

Lemma returned_for_loop {X : Type} (body : Z -> prog A F unit) (x : X) Q m :
  returned (for_loop Q body ;; Ret x) m = x.
Proof. unfold returned. rewrite run_bind. reflexivity. Qed.

Lemma output_Store {X : Type} a v (k : prog A F X) m :
  output (Store a v k) m = output k (<[a := v]> m).
Proof. reflexivity. Qed.

Lemma output_Load {X : Type} a (k : F -> prog A F X) m v :
  m a = v -> output (Load a k) m = output (k v) m.
Proof. intros <-. reflexivity. Qed.

Lemma output_Ret {X : Type} (x : X) m : output (Ret x : prog A F X) m = m.
Proof. reflexivity. Qed.
End Lookup.

Ltac addr_eq := first [lia | (unfold cell, rows, rows5, flat; f_equal; lia)].
Ltac addr_ne :=
  first [lia | (unfold cell, rows, rows5, flat; intros [=]; lia)].

(** The value of an element after a sequence of stores. *)
Ltac lookup :=
  repeat first [ rewrite lookup_insert_same by addr_eq
               | rewrite lookup_insert_other by addr_ne ].

Ltac run_body :=
  norm_prog; cbv beta iota zeta delta [run output snd]; lookup.

(** The same, found from the last store backwards. *)
Ltac resolve :=
  first [ (apply lookup_insert_same; addr_eq)
        | (eapply eq_trans; [apply lookup_insert_other; addr_ne | resolve])
        | reflexivity ].

(** Run a program in normal form store by store; a load is resolved when
    it is met. *)
Ltac exec :=
  repeat first
    [ rewrite output_Store
    | (erewrite output_Load by resolve; cbv beta) ];
  rewrite output_Ret.

(** Two points share no output element. *)
Lemma point_index_unique Q c c' j j' :
  0 <= j < Q -> 0 <= j' < Q -> c * Q + j = c' * Q + j' -> j = j'.
Proof.
  intros Hj Hj' E.
  assert (E' : (c - c') * Q = j' - j) by lia.
  assert (c - c' = 0) by nia. lia.
Qed.

Lemma point_cell_disjoint_flat off n Q j j' b :
  0 <= j < Q -> 0 <= j' < Q ->
  point_cell flat [(off, n)] Q j b -> point_cell flat [(off, n)] Q j' b ->
  j = j'.
Proof.
  intros Hj Hj' (f & n1 & c & Hin & Hc & ->) (f' & n2 & c' & Hin' & Hc' & E).
  simpl in Hin, Hin'. destruct Hin as [[= <- <-]|[]], Hin' as [[= <- <-]|[]].
  unfold flat in E. apply (point_index_unique Q c c'); lia.
Qed.

Lemma point_cell_disjoint_cell sh Q j j' b :
  0 <= j < Q -> 0 <= j' < Q ->
  point_cell cell sh Q j b -> point_cell cell sh Q j' b -> j = j'.
Proof.
  intros Hj Hj' (f & n1 & c & Hin & Hc & ->) (f' & n2 & c' & Hin' & Hc' & E).
  unfold cell in E. injection E as _ E.
  apply (point_index_unique Q c c'); lia.
Qed.

(** Two fields of three components that do not overlap. *)
Lemma point_cell_disjoint_flat2 o0 o1 Q j j' b :
  o0 + 3 * Q <= o1 \/ o1 + 3 * Q <= o0 ->
  0 <= j < Q -> 0 <= j' < Q ->
  point_cell flat [(o0, 3); (o1, 3)] Q j b ->
  point_cell flat [(o0, 3); (o1, 3)] Q j' b -> j = j'.
Proof.
  intros Ho Hj Hj' (f & n1 & c & Hin & Hc & ->) (f' & n2 & c' & Hin' & Hc' & E).
  unfold flat in E. simpl in Hin, Hin'.
  destruct Hin as [[= <- <-]|[[= <- <-]|[]]],
           Hin' as [[= <- <-]|[[= <- <-]|[]]].
  all: assert (0 <= c * Q <= 2 * Q) by nia.
  all: assert (0 <= c' * Q <= 2 * Q) by nia.
  all: try lia.
  all: apply (point_index_unique Q c c'); lia.
Qed.

(** ** [f_apply_mass] *)

(** C7.  For every point [0 <= i < Q], the output element [oOf7[0] + i] of
    [f_apply_mass] is the product of the weight, input field 1, and of the
    value, input field 0, at the point: one multiplication of the scalar
    arithmetic, whatever that arithmetic is; on binary64 it is the IEEE-754
    multiplication. *)
Theorem f_apply_mass_point (F : Type) (HA : Arith F) Q iOf7 oOf7
    (inp : Z -> F) m i :
  0 <= i < Q ->
  output (f_apply_mass Q iOf7 oOf7 inp) m (oOf7 0 + i)
  = fmul (inp (iOf7 1 + i)) (inp (iOf7 0 + i)).
Proof.
  intros Hi. unfold f_apply_mass.
  destruct (output_for_loop_point (point_cell flat [(oOf7 0, 1)] Q)
              (f_apply_mass_body Q iOf7 oOf7 inp) RVoid Q m i (oOf7 0 + i))
    as (m' & -> & _).
  - intros j; apply f_apply_mass_body_point.
  - intros j j' b; apply point_cell_disjoint_flat.
  - assumption.
  - solve_cell.
  - unfold f_apply_mass_body. run_body. reflexivity.
Qed.

Lemma f_apply_mass_point_witness :
  0 <= 1 < 2 /\
  output (f_apply_mass 2 Sample.mass_iOf7 Sample.mass_oOf7 Sample.mass_in)
    Sample.zeros 1
  = PrimFloat.mul 4%float 2%float.
Proof.
  split; [lia |].
  exact (f_apply_mass_point float float_arith 2 Sample.mass_iOf7
           Sample.mass_oOf7 Sample.mass_in Sample.zeros 1 ltac:(lia)).
Defined.

(** ** [SWExplicit] *)

(** C10.  For every point [0 <= i < Q], [SWExplicit] leaves 0 in the six
    components of [dv] and in component 2 of [v]; the two other components
    of [v] hold the velocity terms. *)
Theorem SWExplicit_outputs (F : Type) (HA : Arith F) ctx Q
    (inp : Z -> Z -> F) m i :
  0 <= i < Q ->
  let out := output (SWExplicit ctx Q inp) m in
  let q := inp 0 in
  let dq := inp 1 in
  let f := ctx 0 in
  (forall c, 0 <= c < 6 -> out (cell 1 (i + c * Q)) = fofZ 0) /\
  out (cell 0 (i + 2 * Q)) = fofZ 0 /\
  out (cell 0 (i + 0 * Q))
  = (- (q.[i+0*Q] * dq.[i+(0+4*0)*Q] + q.[i+1*Q] * dq.[i+(0+4*1)*Q] +
        f * q.[i+1*Q]))%sc /\
  out (cell 0 (i + 1 * Q))
  = (- (q.[i+0*Q] * dq.[i+(1+4*0)*Q] + q.[i+1*Q] * dq.[i+(1+4*1)*Q] -
        f * q.[i+0*Q]))%sc.
Proof.
  intros Hi out q dq f. subst out. unfold SWExplicit.
  assert (Hpt : forall a, point_cell cell [(0, 3); (1, 6)] Q i a ->
            exists m', output (for_loop Q (SWExplicit_body ctx Q inp) ;;
                               Ret (RInt 0)) m a
                       = output (SWExplicit_body ctx Q inp i) m' a).
  { intros a Ha.
    destruct (output_for_loop_point (point_cell cell [(0, 3); (1, 6)] Q)
                (SWExplicit_body ctx Q inp) (RInt 0) Q m i a)
      as (m' & E & _); eauto.
    - intros j; apply SWExplicit_body_point.
    - intros j j' b; apply point_cell_disjoint_cell. }
  split; [| split; [| split]].
  - intros c Hc.
    destruct (Hpt (cell 1 (i + c * Q))) as (m' & ->).
    { exists 1, 6, c. split; [simpl; tauto | split; [lia | addr_eq]]. }
    unfold SWExplicit_body.
    assert (Hc' : c = 0 \/ c = 1 \/ c = 2 \/ c = 3 \/ c = 4 \/ c = 5) by lia.
    destruct Hc' as [-> | [-> | [-> | [-> | [-> | ->]]]]];
      run_body; reflexivity.
  - destruct (Hpt (cell 0 (i + 2 * Q))) as (m' & ->); [solve_cell |].
    unfold SWExplicit_body. run_body. reflexivity.
  - destruct (Hpt (cell 0 (i + 0 * Q))) as (m' & ->); [solve_cell |].
    unfold SWExplicit_body. run_body. reflexivity.
  - destruct (Hpt (cell 0 (i + 1 * Q))) as (m' & ->); [solve_cell |].
    unfold SWExplicit_body. run_body. reflexivity.
Qed.

Lemma SWExplicit_outputs_witness :
  0 <= 0 < 1 /\
  output (SWExplicit Sample.sw_ctx 1 Sample.sw_in) Sample.zeros2 (cell 0 2)
  = 0%float.
Proof.
  split; [lia |].
  exact (proj1 (proj2 (SWExplicit_outputs float float_arith Sample.sw_ctx 1
                         Sample.sw_in Sample.zeros2 0 ltac:(lia)))).
Defined.

(** ** [f_build_mass] *)

(** The output element of the point [i] after [f_build_mass], in the three
    cases of the tag. *)
Lemma f_build_mass_point (F : Type) (HA : Arith F) ctx Q iOf7 oOf7
    (u : Z -> F) m i :
  0 <= i < Q ->
  let out := output (f_build_mass ctx Q iOf7 oOf7 u) m (oOf7 0 + i) in
  let J := fun k => u (iOf7 0 + i + Q * k) in
  let w := u (iOf7 1 + i) in
  (f_build_mass_dims ctx = 11 -> out = (u.[iOf7 0 + i] * w)%sc) /\
  (f_build_mass_dims ctx = 22 ->
   out = (spec_det2 (J 0) (J 1) (J 2) (J 3) * w)%sc) /\
  (f_build_mass_dims ctx = 33 ->
   out = (spec_det3 (J 0) (J 1) (J 2) (J 3) (J 4) (J 5) (J 6) (J 7) (J 8)
          * w)%sc).
Proof.
  intros Hi out J w. subst out J w. unfold f_build_mass.
  destruct (output_for_loop_point (point_cell flat [(oOf7 0, 1)] Q)
              (f_build_mass_body ctx Q iOf7 oOf7 u) RVoid Q m i (oOf7 0 + i))
    as (m' & -> & _).
  - intros j; apply f_build_mass_body_point.
  - intros j j' b; apply point_cell_disjoint_flat.
  - assumption.
  - solve_cell.
  - unfold f_build_mass_body. cbv zeta.
    repeat split; intros ->; cbn [Z.eqb Pos.eqb]; run_body; reflexivity.
Qed.

(** C5.  For every point [0 <= i < Q] of [f_build_mass]: with the tag 11
    the output is the Jacobian entry times the weight; with the tag 22 it
    is [a*d - b*c] of the four entries times the weight; with the tag 33 it
    is the cofactor expansion of the nine entries times the weight.  In
    real arithmetic an identity Jacobian gives the weight itself. *)
Theorem f_build_mass_determinant ctx Q iOf7 oOf7 i :
  0 <= i < Q ->
  (forall (F : Type) (HA : Arith F) (u : Z -> F) m,
     let out := output (f_build_mass ctx Q iOf7 oOf7 u) m (oOf7 0 + i) in
     let J := fun k => u (iOf7 0 + i + Q * k) in
     let w := u (iOf7 1 + i) in
     (f_build_mass_dims ctx = 11 -> out = (u.[iOf7 0 + i] * w)%sc) /\
     (f_build_mass_dims ctx = 22 ->
      out = (spec_det2 (J 0) (J 1) (J 2) (J 3) * w)%sc) /\
     (f_build_mass_dims ctx = 33 ->
      out = (spec_det3 (J 0) (J 1) (J 2) (J 3) (J 4) (J 5) (J 6) (J 7) (J 8)
             * w)%sc)) /\
  (forall (u : Z -> R) m,
     let out := output (f_build_mass ctx Q iOf7 oOf7 u) m (oOf7 0 + i) in
     let J := fun k => u (iOf7 0 + i + Q * k) in
     let w := u (iOf7 1 + i) in
     (f_build_mass_dims ctx = 11 -> u (iOf7 0 + i) = 1%R -> out = w) /\
     (f_build_mass_dims ctx = 22 ->
      J 0 = 1%R -> J 1 = 0%R -> J 2 = 0%R -> J 3 = 1%R -> out = w) /\
     (f_build_mass_dims ctx = 33 ->
      J 0 = 1%R -> J 1 = 0%R -> J 2 = 0%R ->
      J 3 = 0%R -> J 4 = 1%R -> J 5 = 0%R ->
      J 6 = 0%R -> J 7 = 0%R -> J 8 = 1%R -> out = w)).
Proof.
  intros Hi. split.
  - intros F HA u m. apply f_build_mass_point; assumption.
  - intros u m out J w.
    destruct (f_build_mass_point R R_arith ctx Q iOf7 oOf7 u m i Hi)
      as (H11 & H22 & H33).
    cbv zeta in H11, H22, H33. subst out J w.
    split; [| split].
    + intros Hd E. rewrite (H11 Hd), E. simpl. ring.
    + intros Hd E0 E1 E2 E3. rewrite (H22 Hd), E0, E1, E2, E3.
      unfold spec_det2. simpl. ring.
    + intros Hd E0 E1 E2 E3 E4 E5 E6 E7 E8.
      rewrite (H33 Hd), E0, E1, E2, E3, E4, E5, E6, E7, E8.
      unfold spec_det3. simpl. ring.
Qed.

Lemma f_build_mass_determinant_witness :
  0 <= 0 < 1 /\
  output (f_build_mass Sample.build_ctx 1 Sample.build_iOf7 Sample.mass_oOf7
            Sample.build_u) Sample.zeros 0
  = PrimFloat.mul
      (spec_det3 2 0 1 0 3 0 1 0 4)%float 0.5%float.
Proof.
  split; [lia |].
  exact (proj2 (proj2 (proj1 (f_build_mass_determinant Sample.build_ctx 1
                                Sample.build_iOf7 Sample.mass_oOf7 0
                                ltac:(lia))
                         float float_arith Sample.build_u Sample.zeros))
           eq_refl).
Defined.

(** An [int] expression whose value fits has that value. *)
Lemma wrap32_id z : int_range z -> wrap32 z = z.
Proof.
  unfold int_range, wrap32. intros Hz.
  rewrite Z.mod_small by lia. lia.
Qed.

(** [wrap32] yields an [int]. *)
Lemma wrap32_range z : int_range (wrap32 z).
Proof.
  unfold int_range, wrap32.
  pose proof (Z.mod_pos_bound (z + 2 ^ 31) (2 ^ 32) ltac:(lia)). lia.
Qed.

(** Out of the range the tag is not the integer [dim + 10*space_dim]: with
    [dim = 7] and [space_dim = 429496730] the product is [2^32 + 4] and
    the tag 11. *)
Lemma f_build_mass_dims_wraps :
  f_build_mass_dims Sample.ctx_wrap = 11 /\
  Sample.ctx_wrap 0 + 10 * Sample.ctx_wrap 1 = 4294967307.
Proof. split; reflexivity. Qed.

(** C8, as the code has it.  The tag of [f_build_mass] is
    [dim + 10*space_dim] in [int] arithmetic, with [dim = ctx[0]] and
    [space_dim = ctx[1]]: an iteration stores the 1x1, 2x2 or 3x3 value
    when that number is 11, 22 or 33, and stores nothing otherwise.  When
    the product and the sum fit in an [int], the tag is the integer
    [dim + 10*space_dim]. *)
Theorem f_build_mass_dispatch (F : Type) (HA : Arith F) ctx Q iOf7 oOf7
    (u : Z -> F) i m :
  let tag := wrap32 (ctx 0 + wrap32 (10 * ctx 1)) in
  let J := fun k => u (iOf7 0 + i + Q * k) in
  let w := u (iOf7 1 + i) in
  effect (f_build_mass_body ctx Q iOf7 oOf7 u i) m =
  (if tag =? 11 then [(oOf7 0 + i, (u.[iOf7 0 + i] * w)%sc)]
   else if tag =? 22 then
     [(oOf7 0 + i, (spec_det2 (J 0) (J 1) (J 2) (J 3) * w)%sc)]
   else if tag =? 33 then
     [(oOf7 0 + i,
       (spec_det3 (J 0) (J 1) (J 2) (J 3) (J 4) (J 5) (J 6) (J 7) (J 8)
        * w)%sc)]
   else []) /\
  (int_range (10 * ctx 1) -> int_range (ctx 0 + 10 * ctx 1) ->
   tag = ctx 0 + 10 * ctx 1).
Proof.
  intros tag J w. split.
  - subst J w. unfold f_build_mass_body, f_build_mass_dims. cbv zeta.
    fold tag. clearbody tag.
    destruct (Z.eqb_spec tag 11) as [E | N11].
    + rewrite E. reflexivity.
    + destruct (Z.eqb_spec tag 22) as [E | N22].
      * rewrite E. reflexivity.
      * destruct (Z.eqb_spec tag 33) as [E | N33]; reflexivity.
  - intros H1 H2. subst tag.
    rewrite (wrap32_id (10 * ctx 1)) by exact H1.
    apply wrap32_id. exact H2.
Qed.

Lemma f_build_mass_dispatch_witness :
  int_range (10 * Sample.build_ctx 1) /\
  int_range (Sample.build_ctx 0 + 10 * Sample.build_ctx 1) /\
  wrap32 (Sample.build_ctx 0 + wrap32 (10 * Sample.build_ctx 1)) = 33.
Proof.
  assert (H1 : int_range (10 * Sample.build_ctx 1))
    by (vm_compute; split; [discriminate | reflexivity]).
  assert (H2 : int_range (Sample.build_ctx 0 + 10 * Sample.build_ctx 1))
    by (vm_compute; split; [discriminate | reflexivity]).
  split; [exact H1 | split; [exact H2 |]].
  exact (proj2 (f_build_mass_dispatch float float_arith Sample.build_ctx 1
                  Sample.build_iOf7 Sample.mass_oOf7 Sample.build_u 0
                  Sample.zeros) H1 H2).
Defined.

(** C8, as stated, fails: with [dim = 1] and [space_dim = 2] the tag of the
    code is 21, and [dim*10 + space_dim] is 12. *)
Lemma f_build_mass_dims_not_dim_times_10 :
  f_build_mass_dims Sample.ctx_1_2 = 21 /\
  Sample.ctx_1_2 0 * 10 + Sample.ctx_1_2 1 = 12 /\
  f_build_mass_dims Sample.ctx_1_2
  <> Sample.ctx_1_2 0 * 10 + Sample.ctx_1_2 1.
Proof. repeat split. discriminate. Qed.

(** ** What the kernels return *)

(** C9, as the code has it.  The six QFunctions in C return 0 for every
    context, every [Q] and every input; the four OKL kernels are [void]
    and return no status.  Every kernel comes to its end: no input makes
    one fail. *)
Theorem kernels_returned (F : Type) (HA : Arith F) (HL : Libm F) :
  (forall ctx Q iOf7 oOf7 (u : Z -> F) m,
     returned (f_build_mass ctx Q iOf7 oOf7 u) m = RVoid) /\
  (forall Q iOf7 oOf7 (inp : Z -> F) m,
     returned (f_apply_mass Q iOf7 oOf7 inp) m = RVoid) /\
  (forall Q iOf7 oOf7 (inp : Z -> F) m,
     returned (SetupDiff3Rhs Q iOf7 oOf7 inp) m = RVoid) /\
  (forall Q iOf7 oOf7 (inp : Z -> F) m,
     returned (Diff3 Q iOf7 oOf7 inp) m = RVoid) /\
  (forall ctx Q (inp : Z -> Z -> F) m,
     returned (ICsDC ctx Q inp) m = RInt 0) /\
  (forall ctx Q (inp : Z -> Z -> F) du0 m,
     returned (DC ctx Q inp du0) m = RInt 0) /\
  (forall ctx Q (inp : Z -> Z -> F) m,
     returned (SWICs ctx Q inp) m = RInt 0) /\
  (forall ctx Q (inp : Z -> Z -> F) m,
     returned (SWExplicit ctx Q inp) m = RInt 0) /\
  (forall ctx Q (inp : Z -> Z -> F) m,
     returned (SWImplicit ctx Q inp) m = RInt 0) /\
  (forall ctx Q (inp : Z -> Z -> F) m,
     returned (SWJacobian ctx Q inp) m = RInt 0).
Proof.
  repeat split; intros; apply returned_for_loop.
Qed.

(** C9, as stated, fails: [f_apply_mass] is [void], what it returns is not
    the status 0. *)
Lemma f_apply_mass_returns_no_status :
  returned (f_apply_mass 2 Sample.mass_iOf7 Sample.mass_oOf7 Sample.mass_in)
    Sample.zeros = RVoid /\
  returned (f_apply_mass 2 Sample.mass_iOf7 Sample.mass_oOf7 Sample.mass_in)
    Sample.zeros <> RInt 0.
Proof.
  unfold f_apply_mass. rewrite returned_for_loop.
  split; [reflexivity | discriminate].
Qed.

(** ** Loads and stores of the iterations *)

(** C3, as the code has it, the loads of [SetupDiff3Rhs] left out.  In
    every kernel the iteration [i] stores to output elements of the point
    [i] only.  [f_build_mass], [f_apply_mass], [Diff3], [ICsDC], [SWICs],
    [SWExplicit], [SWImplicit] and [SWJacobian] never load from the output
    array.  [DC] loads from it, in its [-=], only elements that the same
    iteration has stored before.  Hence the stores of each of these nine
    kernels do not depend on what the output array held before. *)
Theorem kernels_point_disjoint (F : Type) (HA : Arith F) (HL : Libm F) :
  (forall ctx Q iOf7 oOf7 (u : Z -> F),
     point_write_only (point_cell flat [(oOf7 0, 1)] Q)
       (f_build_mass_body ctx Q iOf7 oOf7 u) /\
     prior_free (f_build_mass ctx Q iOf7 oOf7 u)) /\
  (forall Q iOf7 oOf7 (inp : Z -> F),
     point_write_only (point_cell flat [(oOf7 0, 1)] Q)
       (f_apply_mass_body Q iOf7 oOf7 inp) /\
     prior_free (f_apply_mass Q iOf7 oOf7 inp)) /\
  (forall Q iOf7 oOf7 (inp : Z -> F),
     point_write_only (point_cell flat [(oOf7 0, 9)] Q)
       (Diff3_body Q iOf7 oOf7 inp) /\
     prior_free (Diff3 Q iOf7 oOf7 inp)) /\
  (forall ctx Q (inp : Z -> Z -> F),
     point_write_only (point_cell cell [(0, 5); (1, 3)] Q)
       (ICsDC_body ctx Q inp) /\
     prior_free (ICsDC ctx Q inp)) /\
  (forall ctx Q (inp : Z -> Z -> F),
     point_write_only (point_cell cell [(0, 3); (1, 1); (2, 1); (3, 2)] Q)
       (SWICs_body ctx Q inp) /\
     prior_free (SWICs ctx Q inp)) /\
  (forall ctx Q (inp : Z -> Z -> F),
     point_write_only (point_cell cell [(0, 3); (1, 6)] Q)
       (SWExplicit_body ctx Q inp) /\
     prior_free (SWExplicit ctx Q inp)) /\
  (forall ctx Q (inp : Z -> Z -> F),
     point_write_only (point_cell cell [(0, 3); (1, 6)] Q)
       (SWImplicit_body ctx Q inp) /\
     prior_free (SWImplicit ctx Q inp)) /\
  (forall ctx Q (inp : Z -> Z -> F),
     point_write_only (point_cell cell [(0, 3); (1, 6)] Q)
       (SWJacobian_body ctx Q inp) /\
     prior_free (SWJacobian ctx Q inp)) /\
  (forall ctx Q (inp : Z -> Z -> F) du0,
     point_local (point_cell cell [(0, 5); (1, 15)] Q)
       (fun i => DC_body ctx Q inp (du0 i) i) /\
     prior_free (DC ctx Q inp du0)) /\
  (forall Q iOf7 oOf7 (inp : Z -> F) i,
     stores_in (point_cell flat [(oOf7 0, 3); (oOf7 1, 3)] Q i)
       (SetupDiff3Rhs_body Q iOf7 oOf7 inp i)).
Proof.
  assert (Hw : forall (own : Z -> Z -> Prop) (body : Z -> prog Z F unit)
                  (x : retval) Q,
            point_write_only own body ->
            prior_free (for_loop Q body ;; Ret x)).
  { intros own body x Q Hb m1 m2.
    eapply effect_for_loop_local, point_write_only_local, Hb. }
  assert (Hc : forall (own : Z -> Z * Z -> Prop)
                  (body : Z -> prog (Z * Z) F unit) (x : retval) Q,
            point_local own body ->
            prior_free (for_loop Q body ;; Ret x)).
  { intros own body x Q Hb m1 m2. eapply effect_for_loop_local, Hb. }
  repeat match goal with
         | |- _ /\ _ => split
         | |- forall _, _ => intro
         end.
  - apply f_build_mass_body_point.
  - eapply Hw, f_build_mass_body_point.
  - apply f_apply_mass_body_point.
  - eapply Hw, f_apply_mass_body_point.
  - apply Diff3_body_point.
  - eapply Hw, Diff3_body_point.
  - apply ICsDC_body_point.
  - eapply Hc, point_write_only_local, ICsDC_body_point.
  - apply SWICs_body_point.
  - eapply Hc, point_write_only_local, SWICs_body_point.
  - apply SWExplicit_body_point.
  - eapply Hc, point_write_only_local, SWExplicit_body_point.
  - apply SWImplicit_body_point.
  - eapply Hc, point_write_only_local, SWImplicit_body_point.
  - apply SWJacobian_body_point.
  - eapply Hc, point_write_only_local, SWJacobian_body_point.
  - apply DC_body_point.
  - eapply Hc, DC_body_point.
  - apply SetupDiff3Rhs_body_stores.
Qed.

(** C3, as stated, fails on [DC]: the iteration loads the twelve elements
    of [dv] that hold the momentum and energy fluxes. *)
Lemma DC_iteration_loads_output :
  loads (DC_body Sample.dc_ctx 1 Sample.dc_moving (Sample.du_zeros 0) 0)
    Sample.zeros2
  = [(1, 1); (1, 6); (1, 11); (1, 2); (1, 7); (1, 12);
     (1, 3); (1, 8); (1, 13); (1, 4); (1, 9); (1, 14)] /\
  ~ write_only
      (DC_body Sample.dc_ctx 1 Sample.dc_moving (Sample.du_zeros 0) 0).
Proof.
  split; [vm_compute; reflexivity | apply DC_body_loads].
Qed.

(** ** [SetupDiff3Rhs] *)

(** The three sines at x = (1/4, 1/4, 1/4). *)
Lemma sines_at_quarter :
  (sin (PI * (0 + 1 * (1/4))) * sin (PI * (1 + 2 * (1/4))) *
   sin (PI * (2 + 3 * (1/4))) = - (1/2))%R.
Proof.
  replace (PI * (0 + 1 * (1/4)))%R with (PI / 4)%R by field.
  replace (PI * (1 + 2 * (1/4)))%R with (3 * (PI / 2))%R by field.
  replace (PI * (2 + 3 * (1/4)))%R with (3 * (PI / 4) + 2 * PI)%R by field.
  rewrite sin_plus, sin_2PI, cos_2PI, sin_PI4, sin_3PI2, sin_3PI4.
  assert (Hs : (sqrt 2 * sqrt 2 = 2)%R) by (apply sqrt_sqrt; lra).
  assert (Hn : (sqrt 2 <> 0)%R).
  { intros E. rewrite E in Hs. lra. }
  replace (1 / sqrt 2 * -1 * (1 / sqrt 2 * 1 + cos (3 * (PI / 4)) * 0))%R
    with (- (1 / (sqrt 2 * sqrt 2)))%R by (field; assumption).
  rewrite Hs. reflexivity.
Qed.

(** Component 1 of the target holds, after [SetupDiff3Rhs], what component
    0 of the forcing held before the call. *)
Lemma SetupDiff3Rhs_target_prior (F : Type) (HA : Arith F) (HL : Libm F)
    Q iOf7 oOf7 (inp : Z -> F) m i :
  0 <= i < Q ->
  oOf7 0 + 3 * Q <= oOf7 1 \/ oOf7 1 + 3 * Q <= oOf7 0 ->
  output (SetupDiff3Rhs Q iOf7 oOf7 inp) m (oOf7 0 + i + 1*Q)
  = m (oOf7 1 + i + 0*Q).
Proof.
  intros Hi Ho. unfold SetupDiff3Rhs.
  destruct (output_for_loop_point
              (point_cell flat [(oOf7 0, 3); (oOf7 1, 3)] Q)
              (SetupDiff3Rhs_body Q iOf7 oOf7 inp) RVoid Q m i
              (oOf7 0 + i + 1*Q))
    as (m0 & -> & Hm0).
  { intros j; apply SetupDiff3Rhs_body_stores. }
  { intros j j' b; apply point_cell_disjoint_flat2; assumption. }
  { assumption. }
  { solve_cell. }
  unfold SetupDiff3Rhs_body. norm_prog.
  rewrite output_Store.
  rewrite (output_Load _ _ _ (m0 (oOf7 1 + i + 0*Q))) by resolve.
  exec.
  eapply eq_trans; [resolve |].
  apply Hm0. intros j Hj (f & n & c & Hin & Hc & E).
  unfold flat in E. simpl in Hin.
  destruct Hin as [[= <- <-]|[[= <- <-]|[]]].
  all: assert (0 <= c * Q <= 2 * Q) by nia.
  all: try lia.
  assert (c = 0) by nia. lia.
Qed.

(** C4 at the failing input: one point of [SetupDiff3Rhs], the output
    array zero before the first call.  The first call leaves in component 1
    of the target what the array held in component 0 of the forcing, 0;
    the second call, on the array the first one left, stores there the
    forcing of the first call, [-7 pi^2]. *)
Theorem SetupDiff3Rhs_second_call_differs :
  let K := SetupDiff3Rhs 1 Sample.diff_iOf7 Sample.diff_oOf7 Sample.diff_in in
  let out1 := output K Sample.diff_out0 in
  let out2 := output K out1 in
  out1 1 = 0%R /\ out1 3 = (- 7 * PI^2)%R /\ out2 1 = (- 7 * PI^2)%R /\
  out2 1 <> out1 1.
Proof.
  intros K out1 out2.
  assert (E3 : forall m, output K m 3 = (- 7 * PI^2)%R).
  { intros m. subst K. unfold SetupDiff3Rhs, SetupDiff3Rhs_body.
    unfold output. rewrite run_bind. simpl snd.
    norm_prog. cbv beta iota zeta delta [run snd]. lookup.
    unfold SetupDiff3Rhs_rho.
    change (Sample.diff_in (Sample.diff_iOf7 0 + 0 * 1 + 0)) with (1/4)%R.
    change (Sample.diff_in (Sample.diff_iOf7 0 + 1 * 1 + 0)) with (1/4)%R.
    change (Sample.diff_in (Sample.diff_iOf7 0 + 2 * 1 + 0)) with (1/4)%R.
    cbn [vec3 Z.eqb fsin M_PI fmul fadd fsub fofZ R_arith R_libm Pos.eqb].
    change (Sample.diff_in (Sample.diff_iOf7 2 + 0)) with 1%R.
    change (Sample.diff_in (Sample.diff_iOf7 1 + 0 + 1 * 0)) with 1%R.
    change (Sample.diff_in (Sample.diff_iOf7 1 + 0 + 1 * 1)) with 0%R.
    change (Sample.diff_in (Sample.diff_iOf7 1 + 0 + 1 * 2)) with 0%R.
    change (Sample.diff_in (Sample.diff_iOf7 1 + 0 + 1 * 3)) with 0%R.
    change (Sample.diff_in (Sample.diff_iOf7 1 + 0 + 1 * 4)) with 1%R.
    change (Sample.diff_in (Sample.diff_iOf7 1 + 0 + 1 * 5)) with 0%R.
    change (Sample.diff_in (Sample.diff_iOf7 1 + 0 + 1 * 6)) with 0%R.
    change (Sample.diff_in (Sample.diff_iOf7 1 + 0 + 1 * 7)) with 0%R.
    change (Sample.diff_in (Sample.diff_iOf7 1 + 0 + 1 * 8)) with 1%R.
    match goal with
    | |- (_ * ?s1 * ?s2 * ?s3 = _)%R =>
        assert (Hs : (s1 * s2 * s3 = - (1/2))%R) by apply sines_at_quarter;
        set (a := s1) in *; set (b := s2) in *; set (c := s3) in *
    end.
    replace (- 7 * PI ^ 2)%R with (14 * PI ^ 2 * (a * b * c))%R
      by (rewrite Hs; field).
    ring. }
  assert (E1 : forall m, output K m 1 = m 3).
  { intros m. subst K. unfold SetupDiff3Rhs, SetupDiff3Rhs_body.
    unfold output. rewrite run_bind. simpl snd.
    norm_prog. cbv beta iota zeta delta [run snd]. lookup. reflexivity. }
  assert (Hpi : (PI ^ 2 > 0)%R).
  { apply pow_lt. apply PI_RGT_0. }
  subst out2 out1. rewrite !E1, !E3.
  repeat split; try reflexivity.
  unfold Sample.diff_out0. intros E. lra.
Qed.

(** ** [DC] *)

(** After [DC], the element [dv[k][j][i]] holds the advective flux minus
    the viscous flux, for every scalar arithmetic and every input: the
    stabilization matrix [Stab_Conv] is computed and never stored. *)
Lemma DC_dv_point (F : Type) (HA : Arith F) ctx Q (inp : Z -> Z -> F)
    du0 m i k j :
  0 <= i < Q -> 0 <= k < 3 -> 0 <= j < 5 ->
  output (DC ctx Q inp du0) m (cell 1 ((k * 5 + j) * Q + i))
  = DC_dv_value ctx Q inp (du0 i) i k j.
Proof.
  intros Hi Hk Hj. unfold DC.
  destruct (output_for_loop_point (point_cell cell [(0, 5); (1, 15)] Q)
              (fun i => DC_body ctx Q inp (du0 i) i) (RInt 0) Q m i
              (cell 1 ((k * 5 + j) * Q + i)))
    as (m' & -> & _).
  - intros j0; apply DC_body_point.
  - intros j0 j' b; apply point_cell_disjoint_cell.
  - assumption.
  - exists 1, 15, (k * 5 + j).
    split; [simpl; tauto | split; [lia | reflexivity]].
  - unfold DC_body. norm_prog. exec. unfold DC_dv_value.
    assert (Hk' : k = 0 \/ k = 1 \/ k = 2) by lia.
    assert (Hj' : j = 0 \/ j = 1 \/ j = 2 \/ j = 3 \/ j = 4) by lia.
    destruct Hk' as [-> | [-> | ->]];
      destruct Hj' as [-> | [-> | [-> | [-> | ->]]]];
      (eapply eq_trans; [resolve | reflexivity]).
Qed.

(** The value-test output of [DC]: the gravity source in the momentum-z
    and energy components, 0 in the others. *)
Lemma DC_v_point (F : Type) (HA : Arith F) ctx Q (inp : Z -> Z -> F)
    du0 m i :
  0 <= i < Q ->
  let out := output (DC ctx Q inp du0) m in
  let rho := DC_rho Q inp i in
  let g := DC_g ctx in
  let wJ := DC_wJ Q inp i in
  out (cell 0 (0 * Q + i)) = fofZ 0 /\
  out (cell 0 (1 * Q + i)) = fofZ 0 /\
  out (cell 0 (2 * Q + i)) = fofZ 0 /\
  out (cell 0 (3 * Q + i)) = (-rho*g*wJ)%sc /\
  out (cell 0 (4 * Q + i)) = (-rho*g*(DC_u Q inp i).[2]*wJ)%sc.
Proof.
  intros Hi out rho g wJ. subst out. unfold DC.
  assert (Hpt : forall c, 0 <= c < 5 ->
            exists m', output (for_loop Q (fun i => DC_body ctx Q inp (du0 i) i) ;;
                               Ret (RInt 0)) m (cell 0 (c * Q + i))
                       = output (DC_body ctx Q inp (du0 i) i) m'
                           (cell 0 (c * Q + i))).
  { intros c Hc.
    destruct (output_for_loop_point (point_cell cell [(0, 5); (1, 15)] Q)
                (fun i => DC_body ctx Q inp (du0 i) i) (RInt 0) Q m i
                (cell 0 (c * Q + i)))
      as (m' & E & _); eauto.
    - intros j; apply DC_body_point.
    - intros j j' b; apply point_cell_disjoint_cell.
    - exists 0, 5, c. split; [simpl; tauto | split; [lia | reflexivity]]. }
  assert (Hrun : forall m', exists M,
            output (DC_body ctx Q inp (du0 i) i) m' = M /\
            M (cell 0 (0 * Q + i)) = fofZ 0 /\
            M (cell 0 (1 * Q + i)) = fofZ 0 /\
            M (cell 0 (2 * Q + i)) = fofZ 0 /\
            M (cell 0 (3 * Q + i)) = (-rho*g*wJ)%sc /\
            M (cell 0 (4 * Q + i)) = (-rho*g*(DC_u Q inp i).[2]*wJ)%sc).
  { intros m'. eexists. split.
    - unfold DC_body. norm_prog. exec. reflexivity.
    - repeat split; (eapply eq_trans; [resolve | reflexivity]). }
  repeat split.
  all: match goal with
       | |- output _ _ (cell 0 (?c * _ + _)) = _ =>
           destruct (Hpt c ltac:(lia)) as (m' & ->);
           destruct (Hrun m') as (M & -> & H0 & H1 & H2 & H3 & H4)
       end; assumption.
Qed.

(** C1 at the failing input: a point in motion, [f1 = 1].  The
    stabilization tensor and the matrix [Stab_Conv] are not zero; the
    fifteen elements of [dv] hold the fluxes of [DC_dv_value], in which
    neither occurs. *)
Theorem DC_gradient_output_without_stabilization :
  let ctx := Sample.dc_ctx in
  let inp := Sample.dc_moving in
  let out := output (DC ctx 1 inp Sample.du_zeros) Sample.zeros2 in
  DC_f1 1 inp 0 = 1%float /\
  (DC_TauC 1 inp 0, DC_TauM 1 inp 0, DC_TauE ctx 1 inp 0)
  = (PrimFloat.div 1 24, 1, 1)%float /\
  map (fun r => map (DC_Stab_Conv ctx 1 inp 0 r) [0; 1; 2]) [0; 1; 2; 3; 4]
  = [[6.8125; 0; 0]; [-6.75; 0; 0]; [0; -7.625; 0]; [0; 0; -7.625];
     [-4.125; -0; -0]]%float /\
  map (fun k => map (fun j => out (cell 1 ((k * 5 + j) * 1 + 0)))
                 [0; 1; 2; 3; 4]) [0; 1; 2]
  = map (fun k => map (DC_dv_value ctx 1 inp (Sample.du_zeros 0) 0 k)
                    [0; 1; 2; 3; 4]) [0; 1; 2] /\
  map (fun k => map (fun j => out (cell 1 ((k * 5 + j) * 1 + 0)))
                 [0; 1; 2; 3; 4]) [0; 1; 2]
  = [[1; 3.25; 0; 0; 5.25]; [0; 0; 0.25; 0; 0]; [0; 0; 0; 0.25; 0]]%float.
Proof. vm_compute. repeat split. Qed.

(** C2 at the failing input: a point at rest in a uniform state.  With
    ones in the uninitialised [du] the viscous stress [Fu] is not zero and
    [dv] is not the pressure flux [wJ * P * dXdx], which it is with zeros
    in [du]. *)
Theorem DC_rest_state_viscous_flux :
  let ctx := Sample.dc_ctx in
  let inp := Sample.dc_rest in
  let dv := fun du0 =>
    map (fun k => map (fun j => output (DC ctx 1 inp du0) Sample.zeros2
                                  (cell 1 ((k * 5 + j) * 1 + 0)))
                   [0; 1; 2; 3; 4]) [0; 1; 2] in
  map (DC_u 1 inp 0) [0; 1; 2] = [0; 0; 0]%float /\
  map (fun k => map (fun j => rows5 1 (inp 1) k j 0) [0; 1; 2; 3; 4])
    [0; 1; 2]
  = [[0; 0; 0; 0; 0]; [0; 0; 0; 0; 0]; [0; 0; 0; 0; 0]]%float /\
  map (DC_Fu ctx 1 inp (Sample.du_ones 0) 0) [0; 1; 2; 3; 4; 5]
  = [1.5; 1; 1; -0.5; 0; -0.5]%float /\
  dv Sample.du_ones
  = [[0; -0.5; -1; -1; 0]; [0; -1.5; 0.5; -1; 0]; [0; -1; 0; 1.5; 0]]%float /\
  dv Sample.du_zeros
  = [[0; 1; 0; 0; 0]; [0; 1; 1; 0; 0]; [0; 0; 0; 1; 0]]%float.
Proof. vm_compute. repeat split. Qed.

(** *** The state of rest, had [du] been assigned before it is read

    In real arithmetic, at a point with zero momentum and zero gradients,
    and on the assumption that the innermost loop finds in [du] the values
    that the nest assigns to it, the viscous fluxes vanish and [dv] is the
    pressure flux.  The assumption is what the code does not provide. *)

Lemma vec3_all {T : Type} (P : T -> Prop) (a b c : T) j :
  P a -> P b -> P c -> P (vec3 a b c j).
Proof. intros; unfold vec3; destruct (j =? 0), (j =? 1); assumption. Qed.

Lemma vec6_all {T : Type} (P : T -> Prop) (a b c d e f : T) j :
  P a -> P b -> P c -> P d -> P e -> P f -> P (vec6 a b c d e f j).
Proof.
  intros; unfold vec6;
    destruct (j =? 0), (j =? 1), (j =? 2), (j =? 3), (j =? 4); assumption.
Qed.

Section RestState.
Variables (ctx : Z -> R) (Q : Z) (inp : Z -> Z -> R).
Variables (du0 : Z -> Z -> R) (i : Z).
Hypothesis Hrest : forall c, 1 <= c <= 3 -> rows Q (inp 0) c i = 0%R.
Hypothesis Hunif : forall k j, rows5 Q (inp 1) k j i = 0%R.
Hypothesis Hdu : forall j l, du0 j l = DC_du Q inp i j l.

Lemma rest_u j : DC_u Q inp i j = 0%R.
Proof.
  unfold DC_u, DC_q.
  apply vec3_all; rewrite Hrest by lia; simpl; unfold Rdiv; ring.
Qed.

Lemma rest_du j k : DC_du Q inp i j k = 0%R.
Proof.
  unfold DC_du. cbv zeta. rewrite rest_u.
  assert (E1 : DC_dU Q inp i j k = 0%R).
  { unfold DC_dU, DC_dq.
    apply (vec3_all (fun f => f k = 0%R)); apply vec3_all; apply Hunif. }
  assert (E2 : DC_drho Q inp i k = 0%R).
  { unfold DC_drho, DC_dq. apply vec3_all; apply Hunif. }
  rewrite E1, E2. simpl. unfold Rdiv. ring.
Qed.

Lemma rest_dudx j k : DC_dudx Q inp du0 i j k = 0%R.
Proof.
  unfold DC_dudx, acc3, DC_du_read. cbv zeta.
  repeat match goal with
         | |- context [if ?c then _ else _] => destruct c
         end;
    rewrite ?Hdu, ?rest_du; simpl; ring.
Qed.

Lemma rest_Fu j : DC_Fu ctx Q inp du0 i j = 0%R.
Proof.
  unfold DC_Fu. cbv zeta.
  apply vec6_all; rewrite !rest_dudx; simpl; ring.
Qed.

Lemma rest_gradT j : DC_gradT ctx Q inp du0 i j = 0%R.
Proof.
  unfold DC_gradT. cbv zeta.
  assert (E1 : forall j, DC_dEdx Q inp i j = 0%R).
  { intros j'. unfold DC_dEdx, acc3, DC_dE, DC_dq. cbv zeta.
    rewrite !(vec3_all (fun x => x = 0%R)) by apply Hunif. simpl. ring. }
  assert (E2 : forall j, DC_drhodx Q inp i j = 0%R).
  { intros j'. unfold DC_drhodx, acc3, DC_drho, DC_dq. cbv zeta.
    rewrite !(vec3_all (fun x => x = 0%R)) by apply Hunif. simpl. ring. }
  apply vec3_all; rewrite !E1, !E2, !rest_dudx, !rest_u; simpl;
    unfold Rdiv; ring.
Qed.

Lemma rest_Fe j : DC_Fe ctx Q inp du0 i j = 0%R.
Proof.
  unfold DC_Fe. cbv zeta.
  apply vec3_all; rewrite !rest_Fu, !rest_gradT, !rest_u; simpl; ring.
Qed.

(** The pressure flux is all that is left in [dv]. *)
Lemma rest_dv_value k j :
  0 <= j < 5 ->
  DC_dv_value ctx Q inp du0 i k j =
  if (1 <=? j) && (j <=? 3)
  then (DC_wJ Q inp i * (DC_P ctx Q inp i * DC_dXdx Q inp i k (j - 1)))%R
  else 0%R.
Proof.
  intros Hj. unfold DC_dv_value. cbv zeta.
  assert (Hj' : j = 0 \/ j = 1 \/ j = 2 \/ j = 3 \/ j = 4) by lia.
  destruct Hj' as [-> | [-> | [-> | [-> | ->]]]];
    cbn [Z.eqb Z.leb Z.compare Pos.eqb Pos.compare Pos.compare_cont andb
         vec3];
    change (1 - 1) with 0; change (2 - 1) with 1; change (3 - 1) with 2;
    rewrite ?rest_Fu, ?rest_Fe, ?rest_u; simpl; ring.
Qed.
End RestState.

(** * Further properties of the kernels *)

(** ** Store lists, idempotence and the order of the iterations *)

Section ScheduleFacts.
Context {A F : Type} `{EqDecision A}.
Implicit Types (m : A -> F) (a : A).

Lemma output_bind {X Y : Type} (p : prog A F X) (f : X -> prog A F Y) m :
  output (bind p f) m = output (f (returned p m)) (output p m).
Proof. unfold output, returned. now rewrite run_bind. Qed.

(** The output is the initial array with the stores of the execution done
    on it. *)
Lemma output_replay {X : Type} (p : prog A F X) m :
  output p m = replay (effect p m) m.
Proof.
  unfold output. revert m; induction p as [x | a k IH | a v k IH];
    intros m; simpl; auto.
Qed.

Lemma replay_last (l : list (A * F)) m a :
  replay l m a = match last_store l a with Some v => v | None => m a end.
Proof.
  revert m; induction l as [| [b v] l IH]; intros m; simpl; [reflexivity |].
  rewrite IH. destruct (last_store l a); [reflexivity |].
  destruct (decide (b = a)) as [-> | Hne].
  - apply fn_lookup_insert.
  - now apply fn_lookup_insert_ne.
Qed.

Lemma last_store_in (l : list (A * F)) a v :
  last_store l a = Some v -> In (a, v) l.
Proof.
  induction l as [| [b w] l IH]; simpl; [discriminate |].
  destruct (last_store l a) as [u |].
  - intros [= ->]. right; auto.
  - destruct (decide (b = a)) as [-> | Hne]; [| discriminate].
    intros [= ->]. left; reflexivity.
Qed.

Lemma effect_stores_in {X : Type} (P : A -> Prop) (p : prog A F X) m a v :
  stores_in P p -> In (a, v) (effect p m) -> P a.
Proof.
  revert m; induction p as [x | b k IH | b w k IH]; simpl; intros m Hp Hin.
  - contradiction.
  - eapply IH; eauto.
  - destruct Hp as [Hb Hk]. destruct Hin as [[= <- <-] | Hin]; eauto.
Qed.

(** A local program gives the same output, element by element, on two
    arrays that hold the same values. *)
Lemma local_output_ext {X : Type} (p : prog A F X) m1 m2 :
  local [] p -> (forall a, m1 a = m2 a) ->
  forall a, output p m1 a = output p m2 a.
Proof.
  intros Hp Hm a. rewrite !output_replay, !replay_last.
  destruct (local_agree p [] m1 m2 Hp) as (-> & _); [simpl; tauto |].
  destruct (last_store (effect p m2) a); auto.
Qed.

(** A program whose stores do not depend on the array it starts on leaves,
    run a second time, every element as the first run has left it. *)
Lemma prior_free_idempotent {X : Type} (p : prog A F X) m a :
  prior_free p -> output p (output p m) a = output p m a.
Proof.
  intros Hp. rewrite (output_replay p (output p m)), (Hp (output p m) m).
  rewrite replay_last, (output_replay p m), replay_last.
  destruct (last_store (effect p m) a); reflexivity.
Qed.

(** Two local programs that store to disjoint sets of elements commute. *)
Lemma local_commute (P P' : A -> Prop) (p q : prog A F unit) m1 m2 :
  local [] p -> local [] q -> stores_in P p -> stores_in P' q ->
  (forall a, P a -> P' a -> False) ->
  (forall a, m1 a = m2 a) ->
  forall a, output q (output p m1) a = output p (output q m2) a.
Proof.
  intros Lp Lq Sp Sq Hd Hm a.
  rewrite (output_replay q), (output_replay p (output q m2)).
  destruct (local_agree q [] (output p m1) m2 Lq) as (-> & _);
    [simpl; tauto |].
  destruct (local_agree p [] (output q m2) m1 Lp) as (-> & _);
    [simpl; tauto |].
  rewrite !replay_last, (output_replay p m1), (output_replay q m2),
    !replay_last.
  destruct (last_store (effect q m2) a) as [v |] eqn:Eq,
           (last_store (effect p m1) a) as [w |] eqn:Ep; auto.
  exfalso. apply (Hd a).
  - eapply effect_stores_in; [exact Sp | eapply last_store_in; eauto].
  - eapply effect_stores_in; [exact Sq | eapply last_store_in; eauto].
Qed.

Lemma local_for_list (body : Z -> prog A F unit) l :
  (forall i, local [] (body i)) -> local [] (for_list l body).
Proof.
  intros Hb; induction l as [| i l IH]; simpl; auto.
  apply local_bind; auto.
Qed.

(** The loop of the kernels is [for_list] on the indices in increasing
    order. *)
Lemma for_range_for_list (body : Z -> prog A F unit) n s :
  for_range n s body = for_list (range n s) body.
Proof.
  revert s; induction n as [| n IH]; intros s; simpl; [| rewrite IH];
    reflexivity.
Qed.

Lemma in_range n s j : In j (range n s) <-> s <= j < s + Z.of_nat n.
Proof.
  revert s; induction n as [| n IH]; intros s; simpl; [lia |].
  rewrite IH. lia.
Qed.

(** The order of the iterations does not matter, when each stores to the
    elements of its own point and loads only what it has stored. *)
Lemma for_list_permutation (own : Z -> A -> Prop)
    (body : Z -> prog A F unit) (dom : Z -> Prop) l l' :
  point_local own body ->
  (forall j j' b, dom j -> dom j' -> own j b -> own j' b -> j = j') ->
  Permutation l l' -> (forall j, In j l -> dom j) ->
  forall m1 m2, (forall a, m1 a = m2 a) ->
  forall a, output (for_list l body) m1 a = output (for_list l' body) m2 a.
Proof.
  intros Hb Hd Hperm.
  induction Hperm as [| x l l' Hp IH | x y l | l l' l'' Hp1 IH1 Hp2 IH2];
    intros Hdom m1 m2 Hm a.
  - simpl. apply Hm.
  - simpl. rewrite !output_bind. apply IH.
    + intros j Hj; apply Hdom; right; exact Hj.
    + apply local_output_ext; [apply Hb | exact Hm].
  - simpl. rewrite !output_bind.
    apply local_output_ext; [apply local_for_list; intros i; apply Hb |].
    intros b.
    destruct (Z.eq_dec x y) as [-> | Hne].
    + apply local_output_ext; [apply Hb |].
      apply local_output_ext; [apply Hb | exact Hm].
    + apply (local_commute (own y) (own x)); try apply Hb; auto.
      intros c Hy Hx. apply Hne. apply (Hd x y c); auto.
      * apply Hdom; right; left; reflexivity.
      * apply Hdom; left; reflexivity.
  - transitivity (output (for_list l' body) m1 a).
    + apply IH1; auto.
    + apply IH2; auto. intros j Hj. apply Hdom.
      eapply Permutation_in; [apply Permutation_sym; exact Hp1 | exact Hj].
Qed.

Lemma for_loop_any_order (own : Z -> A -> Prop)
    (body : Z -> prog A F unit) {X : Type} (x : X) Q l m a :
  point_local own body ->
  (forall j j' b, 0 <= j < Q -> 0 <= j' < Q ->
                  own j b -> own j' b -> j = j') ->
  Permutation l (range (Z.to_nat Q) 0) ->
  output (for_list l body) m a = output (for_loop Q body ;; Ret x) m a.
Proof.
  intros Hb Hd Hp. rewrite output_bind. simpl. unfold for_loop.
  rewrite for_range_for_list.
  apply (for_list_permutation own body (fun j => 0 <= j < Q)); auto.
  intros j Hj. apply (Permutation_in _ Hp), in_range in Hj. lia.
Qed.

Lemma for_loop_idempotent (own : Z -> A -> Prop)
    (body : Z -> prog A F unit) {X : Type} (x : X) Q m a :
  point_local own body ->
  let K := (for_loop Q body ;; Ret x) in
  output K (output K m) a = output K m a.
Proof.
  intros Hb K. apply prior_free_idempotent.
  intros m1 m2. eapply effect_for_loop_local, Hb.
Qed.

(** Outside the elements of the points [0 .. Q-1] nothing is stored. *)
Lemma output_for_loop_frame (own : Z -> A -> Prop)
    (body : Z -> prog A F unit) {X : Type} (x : X) Q m a :
  (forall j, stores_in (own j) (body j)) ->
  (forall j, 0 <= j < Q -> ~ own j a) ->
  output (for_loop Q body ;; Ret x) m a = m a.
Proof.
  intros Hb Ha. rewrite output_bind. simpl. unfold for_loop, output.
  apply (stores_in_frame _ _ _ _ (stores_in_for_range own body _ 0 Hb)).
  intros (j & Hj & Hja). apply (Ha j); [lia | exact Hja].
Qed.
End ScheduleFacts.

(** The elements of a point lie in the extent of the fields. *)
Lemma point_cell_in_flat shape Q j a :
  0 <= j < Q -> point_cell flat shape Q j a -> in_flat shape Q a = true.
Proof.
  intros Hj (f & n & c & Hin & Hc & ->). unfold in_flat, flat.
  apply existsb_exists. exists (f, n). split; [exact Hin |].
  apply andb_true_iff; split; [apply Z.leb_le | apply Z.ltb_lt]; nia.
Qed.

Lemma point_cell_in_cell shape Q j a :
  0 <= j < Q -> point_cell cell shape Q j a -> in_cell shape Q a = true.
Proof.
  intros Hj (f & n & c & Hin & Hc & ->). unfold in_cell, cell.
  apply existsb_exists. exists (f, n). split; [exact Hin |]. simpl.
  rewrite !andb_true_iff.
  repeat split; [apply Z.eqb_eq | apply Z.leb_le | apply Z.ltb_lt]; nia.
Qed.

Lemma in_flat_false2 o0 o1 n Q a :
  in_flat [(o0, n); (o1, n)] Q a = false ->
  (a < o0 \/ o0 + n * Q <= a) /\ (a < o1 \/ o1 + n * Q <= a).
Proof.
  unfold in_flat. simpl. rewrite !orb_false_iff, !andb_false_iff.
  rewrite !Z.leb_gt, !Z.ltb_ge. tauto.
Qed.

Section Frames.
Context {F : Type}.

Lemma for_loop_frame_flat shape (body : Z -> prog Z F unit) {X : Type}
    (x : X) Q m a :
  (forall j, stores_in (point_cell flat shape Q j) (body j)) ->
  in_flat shape Q a = false ->
  output (for_loop Q body ;; Ret x) m a = m a.
Proof.
  intros Hb Ha. apply (output_for_loop_frame (point_cell flat shape Q)); auto.
  intros j Hj Hc. rewrite (point_cell_in_flat shape Q j a Hj Hc) in Ha.
  discriminate.
Qed.

Lemma for_loop_frame_cell shape (body : Z -> prog (Z * Z) F unit)
    {X : Type} (x : X) Q m a :
  (forall j, stores_in (point_cell cell shape Q j) (body j)) ->
  in_cell shape Q a = false ->
  output (for_loop Q body ;; Ret x) m a = m a.
Proof.
  intros Hb Ha. apply (output_for_loop_frame (point_cell cell shape Q)); auto.
  intros j Hj Hc. rewrite (point_cell_in_cell shape Q j a Hj Hc) in Ha.
  discriminate.
Qed.
End Frames.

(** Inequalities between the real numbers of a sample. *)
Ltac sample_lra :=
  cbv - [Rplus Rmult Rminus Rdiv Ropp Rinv IZR Rle Rlt Rge Rgt]; lra.

(** X1.  No kernel stores outside its output fields: an element of the
    output that does not lie in the first [n*Q] elements of one of the
    fields the kernel writes ([n] the number of components of the field)
    holds after the kernel what it held before.  The fields are: one
    component at [oOf7[0]] for [f_build_mass] and [f_apply_mass], three at
    [oOf7[0]] and three at [oOf7[1]] for [SetupDiff3Rhs], nine at [oOf7[0]]
    for [Diff3]; 3, 1, 1 and 2 components in the fields 0 to 3 for [SWICs];
    3 and 6 in the fields 0 and 1 for [SWExplicit], [SWImplicit] and
    [SWJacobian]; 5 and 3 for [ICsDC]; 5 and 15 for [DC]. *)
Theorem kernels_store_within_fields (F : Type) (HA : Arith F) (HL : Libm F) :
  (forall ctx Q iOf7 oOf7 (u : Z -> F) m a,
     in_flat [(oOf7 0, 1)] Q a = false ->
     output (f_build_mass ctx Q iOf7 oOf7 u) m a = m a) /\
  (forall Q iOf7 oOf7 (inp : Z -> F) m a,
     in_flat [(oOf7 0, 1)] Q a = false ->
     output (f_apply_mass Q iOf7 oOf7 inp) m a = m a) /\
  (forall Q iOf7 oOf7 (inp : Z -> F) m a,
     in_flat [(oOf7 0, 3); (oOf7 1, 3)] Q a = false ->
     output (SetupDiff3Rhs Q iOf7 oOf7 inp) m a = m a) /\
  (forall Q iOf7 oOf7 (inp : Z -> F) m a,
     in_flat [(oOf7 0, 9)] Q a = false ->
     output (Diff3 Q iOf7 oOf7 inp) m a = m a) /\
  (forall ctx Q (inp : Z -> Z -> F) m a,
     in_cell [(0, 3); (1, 1); (2, 1); (3, 2)] Q a = false ->
     output (SWICs ctx Q inp) m a = m a) /\
  (forall ctx Q (inp : Z -> Z -> F) m a,
     in_cell [(0, 3); (1, 6)] Q a = false ->
     output (SWExplicit ctx Q inp) m a = m a) /\
  (forall ctx Q (inp : Z -> Z -> F) m a,
     in_cell [(0, 3); (1, 6)] Q a = false ->
     output (SWImplicit ctx Q inp) m a = m a) /\
  (forall ctx Q (inp : Z -> Z -> F) m a,
     in_cell [(0, 3); (1, 6)] Q a = false ->
     output (SWJacobian ctx Q inp) m a = m a) /\
  (forall ctx Q (inp : Z -> Z -> F) m a,
     in_cell [(0, 5); (1, 3)] Q a = false ->
     output (ICsDC ctx Q inp) m a = m a) /\
  (forall ctx Q (inp : Z -> Z -> F) du0 m a,
     in_cell [(0, 5); (1, 15)] Q a = false ->
     output (DC ctx Q inp du0) m a = m a).
Proof.
  repeat match goal with
         | |- _ /\ _ => split
         | |- forall _, _ => intro
         end.
  - apply for_loop_frame_flat with (shape := [(oOf7 0, 1)]); [| assumption].
    intros j; apply f_build_mass_body_point.
  - apply for_loop_frame_flat with (shape := [(oOf7 0, 1)]); [| assumption].
    intros j; apply f_apply_mass_body_point.
  - apply for_loop_frame_flat with (shape := [(oOf7 0, 3); (oOf7 1, 3)]);
      [| assumption].
    intros j; apply SetupDiff3Rhs_body_stores.
  - apply for_loop_frame_flat with (shape := [(oOf7 0, 9)]); [| assumption].
    intros j; apply Diff3_body_point.
  - apply for_loop_frame_cell
      with (shape := [(0, 3); (1, 1); (2, 1); (3, 2)]); [| assumption].
    intros j; apply SWICs_body_point.
  - apply for_loop_frame_cell with (shape := [(0, 3); (1, 6)]);
      [| assumption].
    intros j; apply SWExplicit_body_point.
  - apply for_loop_frame_cell with (shape := [(0, 3); (1, 6)]);
      [| assumption].
    intros j; apply SWImplicit_body_point.
  - apply for_loop_frame_cell with (shape := [(0, 3); (1, 6)]);
      [| assumption].
    intros j; apply SWJacobian_body_point.
  - apply for_loop_frame_cell with (shape := [(0, 5); (1, 3)]);
      [| assumption].
    intros j; apply ICsDC_body_point.
  - apply for_loop_frame_cell with (shape := [(0, 5); (1, 15)]);
      [| assumption].
    intros j; apply DC_body_point.
Qed.

Lemma kernels_store_within_fields_witness :
  in_flat [(Sample.diff_oOf7 0, 3); (Sample.diff_oOf7 1, 3)] 1 6 = false /\
  output (SetupDiff3Rhs 1 Sample.diff_iOf7 Sample.diff_oOf7 Sample.diff_in)
    Sample.diff_out0 6 = Sample.diff_out0 6.
Proof.
  split; [reflexivity |].
  exact (proj1 (proj2 (proj2 (kernels_store_within_fields R R_arith R_libm)))
           1 Sample.diff_iOf7 Sample.diff_oOf7 Sample.diff_in
           Sample.diff_out0 6 eq_refl).
Defined.

(** An element of the two output fields of [DC] holds, after [DC], a value
    that does not depend on the array [DC] has started on. *)
Lemma DC_output_in_fields (F : Type) (HA : Arith F) ctx Q
    (inp : Z -> Z -> F) du0 m1 m2 a :
  in_cell [(0, 5); (1, 15)] Q a = true ->
  output (DC ctx Q inp du0) m1 a = output (DC ctx Q inp du0) m2 a.
Proof.
  destruct a as (f, idx). unfold in_cell. simpl.
  rewrite !orb_true_iff, !andb_true_iff, !Z.eqb_eq, !Z.leb_le, !Z.ltb_lt.
  intros Ha.
  assert (HQ : 0 < Q) by lia.
  pose proof (Z.div_mod idx Q ltac:(lia)) as Hdm.
  pose proof (Z.mod_pos_bound idx Q HQ) as Hi.
  set (i := idx mod Q) in *. set (c := idx / Q) in *.
  assert (Hidx : idx = c * Q + i) by lia.
  destruct Ha as [((-> & H0) & H1) | [((-> & H0) & H1) | Hf]];
    [| | discriminate].
  - assert (Hc : 0 <= c < 5) by nia.
    destruct (DC_v_point F HA ctx Q inp du0 m1 i Hi)
      as (A0 & A1 & A2 & A3 & A4).
    destruct (DC_v_point F HA ctx Q inp du0 m2 i Hi)
      as (B0 & B1 & B2 & B3 & B4).
    cbv zeta in *. unfold cell in *. rewrite Hidx.
    assert (Hc' : c = 0 \/ c = 1 \/ c = 2 \/ c = 3 \/ c = 4) by lia.
    destruct Hc' as [-> | [-> | [-> | [-> | ->]]]]; congruence.
  - assert (Hc : 0 <= c < 15) by nia.
    pose proof (Z.div_mod c 5 ltac:(lia)) as Hdm5.
    pose proof (Z.mod_pos_bound c 5 ltac:(lia)) as Hj.
    assert (Hk : 0 <= c / 5 < 3).
    { split; [apply Z.div_pos; lia | apply Z.div_lt_upper_bound; lia]. }
    rewrite Hidx. change (1, c * Q + i) with (cell 1 (c * Q + i)).
    replace c with (c / 5 * 5 + c mod 5) by lia.
    rewrite !(DC_dv_point F HA ctx Q inp du0 _ i _ _ Hi Hk Hj).
    reflexivity.
Qed.

(** X2.  Each of the eight kernels that read neither the output array nor
    an unassigned local ([f_build_mass], [f_apply_mass], [Diff3], [SWICs],
    [SWExplicit], [SWImplicit], [SWJacobian], [ICsDC]) is idempotent: run
    a second time with the same arguments on the output array that its
    first run has left, it leaves every element of the array as it was.
    [DC] reads its unassigned local [du]: its second run leaves what a
    first run that finds the same values in [du] would have left,
    whatever the run before has found in [du] and stored. *)
Theorem kernels_idempotent (F : Type) (HA : Arith F) (HL : Libm F) :
  (forall ctx Q iOf7 oOf7 (u : Z -> F) m a,
     let K := f_build_mass ctx Q iOf7 oOf7 u in
     output K (output K m) a = output K m a) /\
  (forall Q iOf7 oOf7 (inp : Z -> F) m a,
     let K := f_apply_mass Q iOf7 oOf7 inp in
     output K (output K m) a = output K m a) /\
  (forall Q iOf7 oOf7 (inp : Z -> F) m a,
     let K := Diff3 Q iOf7 oOf7 inp in
     output K (output K m) a = output K m a) /\
  (forall ctx Q (inp : Z -> Z -> F) m a,
     let K := SWICs ctx Q inp in
     output K (output K m) a = output K m a) /\
  (forall ctx Q (inp : Z -> Z -> F) m a,
     let K := SWExplicit ctx Q inp in
     output K (output K m) a = output K m a) /\
  (forall ctx Q (inp : Z -> Z -> F) m a,
     let K := SWImplicit ctx Q inp in
     output K (output K m) a = output K m a) /\
  (forall ctx Q (inp : Z -> Z -> F) m a,
     let K := SWJacobian ctx Q inp in
     output K (output K m) a = output K m a) /\
  (forall ctx Q (inp : Z -> Z -> F) m a,
     let K := ICsDC ctx Q inp in
     output K (output K m) a = output K m a) /\
  (forall ctx Q (inp : Z -> Z -> F) du1 du2 m a,
     output (DC ctx Q inp du2) (output (DC ctx Q inp du1) m) a
     = output (DC ctx Q inp du2) m a).
Proof.
  repeat match goal with
         | |- _ /\ _ => split
         | |- forall _, _ => intro
         end.
  - eapply for_loop_idempotent, point_write_only_local,
      f_build_mass_body_point.
  - eapply for_loop_idempotent, point_write_only_local,
      f_apply_mass_body_point.
  - eapply for_loop_idempotent, point_write_only_local, Diff3_body_point.
  - eapply for_loop_idempotent, point_write_only_local, SWICs_body_point.
  - eapply for_loop_idempotent, point_write_only_local,
      SWExplicit_body_point.
  - eapply for_loop_idempotent, point_write_only_local,
      SWImplicit_body_point.
  - eapply for_loop_idempotent, point_write_only_local,
      SWJacobian_body_point.
  - eapply for_loop_idempotent, point_write_only_local, ICsDC_body_point.
  - destruct (in_cell [(0, 5); (1, 15)] Q a) eqn:Ea.
    + apply DC_output_in_fields. exact Ea.
    + unfold DC.
      rewrite !(for_loop_frame_cell [(0, 5); (1, 15)] _ _ Q _ a); auto;
        intros j; apply DC_body_point.
Qed.

(** [DC] is not idempotent when the two runs find different values in
    [du]: at the point at rest, a run that finds zeros, after a run that
    has found ones, changes [dv[0][1]] from -0.5 to 1. *)
Lemma DC_second_run_differs :
  let K := fun du0 => DC Sample.dc_ctx 1 Sample.dc_rest du0 in
  let first := output (K Sample.du_ones) Sample.zeros2 in
  first (cell 1 1) = (-0.5)%float /\
  output (K Sample.du_zeros) first (cell 1 1) = 1%float.
Proof. vm_compute. split; reflexivity. Qed.

(** X3.  In the eight kernels that read neither the output array nor an
    unassigned local ([f_build_mass], [f_apply_mass], [Diff3], [SWICs],
    [SWExplicit], [SWImplicit], [SWJacobian], [ICsDC]) the iterations are
    independent: run in any order [l] of the indices [0 .. Q-1], as the
    tiles of an OKL loop or the lanes of a SIMD loop may run them, they
    leave every element of the output as the loop in increasing order
    does.  Nothing is said of [SetupDiff3Rhs], which loads from the
    output, and of [DC], where what an iteration finds in [du] may be
    what another has left there. *)
Theorem kernels_any_order (F : Type) (HA : Arith F) (HL : Libm F) Q l :
  Permutation l (range (Z.to_nat Q) 0) ->
  (forall ctx iOf7 oOf7 (u : Z -> F) m a,
     output (for_list l (f_build_mass_body ctx Q iOf7 oOf7 u)) m a
     = output (f_build_mass ctx Q iOf7 oOf7 u) m a) /\
  (forall iOf7 oOf7 (inp : Z -> F) m a,
     output (for_list l (f_apply_mass_body Q iOf7 oOf7 inp)) m a
     = output (f_apply_mass Q iOf7 oOf7 inp) m a) /\
  (forall iOf7 oOf7 (inp : Z -> F) m a,
     output (for_list l (Diff3_body Q iOf7 oOf7 inp)) m a
     = output (Diff3 Q iOf7 oOf7 inp) m a) /\
  (forall ctx (inp : Z -> Z -> F) m a,
     output (for_list l (SWICs_body ctx Q inp)) m a
     = output (SWICs ctx Q inp) m a) /\
  (forall ctx (inp : Z -> Z -> F) m a,
     output (for_list l (SWExplicit_body ctx Q inp)) m a
     = output (SWExplicit ctx Q inp) m a) /\
  (forall ctx (inp : Z -> Z -> F) m a,
     output (for_list l (SWImplicit_body ctx Q inp)) m a
     = output (SWImplicit ctx Q inp) m a) /\
  (forall ctx (inp : Z -> Z -> F) m a,
     output (for_list l (SWJacobian_body ctx Q inp)) m a
     = output (SWJacobian ctx Q inp) m a) /\
  (forall ctx (inp : Z -> Z -> F) m a,
     output (for_list l (ICsDC_body ctx Q inp)) m a
     = output (ICsDC ctx Q inp) m a).
Proof.
  intros Hp.
  repeat match goal with
         | |- _ /\ _ => split
         | |- forall _, _ => intro
         end.
  - apply (for_loop_any_order (point_cell flat [(oOf7 0, 1)] Q)); auto.
    + apply point_write_only_local, f_build_mass_body_point.
    + intros j j' b; apply point_cell_disjoint_flat.
  - apply (for_loop_any_order (point_cell flat [(oOf7 0, 1)] Q)); auto.
    + apply point_write_only_local, f_apply_mass_body_point.
    + intros j j' b; apply point_cell_disjoint_flat.
  - apply (for_loop_any_order (point_cell flat [(oOf7 0, 9)] Q)); auto.
    + apply point_write_only_local, Diff3_body_point.
    + intros j j' b; apply point_cell_disjoint_flat.
  - apply (for_loop_any_order
             (point_cell cell [(0, 3); (1, 1); (2, 1); (3, 2)] Q)); auto.
    + apply point_write_only_local, SWICs_body_point.
    + intros j j' b; apply point_cell_disjoint_cell.
  - apply (for_loop_any_order (point_cell cell [(0, 3); (1, 6)] Q)); auto.
    + apply point_write_only_local, SWExplicit_body_point.
    + intros j j' b; apply point_cell_disjoint_cell.
  - apply (for_loop_any_order (point_cell cell [(0, 3); (1, 6)] Q)); auto.
    + apply point_write_only_local, SWImplicit_body_point.
    + intros j j' b; apply point_cell_disjoint_cell.
  - apply (for_loop_any_order (point_cell cell [(0, 3); (1, 6)] Q)); auto.
    + apply point_write_only_local, SWJacobian_body_point.
    + intros j j' b; apply point_cell_disjoint_cell.
  - apply (for_loop_any_order (point_cell cell [(0, 5); (1, 3)] Q)); auto.
    + apply point_write_only_local, ICsDC_body_point.
    + intros j j' b; apply point_cell_disjoint_cell.
Qed.

Lemma kernels_any_order_witness :
  Permutation [1; 0] (range (Z.to_nat 2) 0) /\
  output (for_list [1; 0]
            (Diff3_body 2 Sample.diff_iOf7 Sample.diff_oOf7 Sample.diff_in))
    Sample.diff_out0 1
  = output (Diff3 2 Sample.diff_iOf7 Sample.diff_oOf7 Sample.diff_in)
      Sample.diff_out0 1.
Proof.
  split; [apply perm_swap |].
  exact (proj1 (proj2 (proj2 (kernels_any_order R R_arith R_libm 2 [1; 0]
                                (perm_swap 0 1 []))))
           Sample.diff_iOf7 Sample.diff_oOf7 Sample.diff_in
           Sample.diff_out0 1).
Defined.

(** ** [f_build_mass], [Diff3] and [SetupDiff3Rhs] in detail *)

(** X4.  In real arithmetic, the value that [f_build_mass] stores with the
    tag 22 or 33 does not change when the Jacobian is transposed: whether
    the entries of the [n] x [n] Jacobian are read by rows or by columns,
    the quadrature datum is the same. *)
Theorem f_build_mass_transpose ctx Q iOf7 oOf7 (u u' : Z -> R) m m' i n :
  0 <= i < Q ->
  n = 2 \/ n = 3 ->
  f_build_mass_dims ctx = 11 * n ->
  (forall k, 0 <= k < n * n ->
     u' (iOf7 0 + i + Q * k) = u (iOf7 0 + i + Q * transpose_index n k)) ->
  u' (iOf7 1 + i) = u (iOf7 1 + i) ->
  output (f_build_mass ctx Q iOf7 oOf7 u') m' (oOf7 0 + i)
  = output (f_build_mass ctx Q iOf7 oOf7 u) m (oOf7 0 + i).
Proof.
  intros Hi Hn Hd HT Hw.
  destruct (f_build_mass_point R R_arith ctx Q iOf7 oOf7 u m i Hi)
    as (_ & H22 & H33).
  destruct (f_build_mass_point R R_arith ctx Q iOf7 oOf7 u' m' i Hi)
    as (_ & H22' & H33').
  cbv zeta in H22, H33, H22', H33'.
  destruct Hn as [-> | ->].
  - rewrite (H22 Hd), (H22' Hd), Hw, !HT by lia.
    unfold spec_det2, transpose_index.
    change (0 mod 2 * 2 + 0 / 2) with 0. change (1 mod 2 * 2 + 1 / 2) with 2.
    change (2 mod 2 * 2 + 2 / 2) with 1. change (3 mod 2 * 2 + 3 / 2) with 3.
    simpl. ring.
  - rewrite (H33 Hd), (H33' Hd), Hw, !HT by lia.
    unfold spec_det3, transpose_index.
    change (0 mod 3 * 3 + 0 / 3) with 0. change (1 mod 3 * 3 + 1 / 3) with 3.
    change (2 mod 3 * 3 + 2 / 3) with 6. change (3 mod 3 * 3 + 3 / 3) with 1.
    change (4 mod 3 * 3 + 4 / 3) with 4. change (5 mod 3 * 3 + 5 / 3) with 7.
    change (6 mod 3 * 3 + 6 / 3) with 2. change (7 mod 3 * 3 + 7 / 3) with 5.
    change (8 mod 3 * 3 + 8 / 3) with 8.
    simpl. ring.
Qed.

Lemma f_build_mass_transpose_witness :
  0 <= 0 < 1 /\
  output (f_build_mass Sample.build_ctx 1 Sample.build_iOf7 Sample.mass_oOf7
            SampleR.jac_ut) (fun _ => 0%R) 0
  = output (f_build_mass Sample.build_ctx 1 Sample.build_iOf7
              Sample.mass_oOf7 SampleR.jac_u) (fun _ => 1%R) 0.
Proof.
  split; [lia |].
  exact (f_build_mass_transpose Sample.build_ctx 1 Sample.build_iOf7
           Sample.mass_oOf7 SampleR.jac_u SampleR.jac_ut (fun _ => 1%R)
           (fun _ => 0%R) 0 3 ltac:(lia) ltac:(right; reflexivity) eq_refl
           ltac:(intros k Hk;
                 assert (E : k = 0 \/ k = 1 \/ k = 2 \/ k = 3 \/ k = 4 \/
                             k = 5 \/ k = 6 \/ k = 7 \/ k = 8) by lia;
                 repeat (destruct E as [-> | E]; [reflexivity |]);
                 subst k; reflexivity)
           eq_refl).
Defined.

(** Component 0 of the two output fields of [SetupDiff3Rhs]. *)
Lemma SetupDiff3Rhs_comp0 (F : Type) (HA : Arith F) (HL : Libm F)
    Q iOf7 oOf7 (inp : Z -> F) m i :
  0 <= i < Q ->
  oOf7 0 + 3 * Q <= oOf7 1 \/ oOf7 1 + 3 * Q <= oOf7 0 ->
  let out := output (SetupDiff3Rhs Q iOf7 oOf7 inp) m in
  let c := (vec3 #0 #1 #2)%sc in
  let k := (vec3 #1 #2 #3)%sc in
  out (oOf7 0 + i + 0*Q) = SetupDiff3Rhs_target Q iOf7 inp i /\
  out (oOf7 1 + i + 0*Q)
  = (SetupDiff3Rhs_rho Q iOf7 inp i * M_PI * M_PI *
     (k.[0] * k.[0] + k.[1] * k.[1] + k.[2] * k.[2]) *
     fsin (M_PI * (c.[0] + k.[0] * inp.[iOf7 0 + 0*Q + i])) *
     fsin (M_PI * (c.[1] + k.[1] * inp.[iOf7 0 + 1*Q + i])) *
     fsin (M_PI * (c.[2] + k.[2] * inp.[iOf7 0 + 2*Q + i])))%sc.
Proof.
  intros Hi Ho out c k. subst out. unfold SetupDiff3Rhs.
  destruct (output_for_loop_point
              (point_cell flat [(oOf7 0, 3); (oOf7 1, 3)] Q)
              (SetupDiff3Rhs_body Q iOf7 oOf7 inp) RVoid Q m i
              (oOf7 0 + i + 0*Q))
    as (m0 & -> & _).
  { intros j; apply SetupDiff3Rhs_body_stores. }
  { intros j j' b; apply point_cell_disjoint_flat2; assumption. }
  { assumption. }
  { solve_cell. }
  destruct (output_for_loop_point
              (point_cell flat [(oOf7 0, 3); (oOf7 1, 3)] Q)
              (SetupDiff3Rhs_body Q iOf7 oOf7 inp) RVoid Q m i
              (oOf7 1 + i + 0*Q))
    as (m1 & -> & _).
  { intros j; apply SetupDiff3Rhs_body_stores. }
  { intros j j' b; apply point_cell_disjoint_flat2; assumption. }
  { assumption. }
  { solve_cell. }
  unfold SetupDiff3Rhs_body. run_body. split; reflexivity.
Qed.

(** The three sines of the target, in real arithmetic. *)
Lemma SetupDiff3Rhs_target_R Q iOf7 (inp : Z -> R) i :
  SetupDiff3Rhs_target Q iOf7 inp i
  = (sin (PI * (0 + 1 * inp.[iOf7 0 + 0*Q + i])) *
     sin (PI * (1 + 2 * inp.[iOf7 0 + 1*Q + i])) *
     sin (PI * (2 + 3 * inp.[iOf7 0 + 2*Q + i])))%R.
Proof. reflexivity. Qed.


Lemma Rabs_sin_le_1 x : (Rabs (sin x) <= 1)%R.
Proof. apply Rabs_le. destruct (SIN_bound x). split; lra. Qed.

Lemma Rmult3_le_1 (a b c : R) :
  (0 <= a <= 1 -> 0 <= b <= 1 -> 0 <= c <= 1 -> a * b * c <= 1)%R.
Proof.
  intros Ha Hb Hc. assert (0 <= a * b <= 1)%R by nra. nra.
Qed.

(** X5.  The forcing of [SetupDiff3Rhs] is weighted by the quadrature
    datum of [f_build_mass].  In real arithmetic, for the same 3x3
    Jacobian and the same weight at the point, component 0 of the forcing
    is [14 pi^2] times the value that [f_build_mass] stores with the tag
    33 times component 0 of the target: the two kernels expand the
    determinant differently and agree. *)
Theorem SetupDiff3Rhs_forcing_build_mass ctx Q iOfB oOfB (u : Z -> R) mB
    iOf7 oOf7 (inp : Z -> R) m i :
  0 <= i < Q ->
  oOf7 0 + 3 * Q <= oOf7 1 \/ oOf7 1 + 3 * Q <= oOf7 0 ->
  f_build_mass_dims ctx = 33 ->
  (forall k, 0 <= k < 9 ->
     u (iOfB 0 + i + Q * k) = inp (iOf7 1 + i + Q * k)) ->
  u (iOfB 1 + i) = inp (iOf7 2 + i) ->
  let qd := output (f_build_mass ctx Q iOfB oOfB u) mB (oOfB 0 + i) in
  let out := output (SetupDiff3Rhs Q iOf7 oOf7 inp) m in
  out (oOf7 1 + i + 0*Q) = (14 * PI^2 * qd * out.[oOf7 0 + i + 0*Q])%R.
Proof.
  intros Hi Ho Hd HJ Hw qd out.
  destruct (f_build_mass_point R R_arith ctx Q iOfB oOfB u mB i Hi)
    as (_ & _ & H33).
  destruct (SetupDiff3Rhs_comp0 R R_arith R_libm Q iOf7 oOf7 inp m i Hi Ho)
    as (E0 & E1).
  cbv zeta in H33, E0, E1. subst qd out.
  rewrite (H33 Hd), E0, E1, Hw, !HJ by lia.
  rewrite SetupDiff3Rhs_target_R.
  unfold SetupDiff3Rhs_rho, spec_det3.
  cbn [vec3 Z.eqb fsin M_PI fmul fadd fsub fofZ R_arith R_libm Pos.eqb].
  ring.
Qed.

Lemma SetupDiff3Rhs_forcing_build_mass_witness :
  0 <= 0 < 1 /\
  output (SetupDiff3Rhs 1 Sample.diff_iOf7 Sample.diff_oOf7 Sample.diff_in)
    Sample.diff_out0 3
  = (14 * PI^2 *
     output (f_build_mass Sample.build_ctx 1 SampleR.jw_iOf7 Sample.mass_oOf7
               Sample.diff_in) Sample.diff_out0 0%Z *
     output (SetupDiff3Rhs 1 Sample.diff_iOf7 Sample.diff_oOf7 Sample.diff_in)
       Sample.diff_out0 0%Z)%R.
Proof.
  split; [lia |].
  exact (SetupDiff3Rhs_forcing_build_mass Sample.build_ctx 1 SampleR.jw_iOf7
           Sample.mass_oOf7 Sample.diff_in Sample.diff_out0
           Sample.diff_iOf7 Sample.diff_oOf7 Sample.diff_in Sample.diff_out0
           0 ltac:(lia) ltac:(left; vm_compute; discriminate) eq_refl
           ltac:(intros k Hk; reflexivity) eq_refl).
Defined.

(** X6.  [Diff3] applies the symmetric 3x3 tensor of input field 1, packed
    in six components as (0 1 2; 1 3 4; 2 4 5), to the gradient: for every
    point [0 <= i < Q] and [0 <= c, r < 3], the output component [c + 3*r]
    is the row [r] of the tensor times the components [c], [c + 3] and
    [c + 6] of input field 0, summed from left to right, in every scalar
    arithmetic. *)
Theorem Diff3_point (F : Type) (HA : Arith F) Q iOf7 oOf7 (inp : Z -> F)
    m i c r :
  0 <= i < Q -> 0 <= c < 3 -> 0 <= r < 3 ->
  let ug := fun s => inp (iOf7 0 + i + Q * (c + s * 3)) in
  let S := fun s => inp (iOf7 1 + i + Q * Diff3_sym r s) in
  output (Diff3 Q iOf7 oOf7 inp) m (oOf7 0 + i + Q * (c + r * 3))
  = (S 0 * ug 0 + S 1 * ug 1 + S 2 * ug 2)%sc.
Proof.
  intros Hi Hc Hr ug S. subst ug S. unfold Diff3.
  destruct (output_for_loop_point (point_cell flat [(oOf7 0, 9)] Q)
              (Diff3_body Q iOf7 oOf7 inp) RVoid Q m i
              (oOf7 0 + i + Q * (c + r * 3)))
    as (m' & -> & _).
  - intros j; apply Diff3_body_point.
  - intros j j' b; apply point_cell_disjoint_flat.
  - assumption.
  - exists (oOf7 0), 9, (c + r * 3).
    split; [simpl; tauto | split; [lia | unfold flat; lia]].
  - unfold Diff3_body, Diff3_row.
    assert (Hc' : c = 0 \/ c = 1 \/ c = 2) by lia.
    assert (Hr' : r = 0 \/ r = 1 \/ r = 2) by lia.
    destruct Hc' as [-> | [-> | ->]]; destruct Hr' as [-> | [-> | ->]];
      run_body; reflexivity.
Qed.

Lemma Diff3_point_witness :
  0 <= 0 < 1 /\
  output (Diff3 1 Sample.build_iOf7 Sample.mass_oOf7 Sample.build_u)
    Sample.zeros 0
  = 1%float.
Proof.
  split; [lia |].
  exact (Diff3_point float float_arith 1 Sample.build_iOf7 Sample.mass_oOf7
           Sample.build_u Sample.zeros 0 0 0 ltac:(lia) ltac:(lia)
           ltac:(lia)).
Defined.

(** The nine entries of a point of [Diff3], in real arithmetic. *)
Lemma Diff3_entries Q iOf7 oOf7 (inp : Z -> R) m i :
  0 <= i < Q ->
  forall c r, In (c, r) (list_prod [0; 1; 2] [0; 1; 2]) ->
  output (Diff3 Q iOf7 oOf7 inp) m (oOf7 0 + i + Q * (c + r * 3))
  = (inp.[iOf7 1 + i + Q * Diff3_sym r 0] * inp.[iOf7 0 + i + Q * (c + 0 * 3)] +
     inp.[iOf7 1 + i + Q * Diff3_sym r 1] * inp.[iOf7 0 + i + Q * (c + 1 * 3)] +
     inp.[iOf7 1 + i + Q * Diff3_sym r 2] * inp.[iOf7 0 + i + Q * (c + 2 * 3)])%R.
Proof.
  intros Hi c r Hin. unfold Diff3.
  assert (Hc : 0 <= c < 3 /\ 0 <= r < 3).
  { simpl in Hin.
    repeat (destruct Hin as [[= <- <-] | Hin]; [lia |]). contradiction. }
  destruct (output_for_loop_point (point_cell flat [(oOf7 0, 9)] Q)
              (Diff3_body Q iOf7 oOf7 inp) RVoid Q m i
              (oOf7 0 + i + Q * (c + r * 3)))
    as (m' & -> & _).
  - intros j; apply Diff3_body_point.
  - intros j j' b; apply point_cell_disjoint_flat.
  - assumption.
  - exists (oOf7 0), 9, (c + r * 3).
    split; [simpl; tauto | split; [lia | unfold flat; lia]].
  - unfold Diff3_body, Diff3_row. simpl in Hin.
    repeat (destruct Hin as [[= <- <-] | Hin];
            [run_body; reflexivity |]).
    contradiction.
Qed.

(** X7.  [Diff3] is symmetric at every point.  In real arithmetic, for two
    gradients [u] and [v] at the point [i] and the same tensor, the output
    for [u] paired with [v], summed over the nine components, is the
    output for [v] paired with [u]. *)
Theorem Diff3_symmetric Q iOf7 oOf7 (inpu inpv : Z -> R) mu mv i :
  0 <= i < Q ->
  (forall k, 0 <= k < 6 ->
     inpu (iOf7 1 + i + Q * k) = inpv (iOf7 1 + i + Q * k)) ->
  let u := fun c r => inpu (iOf7 0 + i + Q * (c + r * 3)) in
  let v := fun c r => inpv (iOf7 0 + i + Q * (c + r * 3)) in
  let Au := fun c r =>
    output (Diff3 Q iOf7 oOf7 inpu) mu (oOf7 0 + i + Q * (c + r * 3)) in
  let Av := fun c r =>
    output (Diff3 Q iOf7 oOf7 inpv) mv (oOf7 0 + i + Q * (c + r * 3)) in
  sum9 (fun c r => Au c r * v c r)%R = sum9 (fun c r => Av c r * u c r)%R.
Proof.
  intros Hi HS u v Au Av. subst u v Au Av. unfold sum9.
  cbn [list_prod map app fold_right fst snd].
  rewrite !(Diff3_entries Q iOf7 oOf7 inpu mu i Hi) by (simpl; tauto).
  rewrite !(Diff3_entries Q iOf7 oOf7 inpv mv i Hi) by (simpl; tauto).
  unfold Diff3_sym. cbn [vec3 Z.eqb Pos.eqb].
  rewrite !HS by lia. ring.
Qed.

Lemma Diff3_symmetric_witness :
  0 <= 0 < 1 /\
  let Au :=
    output (Diff3 1 SampleR.grad_iOf7 SampleR.grad_oOf7 SampleR.grad_u)
      (fun _ => 0%R) in
  let Av :=
    output (Diff3 1 SampleR.grad_iOf7 SampleR.grad_oOf7 SampleR.grad_v)
      (fun _ => 1%R) in
  sum9 (fun c r => Au.[0 + 0 + 1 * (c + r * 3)] *
                   SampleR.grad_v.[0 + 0 + 1 * (c + r * 3)])%R
  = sum9 (fun c r => Av.[0 + 0 + 1 * (c + r * 3)] *
                     SampleR.grad_u.[0 + 0 + 1 * (c + r * 3)])%R.
Proof.
  split; [lia |].
  exact (Diff3_symmetric 1 SampleR.grad_iOf7 SampleR.grad_oOf7
           SampleR.grad_u SampleR.grad_v (fun _ => 0%R) (fun _ => 1%R) 0
           ltac:(lia)
           ltac:(intros k Hk; unfold SampleR.grad_v;
                 destruct (Z.ltb_spec (SampleR.grad_iOf7 1 + 0 + 1 * k) 9)
                   as [Hlt | _];
                 [exfalso; revert Hlt;
                  change (SampleR.grad_iOf7 1) with 9; lia
                 | reflexivity])).
Defined.

(** X8.  The components 1 and 2 that [SetupDiff3Rhs] stores are copies of
    what the output array held before the call.  With the target and the
    forcing field not overlapping, and [oOf7[2] + i] outside both, the
    components 1 and 2 of the target hold what component 0 of the forcing
    held, and the components 1 and 2 of the forcing hold what the element
    [oOf7[2] + i] held, in every scalar arithmetic: they do not depend on
    the input. *)
Theorem SetupDiff3Rhs_copies (F : Type) (HA : Arith F) (HL : Libm F)
    Q iOf7 oOf7 (inp : Z -> F) m i :
  0 <= i < Q ->
  oOf7 0 + 3 * Q <= oOf7 1 \/ oOf7 1 + 3 * Q <= oOf7 0 ->
  in_flat [(oOf7 0, 3); (oOf7 1, 3)] Q (oOf7 2 + i) = false ->
  let out := output (SetupDiff3Rhs Q iOf7 oOf7 inp) m in
  out (oOf7 0 + i + 1*Q) = m (oOf7 1 + i + 0*Q) /\
  out (oOf7 0 + i + 2*Q) = m (oOf7 1 + i + 0*Q) /\
  out (oOf7 1 + i + 1*Q) = m (oOf7 2 + i + 0*Q) /\
  out (oOf7 1 + i + 2*Q) = m (oOf7 2 + i + 0*Q).
Proof.
  intros Hi Ho H2 out. subst out. unfold SetupDiff3Rhs.
  apply in_flat_false2 in H2. destruct H2 as [H20 H21].
  assert (Hpt : forall a,
            point_cell flat [(oOf7 0, 3); (oOf7 1, 3)] Q i a ->
            exists m0,
              output (for_loop Q (SetupDiff3Rhs_body Q iOf7 oOf7 inp) ;;
                      Ret RVoid) m a
              = output (SetupDiff3Rhs_body Q iOf7 oOf7 inp i) m0 a /\
              m0 (oOf7 1 + i + 0*Q) = m (oOf7 1 + i + 0*Q) /\
              m0 (oOf7 2 + i + 0*Q) = m (oOf7 2 + i + 0*Q)).
  { intros a Ha.
    destruct (output_for_loop_point
                (point_cell flat [(oOf7 0, 3); (oOf7 1, 3)] Q)
                (SetupDiff3Rhs_body Q iOf7 oOf7 inp) RVoid Q m i a)
      as (m0 & E & Hm0); auto.
    { intros j; apply SetupDiff3Rhs_body_stores. }
    { intros j j' b; apply point_cell_disjoint_flat2; assumption. }
    exists m0. split; [exact E |].
    split; apply Hm0; intros j Hj (f & n & c & Hin & Hc & E');
      unfold flat in E'; simpl in Hin;
      destruct Hin as [[= <- <-]|[[= <- <-]|[]]];
      assert (0 <= c * Q <= 2 * Q) by nia; try lia;
      assert (c = 0) by nia; lia. }
  assert (Hrun : forall m0,
            m0 (oOf7 1 + i + 0*Q) = m (oOf7 1 + i + 0*Q) ->
            m0 (oOf7 2 + i + 0*Q) = m (oOf7 2 + i + 0*Q) ->
            exists M,
              output (SetupDiff3Rhs_body Q iOf7 oOf7 inp i) m0 = M /\
              M (oOf7 0 + i + 1*Q) = m (oOf7 1 + i + 0*Q) /\
              M (oOf7 0 + i + 2*Q) = m (oOf7 1 + i + 0*Q) /\
              M (oOf7 1 + i + 1*Q) = m (oOf7 2 + i + 0*Q) /\
              M (oOf7 1 + i + 2*Q) = m (oOf7 2 + i + 0*Q)).
  { intros m0 E1 E2. eexists. split.
    - unfold SetupDiff3Rhs_body. norm_prog.
      rewrite output_Store.
      rewrite (output_Load _ _ _ (m (oOf7 1 + i + 0*Q)))
        by (eapply eq_trans; [resolve | exact E1]).
      rewrite output_Store.
      rewrite (output_Load _ _ _ (m (oOf7 1 + i + 0*Q)))
        by (eapply eq_trans; [resolve | exact E1]).
      rewrite output_Store. rewrite output_Store.
      rewrite (output_Load _ _ _ (m (oOf7 2 + i + 0*Q)))
        by (eapply eq_trans; [resolve | exact E2]).
      rewrite output_Store.
      rewrite (output_Load _ _ _ (m (oOf7 2 + i + 0*Q)))
        by (eapply eq_trans; [resolve | exact E2]).
      rewrite output_Store. rewrite output_Ret. reflexivity.
    - repeat split; (eapply eq_trans; [resolve | reflexivity]). }
  repeat split.
  all: match goal with
       | |- output _ _ ?a = _ =>
           destruct (Hpt a ltac:(solve_cell)) as (m0 & -> & E1 & E2);
           destruct (Hrun m0 E1 E2) as (M & -> & H0 & H1 & H3 & H4)
       end; assumption.
Qed.

Lemma SetupDiff3Rhs_copies_witness :
  0 <= 0 < 1 /\
  output (SetupDiff3Rhs 1 Sample.diff_iOf7 Sample.diff_oOf7 Sample.diff_in)
    Sample.diff_out0 4
  = Sample.diff_out0 6.
Proof.
  split; [lia |].
  exact (proj1 (proj2 (proj2
           (SetupDiff3Rhs_copies R R_arith R_libm 1 Sample.diff_iOf7
              Sample.diff_oOf7 Sample.diff_in Sample.diff_out0 0
              ltac:(lia) ltac:(left; vm_compute; discriminate) eq_refl)))).
Defined.

(** X9.  The manufactured solution of [SetupDiff3Rhs], at every point.  In
    real arithmetic, with the two output fields not overlapping,
    component 0 of the target is [sin(pi x) sin(pi (1 + 2y))
    sin(pi (2 + 3z))] for the coordinates (x, y, z) of the point, and
    component 0 of the forcing is [14 pi^2 rho] times it, [rho] the weight
    times the determinant of the Jacobian. *)
Theorem SetupDiff3Rhs_forcing Q iOf7 oOf7 (inp : Z -> R) m i :
  0 <= i < Q ->
  oOf7 0 + 3 * Q <= oOf7 1 \/ oOf7 1 + 3 * Q <= oOf7 0 ->
  let out := output (SetupDiff3Rhs Q iOf7 oOf7 inp) m in
  let J := fun k => inp (iOf7 1 + i + Q * k) in
  let rho :=
    (inp.[iOf7 2 + i] *
     spec_det3 J.[0] J.[3] J.[6] J.[1] J.[4] J.[7] J.[2] J.[5] J.[8])%R in
  out (oOf7 0 + i + 0*Q)
  = (sin (PI * inp.[iOf7 0 + 0*Q + i]) *
     sin (PI * (1 + 2 * inp.[iOf7 0 + 1*Q + i])) *
     sin (PI * (2 + 3 * inp.[iOf7 0 + 2*Q + i])))%R /\
  out (oOf7 1 + i + 0*Q)
  = (14 * PI^2 * rho * out.[oOf7 0 + i + 0*Q])%R.
Proof.
  intros Hi Ho out J rho.
  destruct (SetupDiff3Rhs_comp0 R R_arith R_libm Q iOf7 oOf7 inp m i Hi Ho)
    as (E0 & E1).
  cbv zeta in E0, E1. subst out. rewrite E0, E1.
  rewrite SetupDiff3Rhs_target_R.
  subst rho J. unfold SetupDiff3Rhs_rho, spec_det3.
  cbn [vec3 Z.eqb fsin M_PI fmul fadd fsub fofZ R_arith R_libm Pos.eqb].
  split.
  - replace (0 + 1 * inp.[iOf7 0 + 0 * Q + i])%R
      with (inp.[iOf7 0 + 0 * Q + i]) by ring.
    reflexivity.
  - ring.
Qed.

Lemma SetupDiff3Rhs_forcing_witness :
  0 <= 0 < 1 /\
  output (SetupDiff3Rhs 1 Sample.diff_iOf7 Sample.diff_oOf7 Sample.diff_in)
    Sample.diff_out0 0%Z
  = (sin (PI * Sample.diff_in 0%Z) * sin (PI * (1 + 2 * Sample.diff_in 1%Z)) *
     sin (PI * (2 + 3 * Sample.diff_in 2%Z)))%R.
Proof.
  split; [lia |].
  exact (proj1 (SetupDiff3Rhs_forcing 1 Sample.diff_iOf7 Sample.diff_oOf7
                  Sample.diff_in Sample.diff_out0 0 ltac:(lia)
                  ltac:(left; vm_compute; discriminate))).
Defined.

(** X10.  In real arithmetic, component 0 of the target of
    [SetupDiff3Rhs] lies between -1 and 1 at every point, whatever the
    coordinates. *)
Theorem SetupDiff3Rhs_target_bounded Q iOf7 oOf7 (inp : Z -> R) m i :
  0 <= i < Q ->
  oOf7 0 + 3 * Q <= oOf7 1 \/ oOf7 1 + 3 * Q <= oOf7 0 ->
  let out := output (SetupDiff3Rhs Q iOf7 oOf7 inp) m in
  (Rabs out.[oOf7 0 + i + 0*Q] <= 1)%R.
Proof.
  intros Hi Ho out.
  destruct (SetupDiff3Rhs_comp0 R R_arith R_libm Q iOf7 oOf7 inp m i Hi Ho)
    as (E0 & _).
  cbv zeta in E0. subst out.
  rewrite E0, SetupDiff3Rhs_target_R, !Rabs_mult.
  apply Rmult3_le_1; (split; [apply Rabs_pos | apply Rabs_sin_le_1]).
Qed.

Lemma SetupDiff3Rhs_target_bounded_witness :
  0 <= 0 < 1 /\
  (Rabs (output (SetupDiff3Rhs 1 Sample.diff_iOf7 Sample.diff_oOf7
                   Sample.diff_in) Sample.diff_out0 0%Z) <= 1)%R.
Proof.
  split; [lia |].
  exact (SetupDiff3Rhs_target_bounded 1 Sample.diff_iOf7 Sample.diff_oOf7
           Sample.diff_in Sample.diff_out0 0 ltac:(lia)
           ltac:(left; vm_compute; discriminate)).
Defined.

(** ** [SetupDiff3Rhs] on binary64

    The target and the forcing as the doubles that the code computes, in
    the standard model of floating-point arithmetic: an operation returns
    its exact result rounded, with a relative error of at most [2^-53] and
    an absolute error of at most [2^-1075]; [M_PI] is the double nearest to
    pi; [sin] errs by at most [2^-52]. *)

Section RoundingFacts.
Local Open Scope R_scope.

(** Eighteen digits of pi, from the alternating series of the arctangents
    in [PI_2_3_7]. *)
Lemma PI_18_digits :
  3141592653589793238 / 1000000000000000000 < PI
  < 3141592653589793239 / 1000000000000000000.
Proof.
  generalize (PI_2_3_7_ineq 9).
  unfold sum_f_R0, tg_alt, PI_2_3_7_tg, Ratan_seq.
  cbn [Nat.mul Nat.add pow INR].
  lra.
Qed.

(** The double nearest to pi is within [1.3e-16] of it. *)
Lemma pi_double_close : Rabs (pi_double - PI) <= 13 / 10 ^ 17.
Proof.
  pose proof PI_18_digits. unfold pi_double.
  apply Rabs_le. simpl. lra.
Qed.

(** *** The constants of binary64 *)

Lemma u64_val : u64 = / 9007199254740992.
Proof. unfold u64. f_equal. simpl. lra. Qed.

(** [10^3 <= 2^10], to every power. *)
Lemma pow2_ge_pow10 (n : nat) : 10 ^ (3 * n) <= 2 ^ (10 * n).
Proof.
  rewrite !pow_mult. apply pow_incr. simpl. lra.
Qed.

Lemma eta64_small : 0 < eta64 <= / 10 ^ 320.
Proof.
  unfold eta64. split.
  - apply Rinv_0_lt_compat, pow_lt. lra.
  - apply Rinv_le_contravar; [apply pow_lt; lra |].
    apply Rle_trans with (2 ^ 1070).
    + apply Rle_trans with (10 ^ 321).
      * apply Rle_pow; [lra | lia].
      * apply (pow2_ge_pow10 107).
    + apply Rle_pow; [lra | lia].
Qed.

Lemma max64_big : 10 ^ 300 <= max64.
Proof.
  unfold max64. apply Rle_trans with (2 ^ 1000).
  - apply (pow2_ge_pow10 100).
  - apply Rle_pow; [lra | lia].
Qed.

(** *** [sin] *)

(** [|sin x| <= |x|]. *)
Lemma Rabs_sin_le x : Rabs (sin x) <= Rabs x.
Proof.
  assert (Hpos : forall y, 0 <= y -> Rabs (sin y) <= y).
  { intros y Hy. destruct (Rle_lt_dec 1 y) as [H1 | H1].
    - apply Rle_trans with 1; [| exact H1].
      apply Rabs_le. destruct (SIN_bound y). split; lra.
    - destruct (Req_dec y 0) as [-> | Hn].
      + rewrite sin_0, Rabs_R0. lra.
      + assert (0 < y) by lra.
        rewrite Rabs_pos_eq.
        * left. apply sin_lt_x. assumption.
        * apply sin_ge_0; [lra |]. pose proof PI_18_digits. lra. }
  destruct (Rle_lt_dec 0 x) as [H | H].
  - rewrite (Rabs_pos_eq x) by assumption. apply Hpos. assumption.
  - rewrite <- (Rabs_Ropp (sin x)), <- sin_neg, (Rabs_left x) by assumption.
    apply Hpos. lra.
Qed.

(** [sin] is 1-Lipschitz. *)
Lemma sin_lipschitz a b : Rabs (sin a - sin b) <= Rabs (a - b).
Proof.
  rewrite form4.
  rewrite !Rabs_mult.
  pose proof (Rabs_sin_le ((a - b) / 2)) as Hs.
  assert (Hc : Rabs (cos ((a + b) / 2)) <= 1).
  { apply Rabs_le. destruct (COS_bound ((a + b) / 2)). split; lra. }
  assert (H2 : Rabs 2 = 2) by (apply Rabs_pos_eq; lra).
  assert (Hh : Rabs ((a - b) / 2) = Rabs (a - b) / 2).
  { unfold Rdiv. rewrite Rabs_mult, (Rabs_pos_eq (/ 2)) by lra. reflexivity. }
  rewrite H2. rewrite Hh in Hs.
  pose proof (Rabs_pos (cos ((a + b) / 2))).
  pose proof (Rabs_pos (sin ((a - b) / 2))).
  nra.
Qed.

(** [sin] near a multiple of pi. *)
Lemma sin_near_multiple (n : nat) y : Rabs (sin y) <= Rabs (y - INR n * PI).
Proof.
  revert y; induction n as [| n IH]; intros y.
  - simpl. replace (y - 0 * PI) with y by ring. apply Rabs_sin_le.
  - replace (sin y) with (- sin (y - PI)).
    + rewrite Rabs_Ropp. rewrite S_INR.
      replace (y - (INR n + 1) * PI) with (y - PI - INR n * PI) by ring.
      apply IH.
    + rewrite <- neg_sin. f_equal. ring.
Qed.

(** *** One rounded operation *)

(** The product of two approximations. *)
Lemma mul_close a b A B ea eb Ma Mb :
  Rabs (a - A) <= ea -> Rabs (b - B) <= eb -> Rabs A <= Ma -> Rabs B <= Mb ->
  Rabs (a * b - A * B) <= ea * Mb + eb * Ma + ea * eb.
Proof.
  intros Ha Hb HA HB.
  replace (a * b - A * B) with ((a - A) * B + (b - B) * A + (a - A) * (b - B))
    by ring.
  eapply Rle_trans; [apply Rabs_triang |].
  eapply Rle_trans; [apply Rplus_le_compat_r, Rabs_triang |].
  rewrite !Rabs_mult.
  pose proof (Rabs_pos (a - A)). pose proof (Rabs_pos (b - B)).
  pose proof (Rabs_pos A). pose proof (Rabs_pos B).
  nra.
Qed.

Section RoundedOperation.
Variable rnd : R -> R.
Hypothesis Hrnd : standard_model rnd.

(** Rounding an approximation [x] of [y]. *)
Lemma rnd_close x y e M :
  Rabs (x - y) <= e -> Rabs y <= M -> M + e <= max64 ->
  Rabs (rnd x - y) <= e + u64 * (M + e) + eta64.
Proof.
  intros He HM Hmax.
  assert (Hx : Rabs x <= M + e).
  { replace x with (y + (x - y)) by ring.
    eapply Rle_trans; [apply Rabs_triang |]. lra. }
  pose proof (Hrnd x ltac:(lra)) as Hr.
  replace (rnd x - y) with ((rnd x - x) + (x - y)) by ring.
  eapply Rle_trans; [apply Rabs_triang |].
  assert (0 < u64) by (rewrite u64_val; lra).
  nra.
Qed.
End RoundedOperation.

Lemma eta64_tiny : 0 < eta64 <= / 10 ^ 30.
Proof.
  destruct eta64_small as [H0 H1]. split; [exact H0 |].
  eapply Rle_trans; [exact H1 |].
  apply Rinv_le_contravar; [apply pow_lt; lra |].
  apply Rle_pow; [lra | lia].
Qed.

Lemma max64_large : 1000 <= max64.
Proof.
  eapply Rle_trans; [| apply max64_big].
  apply Rle_trans with (10 ^ 3); [simpl; lra |].
  apply Rle_pow; [lra | lia].
Qed.

Section SineArgument.
Variables (rnd : R -> R) (sinf : R -> R).
Hypothesis Hrnd : standard_model rnd.
Hypothesis Hsin : accurate_sin sinf.

(** The argument that the code passes to [sin]. *)
Lemma arg_close c y :
  0 <= c <= 2 -> 0 <= y <= 3 ->
  Rabs (rnd (pi_double * rnd (c + rnd y)) - PI * (c + y)) <= 527 / 10 ^ 17.
Proof.
  intros Hc Hy.
  pose proof u64_val as Hu. pose proof eta64_tiny as He.
  pose proof max64_large as Hm. pose proof PI_18_digits as HP.
  pose proof pi_double_close as Hpi.
  assert (H1 : Rabs (rnd y - y) <= 34 / 10 ^ 17).
  { eapply Rle_trans.
    - apply (rnd_close rnd Hrnd y y 0 3).
      + replace (y - y) with 0 by ring. rewrite Rabs_R0. lra.
      + apply Rabs_le. lra.
      + lra.
    - rewrite Hu. simpl in *. lra. }
  assert (H2 : Rabs (rnd (c + rnd y) - (c + y)) <= 90 / 10 ^ 17).
  { eapply Rle_trans.
    - apply (rnd_close rnd Hrnd (c + rnd y) (c + y) (34 / 10 ^ 17) 5).
      + replace (c + rnd y - (c + y)) with (rnd y - y) by ring. exact H1.
      + apply Rabs_le. lra.
      + simpl. lra.
    - rewrite Hu. simpl in *. lra. }
  assert (H3 : Rabs (pi_double * rnd (c + rnd y) - PI * (c + y))
               <= 349 / 10 ^ 17).
  { eapply Rle_trans.
    - apply (mul_close pi_double (rnd (c + rnd y)) PI (c + y)
               (13 / 10 ^ 17) (90 / 10 ^ 17) (315 / 100) 5).
      + exact Hpi.
      + exact H2.
      + apply Rabs_le. lra.
      + apply Rabs_le. lra.
    - simpl. lra. }
  eapply Rle_trans.
  - apply (rnd_close rnd Hrnd _ _ (349 / 10 ^ 17) 16 H3).
    + rewrite Rabs_mult. 
      assert (Rabs PI <= 315 / 100) by (apply Rabs_le; lra).
      assert (Rabs (c + y) <= 5) by (apply Rabs_le; lra).
      pose proof (Rabs_pos PI). pose proof (Rabs_pos (c + y)). nra.
    + simpl. lra.
  - rewrite Hu. simpl in *. lra.
Qed.

(** The sine that the code gets. *)
Lemma sin_close c y :
  0 <= c <= 2 -> 0 <= y <= 3 ->
  Rabs (sinf (rnd (pi_double * rnd (c + rnd y))) - sin (PI * (c + y)))
  <= 55 / 10 ^ 16.
Proof.
  intros Hc Hy.
  pose proof (arg_close c y Hc Hy) as Ha.
  pose proof (Hsin (rnd (pi_double * rnd (c + rnd y)))) as Hs.
  pose proof (sin_lipschitz (rnd (pi_double * rnd (c + rnd y)))
                (PI * (c + y))) as Hl.
  match goal with
  | |- Rabs (?s - ?S) <= _ =>
      match type of Hs with
      | Rabs (_ - ?m) <= _ =>
          replace (s - S) with ((s - m) + (m - S)) by ring
      end
  end.
  eapply Rle_trans; [apply Rabs_triang |].
  simpl in *. lra.
Qed.

(** The sine that the code gets is at most 1, up to its error. *)
Lemma sinf_bound x : Rabs (sinf x) <= 1 + / 10 ^ 15.
Proof.
  pose proof (Hsin x) as Hs.
  replace (sinf x) with ((sinf x - sin x) + sin x) by ring.
  eapply Rle_trans; [apply Rabs_triang |].
  assert (Rabs (sin x) <= 1).
  { apply Rabs_le. destruct (SIN_bound x). split; lra. }
  simpl in *. lra.
Qed.
End SineArgument.

Section SineProduct.
Variables (rnd : R -> R).
Hypothesis Hrnd : standard_model rnd.

(** One rounded multiplication of a quantity that scales with [r]. *)
Lemma scaled_step v V w W al be M ew Mw r :
  0 <= r ->
  Rabs (v - V) <= al * r + be -> Rabs V <= M * r ->
  Rabs (w - W) <= ew -> Rabs W <= Mw ->
  M * Mw * r + ((al * r + be) * Mw + ew * (M * r) + (al * r + be) * ew)
  <= max64 ->
  Rabs (rnd (v * w) - V * W)
  <= ((al * r + be) * Mw + ew * (M * r) + (al * r + be) * ew) +
     u64 * (M * Mw * r +
            ((al * r + be) * Mw + ew * (M * r) + (al * r + be) * ew)) +
     eta64 /\
  Rabs (V * W) <= M * Mw * r.
Proof.
  intros Hr Hv HV Hw HW Hmax.
  assert (HVW : Rabs (V * W) <= M * Mw * r).
  { rewrite Rabs_mult. pose proof (Rabs_pos V). pose proof (Rabs_pos W).
    nra. }
  split; [| exact HVW].
  apply (rnd_close rnd Hrnd); [| exact HVW | exact Hmax].
  apply mul_close; assumption.
Qed.

(** [k[0]*k[0] + k[1]*k[1] + k[2]*k[2]], as the code rounds it. *)
Lemma K_close :
  Rabs (rnd (rnd (rnd (1 * 1) + rnd (2 * 2)) + rnd (3 * 3)) - 14)
  <= 4 / 10 ^ 15.
Proof.
  pose proof u64_val as Hu. pose proof eta64_tiny as He.
  pose proof max64_large as Hm.
  assert (H1 : Rabs (rnd (1 * 1) - 1) <= 2 / 10 ^ 16).
  { eapply Rle_trans.
    - apply (rnd_close rnd Hrnd (1 * 1) 1 0 1).
      + replace (1 * 1 - 1) with 0 by ring. rewrite Rabs_R0. lra.
      + apply Rabs_le. lra.
      + lra.
    - rewrite Hu. simpl in *. lra. }
  assert (H4 : Rabs (rnd (2 * 2) - 4) <= 5 / 10 ^ 16).
  { eapply Rle_trans.
    - apply (rnd_close rnd Hrnd (2 * 2) 4 0 4).
      + replace (2 * 2 - 4) with 0 by ring. rewrite Rabs_R0. lra.
      + apply Rabs_le. lra.
      + lra.
    - rewrite Hu. simpl in *. lra. }
  assert (H9 : Rabs (rnd (3 * 3) - 9) <= 11 / 10 ^ 16).
  { eapply Rle_trans.
    - apply (rnd_close rnd Hrnd (3 * 3) 9 0 9).
      + replace (3 * 3 - 9) with 0 by ring. rewrite Rabs_R0. lra.
      + apply Rabs_le. lra.
      + lra.
    - rewrite Hu. simpl in *. lra. }
  assert (H5 : Rabs (rnd (rnd (1 * 1) + rnd (2 * 2)) - 5) <= 13 / 10 ^ 16).
  { eapply Rle_trans.
    - apply (rnd_close rnd Hrnd _ 5 (7 / 10 ^ 16) 5).
      + replace (rnd (1 * 1) + rnd (2 * 2) - 5)
          with ((rnd (1 * 1) - 1) + (rnd (2 * 2) - 4)) by ring.
        eapply Rle_trans; [apply Rabs_triang |]. simpl in *. lra.
      + apply Rabs_le. lra.
      + simpl. lra.
    - rewrite Hu. simpl in *. lra. }
  eapply Rle_trans.
  - apply (rnd_close rnd Hrnd _ 14 (24 / 10 ^ 16) 14).
    + match goal with
      | |- Rabs (?a + ?b - 14) <= _ =>
          replace (a + b - 14) with ((a - 5) + (b - 9)) by ring
      end.
      eapply Rle_trans; [apply Rabs_triang |]. simpl in *. lra.
    + apply Rabs_le. lra.
    + simpl. lra.
  - rewrite Hu. simpl in *. lra.
Qed.

(** The product of the three sines, as the code rounds it. *)
Lemma product_close s1 s2 s3 S1 S2 S3 :
  Rabs (s1 - S1) <= 55 / 10 ^ 16 -> Rabs (s2 - S2) <= 55 / 10 ^ 16 ->
  Rabs (s3 - S3) <= 55 / 10 ^ 16 ->
  Rabs S1 <= 1 -> Rabs S2 <= 1 -> Rabs S3 <= 1 ->
  Rabs (rnd (rnd (s1 * s2) * s3) - S1 * S2 * S3) <= 3 / 10 ^ 14.
Proof.
  intros H1 H2 H3 B1 B2 B3.
  pose proof u64_val as Hu. pose proof eta64_tiny as He.
  pose proof max64_large as Hm.
  assert (B12 : Rabs (S1 * S2) <= 1).
  { rewrite Rabs_mult. pose proof (Rabs_pos S1). pose proof (Rabs_pos S2).
    nra. }
  assert (H12 : Rabs (rnd (s1 * s2) - S1 * S2) <= 14 / 10 ^ 15).
  { eapply Rle_trans.
    - apply (rnd_close rnd Hrnd _ _ (131 / 10 ^ 16) 1).
      + eapply Rle_trans; [apply (mul_close _ _ _ _ _ _ 1 1 H1 H2 B1 B2) |].
        simpl. lra.
      + exact B12.
      + simpl. lra.
    - rewrite Hu. simpl in *. lra. }
  eapply Rle_trans.
  - apply (rnd_close rnd Hrnd _ _ (206 / 10 ^ 16) 1).
    + eapply Rle_trans; [apply (mul_close _ _ _ _ _ _ 1 1 H12 H3 B12 B3) |].
      simpl. lra.
    + rewrite Rabs_mult. pose proof (Rabs_pos (S1 * S2)).
      pose proof (Rabs_pos S3). nra.
    + simpl. lra.
  - rewrite Hu. simpl in *. lra.
Qed.

(** The rounded product of three numbers is close to their product. *)
Lemma product_rounding s1 s2 s3 :
  Rabs s1 <= 1 + / 10 ^ 15 -> Rabs s2 <= 1 + / 10 ^ 15 ->
  Rabs s3 <= 1 + / 10 ^ 15 ->
  Rabs (rnd (rnd (s1 * s2) * s3) - s1 * s2 * s3) <= 3 / 10 ^ 16.
Proof.
  intros B1 B2 B3.
  pose proof u64_val as Hu. pose proof eta64_tiny as He.
  pose proof max64_large as Hm.
  assert (B12 : Rabs (s1 * s2) <= 1 + 3 / 10 ^ 15).
  { rewrite Rabs_mult. pose proof (Rabs_pos s1). pose proof (Rabs_pos s2).
    simpl in *. nra. }
  assert (H12 : Rabs (rnd (s1 * s2) - s1 * s2) <= 12 / 10 ^ 17).
  { eapply Rle_trans.
    - apply (rnd_close rnd Hrnd _ _ 0 (1 + 3 / 10 ^ 15)).
      + replace (s1 * s2 - s1 * s2) with 0 by ring. rewrite Rabs_R0. lra.
      + exact B12.
      + simpl. lra.
    - rewrite Hu. simpl in *. lra. }
  eapply Rle_trans.
  - apply (rnd_close rnd Hrnd _ _ (13 / 10 ^ 17) (1 + 5 / 10 ^ 15)).
    + replace (rnd (s1 * s2) * s3 - s1 * s2 * s3)
        with ((rnd (s1 * s2) - s1 * s2) * s3) by ring.
      rewrite Rabs_mult. pose proof (Rabs_pos (rnd (s1 * s2) - s1 * s2)).
      pose proof (Rabs_pos s3). simpl in *. nra.
    + rewrite Rabs_mult. pose proof (Rabs_pos (s1 * s2)).
      pose proof (Rabs_pos s3). simpl in *. nra.
    + simpl. lra.
  - rewrite Hu. simpl in *. lra.
Qed.
End SineProduct.

Lemma eta64_300 : 100 * eta64 <= / 10 ^ 300.
Proof.
  destruct eta64_small as [H0 H1].
  apply Rle_trans with (100 * / 10 ^ 320); [lra |].
  replace (10 ^ 320) with (10 ^ 300 * 10 ^ 20) by (rewrite <- pow_add; reflexivity).
  rewrite Rinv_mult.
  assert (0 < / 10 ^ 300) by (apply Rinv_0_lt_compat, pow_lt; lra).
  assert (100 * / 10 ^ 20 <= 1) by (simpl; lra).
  nra.
Qed.

Lemma max64_290 : 1000 * 10 ^ 290 <= max64.
Proof.
  eapply Rle_trans; [| apply max64_big].
  replace (10 ^ 300) with (10 ^ 290 * 10 ^ 10) by (rewrite <- pow_add; reflexivity).
  assert (0 < 10 ^ 290) by (apply pow_lt; lra).
  assert (1000 <= 10 ^ 10) by (simpl; lra).
  nra.
Qed.

Section ForcingChain.
Variables (rnd : R -> R).
Hypothesis Hrnd : standard_model rnd.

(** The chain of six rounded multiplications that gives the forcing, up to
    the three sines. *)
Lemma forcing_chain rho s1 s2 s3 :
  Rabs s1 <= 1 + / 10 ^ 15 -> Rabs s2 <= 1 + / 10 ^ 15 ->
  Rabs s3 <= 1 + / 10 ^ 15 ->
  Rabs rho <= 10 ^ 290 ->
  let K := rnd (rnd (rnd (1 * 1) + rnd (2 * 2)) + rnd (3 * 3)) in
  let f :=
    rnd (rnd (rnd (rnd (rnd (rnd (rho * pi_double) * pi_double) * K) * s1)
              * s2) * s3) in
  Rabs (f - rho * PI * PI * 14 * s1 * s2 * s3)
  <= 15 / 10 ^ 14 * Rabs rho + 80 * eta64 /\
  Rabs (rho * PI * PI * 14) <= 138915 / 1000 * Rabs rho.
Proof.
  intros B1 B2 B3 Hrho K f. subst f.
  pose proof u64_val as Hu. pose proof eta64_tiny as He.
  pose proof max64_290 as Hm. pose proof PI_18_digits as HP.
  pose proof pi_double_close as Hpi. pose proof (K_close rnd Hrnd) as HK.
  fold K in HK.
  set (r := Rabs rho) in *.
  assert (Hr : 0 <= r) by apply Rabs_pos.
  assert (Hbig : 0 < 10 ^ 290) by (apply pow_lt; lra).
  assert (BPI : Rabs PI <= 315 / 100) by (apply Rabs_le; lra).
  assert (B14 : Rabs 14 <= 14) by (apply Rabs_le; lra).
  assert (E0 : Rabs (rho - rho) <= 0 * r + 0).
  { replace (rho - rho) with 0 by ring. rewrite Rabs_R0. lra. }
  assert (M0 : Rabs rho <= 1 * r) by (unfold r; lra).
  (* rho * M_PI *)
  destruct (scaled_step rnd Hrnd rho rho pi_double PI 0 0 1 (13 / 10 ^ 17)
              (315 / 100) r Hr E0 M0 Hpi BPI ltac:(simpl; lra))
    as [E1 M1].
  assert (E1' : Rabs (rnd (rho * pi_double) - rho * PI)
                <= 5 / 10 ^ 16 * r + 1 * eta64).
  { eapply Rle_trans; [exact E1 |]. rewrite Hu. simpl in *. lra. }
  clear E1.
  (* ... * M_PI *)
  destruct (scaled_step rnd Hrnd _ _ pi_double PI (5 / 10 ^ 16) (1 * eta64)
              (1 * (315 / 100)) (13 / 10 ^ 17) (315 / 100) r Hr E1' M1
              Hpi BPI ltac:(simpl in *; lra))
    as [E2 M2].
  assert (E2' : Rabs (rnd (rnd (rho * pi_double) * pi_double) - rho * PI * PI)
                <= 32 / 10 ^ 16 * r + 5 * eta64).
  { eapply Rle_trans; [exact E2 |]. rewrite Hu. simpl in *. lra. }
  clear E2.
  (* ... * (k0*k0 + k1*k1 + k2*k2) *)
  destruct (scaled_step rnd Hrnd _ _ K 14 (32 / 10 ^ 16) (5 * eta64)
              (1 * (315 / 100) * (315 / 100)) (4 / 10 ^ 15) 14 r Hr E2' M2
              HK B14 ltac:(simpl in *; lra))
    as [E3 M3].
  assert (E3' : Rabs (rnd (rnd (rnd (rho * pi_double) * pi_double) * K)
                      - rho * PI * PI * 14)
                <= 101 / 10 ^ 15 * r + 72 * eta64).
  { eapply Rle_trans; [exact E3 |]. rewrite Hu. simpl in *. lra. }
  clear E3.
  assert (M3' : Rabs (rho * PI * PI * 14) <= 138915 / 1000 * r).
  { eapply Rle_trans; [exact M3 |]. lra. }
  split; [| exact M3'].
  (* ... * sin * sin * sin *)
  assert (Es : forall s, Rabs (s - s) <= 0).
  { intros s. replace (s - s) with 0 by ring. rewrite Rabs_R0. lra. }
  destruct (scaled_step rnd Hrnd _ _ s1 s1 (101 / 10 ^ 15) (72 * eta64)
              (138915 / 1000) 0 (1 + / 10 ^ 15) r Hr E3' M3'
              (Es s1) B1 ltac:(simpl in *; lra))
    as [E4 M4].
  assert (E4' : Rabs (rnd (rnd (rnd (rnd (rho * pi_double) * pi_double) * K)
                           * s1) - rho * PI * PI * 14 * s1)
                <= 117 / 10 ^ 15 * r + 74 * eta64).
  { eapply Rle_trans; [exact E4 |]. rewrite Hu. simpl in *. lra. }
  clear E4.
  assert (M4' : Rabs (rho * PI * PI * 14 * s1) <= 13892 / 100 * r).
  { eapply Rle_trans; [exact M4 |]. simpl. lra. }
  destruct (scaled_step rnd Hrnd _ _ s2 s2 (117 / 10 ^ 15) (74 * eta64)
              (13892 / 100) 0 (1 + / 10 ^ 15) r Hr E4' M4'
              (Es s2) B2 ltac:(simpl in *; lra))
    as [E5 M5].
  assert (E5' : Rabs (rnd (rnd (rnd (rnd (rnd (rho * pi_double) * pi_double)
                                     * K) * s1) * s2)
                      - rho * PI * PI * 14 * s1 * s2)
                <= 133 / 10 ^ 15 * r + 76 * eta64).
  { eapply Rle_trans; [exact E5 |]. rewrite Hu. simpl in *. lra. }
  clear E5.
  assert (M5' : Rabs (rho * PI * PI * 14 * s1 * s2) <= 13893 / 100 * r).
  { eapply Rle_trans; [exact M5 |]. simpl. lra. }
  destruct (scaled_step rnd Hrnd _ _ s3 s3 (133 / 10 ^ 15) (76 * eta64)
              (13893 / 100) 0 (1 + / 10 ^ 15) r Hr E5' M5'
              (Es s3) B3 ltac:(simpl in *; lra))
    as [E6 M6].
  eapply Rle_trans; [exact E6 |]. rewrite Hu. simpl in *. lra.
Qed.

(** The forcing against [rho pi^2 (1 + 4 + 9)] times the target. *)
Lemma forcing_close rho s1 s2 s3 :
  Rabs s1 <= 1 + / 10 ^ 15 -> Rabs s2 <= 1 + / 10 ^ 15 ->
  Rabs s3 <= 1 + / 10 ^ 15 ->
  Rabs rho <= 10 ^ 290 ->
  let K := rnd (rnd (rnd (1 * 1) + rnd (2 * 2)) + rnd (3 * 3)) in
  let f :=
    rnd (rnd (rnd (rnd (rnd (rnd (rho * pi_double) * pi_double) * K) * s1)
              * s2) * s3) in
  Rabs (f - rho * PI ^ 2 * (1 + 4 + 9) * rnd (rnd (s1 * s2) * s3))
  <= / 10 ^ 12 * Rabs rho + / 10 ^ 300.
Proof.
  intros B1 B2 B3 Hrho K f.
  destruct (forcing_chain rho s1 s2 s3 B1 B2 B3 Hrho) as [E M].
  fold K in E. fold f in E.
  pose proof (product_rounding rnd Hrnd s1 s2 s3 B1 B2 B3) as Ep.
  pose proof eta64_300 as He. pose proof eta64_tiny as He'.
  set (t := rnd (rnd (s1 * s2) * s3)) in *.
  set (V := rho * PI * PI * 14) in *.
  replace (rho * PI ^ 2 * (1 + 4 + 9) * t) with (V * t) by (unfold V; ring).
  replace (f - V * t)
    with ((f - V * s1 * s2 * s3) - V * (t - s1 * s2 * s3)) by ring.
  eapply Rle_trans; [apply Rabs_triang |].
  rewrite Rabs_Ropp, Rabs_mult.
  pose proof (Rabs_pos V). pose proof (Rabs_pos (t - s1 * s2 * s3)).
  pose proof (Rabs_pos rho).
  assert (Rabs V * Rabs (t - s1 * s2 * s3)
          <= 138915 / 1000 * Rabs rho * (3 / 10 ^ 16)) by (simpl in *; nra).
  simpl in *. lra.
Qed.
End ForcingChain.

(** Exact arithmetic and the exact [sin] meet the two assumptions. *)
Lemma standard_model_exact : standard_model (fun x => x).
Proof.
  intros x _. replace (x - x)%R with 0%R by ring. rewrite Rabs_R0.
  pose proof (Rabs_pos x). pose proof eta64_tiny. pose proof u64_val as Hu.
  assert (0 < u64)%R by (rewrite Hu; lra). nra.
Qed.

Lemma accurate_sin_exact : accurate_sin sin.
Proof.
  intros x. replace (sin x - sin x)%R with 0%R by ring. rewrite Rabs_R0.
  simpl. lra.
Qed.

(** The tolerances, as decimal literals. *)
Lemma tol_12 : (/ 10 ^ 12 = 1e-12)%R.
Proof. simpl. lra. Qed.

Lemma tol_14 : (/ 10 ^ 14 = 1e-14)%R.
Proof. simpl. lra. Qed.

Lemma tol_300 : (/ 10 ^ 300 = 1e-300)%R.
Proof.
  unfold Rdiv. rewrite Rmult_1_l, pow_IZR. reflexivity.
Qed.

Section FacesOfProducts.
Variables (rnd : R -> R).
Hypothesis Hrnd : standard_model rnd.

(** *** A point on a face of the cube: one of the three sines is small *)



End FacesOfProducts.

(** *** The determinant *)

Lemma Rabs_mul_le x y X Y :
  Rabs x <= X -> Rabs y <= Y -> Rabs (x * y) <= X * Y.
Proof.
  intros Hx Hy. rewrite Rabs_mult.
  pose proof (Rabs_pos x). pose proof (Rabs_pos y). nra.
Qed.

Lemma pow10_60_sq : 10 ^ 60 * 10 ^ 60 = 10 ^ 120.
Proof. rewrite <- pow_add. reflexivity. Qed.

Lemma pow10_60_cube : 10 ^ 60 * 10 ^ 60 * 10 ^ 60 = 10 ^ 180.
Proof. rewrite <- !pow_add. reflexivity. Qed.

Lemma max64_250 : 10 * 10 ^ 250 <= max64.
Proof.
  apply Rle_trans with (10 ^ 300); [| apply max64_big].
  change (10 * 10 ^ 250) with (10 ^ 251).
  apply Rle_pow; [lra | lia].
Qed.

Section Magnitudes.
Variables B W : R.
Hypothesis HB : 0 <= B <= 10 ^ 60.
Hypothesis HW : 0 <= W <= 10 ^ 60.

(** Magnitudes of the products of entries bounded by [B] and of the
    weight bounded by [W]; none overflows, and the underflow terms are
    negligible. *)
Lemma square_bounded : 0 <= B * B <= 10 ^ 120.
Proof.
  rewrite <- pow10_60_sq. split; [nra |].
  apply Rmult_le_compat; lra.
Qed.

Lemma cube_bounded : 0 <= B * B * B <= 10 ^ 180.
Proof.
  pose proof square_bounded as HS.
  rewrite <- pow10_60_cube, pow10_60_sq. split.
  - apply Rmult_le_pos; lra.
  - apply Rmult_le_compat; lra.
Qed.

Lemma weighted_cube_bounded : 0 <= W * (B * B * B) <= 10 ^ 240.
Proof.
  pose proof cube_bounded as HT.
  replace (10 ^ 240) with (10 ^ 60 * 10 ^ 180)
    by (rewrite <- pow_add; reflexivity).
  split.
  - apply Rmult_le_pos; lra.
  - apply Rmult_le_compat; lra.
Qed.

Lemma eta_B : 0 <= eta64 * B <= / 10 ^ 260.
Proof.
  pose proof eta64_small as He.
  split; [apply Rmult_le_pos; lra |].
  replace (/ 10 ^ 260) with (/ 10 ^ 320 * 10 ^ 60).
  - apply Rmult_le_compat; lra.
  - replace (10 ^ 320) with (10 ^ 260 * 10 ^ 60)
      by (rewrite <- pow_add; reflexivity).
    field; repeat split; apply pow_nonzero; lra.
Qed.

Lemma eta_W : 0 <= eta64 * W <= / 10 ^ 260.
Proof.
  pose proof eta64_small as He.
  split; [apply Rmult_le_pos; lra |].
  replace (/ 10 ^ 260) with (/ 10 ^ 320 * 10 ^ 60).
  - apply Rmult_le_compat; lra.
  - replace (10 ^ 320) with (10 ^ 260 * 10 ^ 60)
      by (rewrite <- pow_add; reflexivity).
    field; repeat split; apply pow_nonzero; lra.
Qed.

Lemma eta_B_W : 0 <= eta64 * B * W <= / 10 ^ 200.
Proof.
  pose proof eta_B as He.
  split; [apply Rmult_le_pos; lra |].
  replace (/ 10 ^ 200) with (/ 10 ^ 260 * 10 ^ 60).
  - apply Rmult_le_compat; lra.
  - replace (10 ^ 260) with (10 ^ 200 * 10 ^ 60)
      by (rewrite <- pow_add; reflexivity).
    field; repeat split; apply pow_nonzero; lra.
Qed.
End Magnitudes.

(** Orders of magnitude. *)
Lemma pow10_facts :
  10 ^ 120 <= 10 ^ 250 /\ 10 ^ 180 <= 10 ^ 250 /\ 10 ^ 240 <= 10 ^ 250 /\
  / 10 ^ 260 <= 1 /\ / 10 ^ 200 <= 1 /\ / 10 ^ 320 <= 1 /\
  / 10 ^ 260 <= / 10 ^ 200 /\ / 10 ^ 320 <= / 10 ^ 200 /\
  20 * / 10 ^ 200 + 8 * / 10 ^ 200 + / 10 ^ 200 <= / 10 ^ 190 /\
  0 < 10 ^ 250.
Proof.
  assert (Hp : forall n, 0 < 10 ^ n) by (intros n; apply pow_lt; lra).
  assert (Hi : forall n, / 10 ^ n <= 1).
  { intros n. rewrite <- Rinv_1. apply Rinv_le_contravar; [lra |].
    apply pow_R1_Rle. lra. }
  assert (Hm : forall m n, (m <= n)%nat -> / 10 ^ n <= / 10 ^ m).
  { intros m n Hmn. apply Rinv_le_contravar; [apply Hp |].
    apply Rle_pow; [lra | exact Hmn]. }
  repeat split; try apply Hi; try apply Hp;
    try (apply Rle_pow; [lra | lia]); try (apply Hm; lia).
  replace (/ 10 ^ 190) with (10 ^ 10 * / 10 ^ 200).
  - pose proof (Rinv_0_lt_compat _ (Hp 200%nat)). simpl (10 ^ 10). nra.
  - replace (10 ^ 200) with (10 ^ 10 * 10 ^ 190)
      by (rewrite <- pow_add; reflexivity).
    field; repeat split; apply pow_nonzero; lra.
Qed.

Section Determinant.
Variable rnd : R -> R.
Hypothesis Hrnd : standard_model rnd.
Variables B W : R.
Hypothesis HB : 0 <= B <= 10 ^ 60.
Hypothesis HW : 0 <= W <= 10 ^ 60.

(** A rounded product of two entries. *)
Lemma entry_product a b :
  Rabs a <= B -> Rabs b <= B ->
  Rabs (rnd (a * b) - a * b) <= u64 * (B * B) + eta64 /\
  Rabs (a * b) <= B * B.
Proof.
  intros Ha Hb.
  pose proof (square_bounded B HB) as HS.
  pose proof max64_250 as Hm. destruct pow10_facts as (P1 & _ & _ & _ & _ & _ & _ & _ & _ & P0).
  assert (Hab : Rabs (a * b) <= B * B) by (apply Rabs_mul_le; assumption).
  split; [| exact Hab].
  pose proof (Hrnd (a * b) ltac:(lra)) as Hr.
  pose proof u64_val as Hu. rewrite Hu in *. lra.
Qed.

(** A rounded 2x2 cofactor. *)
Lemma cofactor_close a b c d :
  Rabs a <= B -> Rabs b <= B -> Rabs c <= B -> Rabs d <= B ->
  Rabs (rnd (rnd (a * b) - rnd (c * d)) - (a * b - c * d))
  <= 5 * u64 * (B * B) + 4 * eta64 /\
  Rabs (a * b - c * d) <= 2 * (B * B).
Proof.
  intros Ha Hb Hc Hd.
  pose proof (square_bounded B HB) as HS.
  pose proof max64_250 as Hm.
  destruct pow10_facts as (P1 & _ & _ & _ & _ & P5 & _ & _ & _ & P0).
  pose proof eta64_small as He.
  destruct (entry_product a b Ha Hb) as (E1 & M1).
  destruct (entry_product c d Hc Hd) as (E2 & M2).
  pose proof u64_val as Hu.
  assert (HM : Rabs (a * b - c * d) <= 2 * (B * B)).
  { unfold Rminus. eapply Rle_trans; [apply Rabs_triang |].
    rewrite Rabs_Ropp. lra. }
  split; [| exact HM].
  eapply Rle_trans.
  - apply (rnd_close rnd Hrnd _ (a * b - c * d)
             (2 * u64 * (B * B) + 2 * eta64) (2 * (B * B))).
    + replace (rnd (a * b) - rnd (c * d) - (a * b - c * d))
        with ((rnd (a * b) - a * b) + - (rnd (c * d) - c * d)) by ring.
      eapply Rle_trans; [apply Rabs_triang |]. rewrite Rabs_Ropp. lra.
    + exact HM.
    + rewrite Hu. lra.
  - rewrite Hu. lra.
Qed.

(** An entry times its rounded cofactor, rounded. *)
Lemma term_close j a b c d :
  Rabs j <= B ->
  Rabs a <= B -> Rabs b <= B -> Rabs c <= B -> Rabs d <= B ->
  Rabs (rnd (j * rnd (rnd (a * b) - rnd (c * d))) - j * (a * b - c * d))
  <= 8 * u64 * (B * B * B) + 5 * (eta64 * B) + eta64 /\
  Rabs (j * (a * b - c * d)) <= 2 * (B * B * B).
Proof.
  intros Hj Ha Hb Hc Hd.
  pose proof (cube_bounded B HB) as HT.
  pose proof (eta_B B HB) as HeB.
  pose proof max64_250 as Hm.
  destruct pow10_facts as (_ & P2 & _ & P3 & _ & P5 & _ & _ & _ & P0).
  pose proof eta64_small as He.
  destruct (cofactor_close a b c d Ha Hb Hc Hd) as (EA & MA).
  pose proof u64_val as Hu.
  assert (HM : Rabs (j * (a * b - c * d)) <= 2 * (B * B * B)).
  { replace (2 * (B * B * B)) with (B * (2 * (B * B))) by ring.
    apply Rabs_mul_le; assumption. }
  split; [| exact HM].
  eapply Rle_trans.
  - apply (rnd_close rnd Hrnd _ (j * (a * b - c * d))
             (5 * u64 * (B * B * B) + 4 * (eta64 * B)) (2 * (B * B * B))).
    + eapply Rle_trans.
      * apply (mul_close j _ j (a * b - c * d) 0
                 (5 * u64 * (B * B) + 4 * eta64) B (2 * (B * B))).
        -- replace (j - j) with 0 by ring. rewrite Rabs_R0. lra.
        -- exact EA.
        -- exact Hj.
        -- exact MA.
      * apply Req_le. ring.
    + exact HM.
    + rewrite Hu. lra.
  - rewrite Hu. lra.
Qed.

(** [rho] as the code computes it, against the weight times the
    determinant. *)
Lemma rho_close w J11 J21 J31 J12 J22 J32 J13 J23 J33 :
  Rabs w <= W ->
  Rabs J11 <= B -> Rabs J21 <= B -> Rabs J31 <= B ->
  Rabs J12 <= B -> Rabs J22 <= B -> Rabs J32 <= B ->
  Rabs J13 <= B -> Rabs J23 <= B -> Rabs J33 <= B ->
  Rabs (rnd (w * rnd (rnd (rnd (J11 * rnd (rnd (J22 * J33) - rnd (J23 * J32)))
                           + rnd (J21 * rnd (rnd (J13 * J32)
                                             - rnd (J12 * J33))))
                      + rnd (J31 * rnd (rnd (J12 * J23) - rnd (J13 * J22)))))
        - w * (J11 * (J22 * J33 - J23 * J32) + J21 * (J13 * J32 - J12 * J33)
               + J31 * (J12 * J23 - J13 * J22)))
  <= / 10 ^ 14 * (W * (B * B * B)) + / 10 ^ 190.
Proof.
  intros Hw H11 H21 H31 H12 H22 H32 H13 H23 H33.
  pose proof (cube_bounded B HB) as HT.
  pose proof (weighted_cube_bounded B W HB HW) as HWT.
  pose proof (eta_B B HB) as HeB.
  pose proof (eta_W W HW) as HeW.
  pose proof (eta_B_W B W HB HW) as HeBW.
  pose proof max64_250 as Hm.
  destruct pow10_facts as (_ & P2 & P2' & P3 & P4 & P5 & P6 & P7 & P8 & P0).
  pose proof eta64_small as He.
  pose proof u64_val as Hu.
  destruct (term_close J11 J22 J33 J23 J32 H11 H22 H33 H23 H32) as (E1 & M1).
  destruct (term_close J21 J13 J32 J12 J33 H21 H13 H32 H12 H33) as (E2 & M2).
  destruct (term_close J31 J12 J23 J13 J22 H31 H12 H23 H13 H22) as (E3 & M3).
  set (t1 := rnd (J11 * rnd (rnd (J22 * J33) - rnd (J23 * J32)))) in *.
  set (t2 := rnd (J21 * rnd (rnd (J13 * J32) - rnd (J12 * J33)))) in *.
  set (t3 := rnd (J31 * rnd (rnd (J12 * J23) - rnd (J13 * J22)))) in *.
  set (X1 := J11 * (J22 * J33 - J23 * J32)) in *.
  set (X2 := J21 * (J13 * J32 - J12 * J33)) in *.
  set (X3 := J31 * (J12 * J23 - J13 * J22)) in *.
  set (T := B * B * B) in *.
  set (eB := eta64 * B) in *.
  assert (M12 : Rabs (X1 + X2) <= 4 * T).
  { eapply Rle_trans; [apply Rabs_triang |]. lra. }
  assert (E12 : Rabs (rnd (t1 + t2) - (X1 + X2))
                <= 21 * u64 * T + 11 * eB + 4 * eta64).
  { eapply Rle_trans.
    - apply (rnd_close rnd Hrnd _ (X1 + X2)
               (16 * u64 * T + 10 * eB + 2 * eta64) (4 * T)).
      + replace (t1 + t2 - (X1 + X2)) with ((t1 - X1) + (t2 - X2)) by ring.
        eapply Rle_trans; [apply Rabs_triang |]. lra.
      + exact M12.
      + rewrite Hu. lra.
    - rewrite Hu. lra. }
  assert (M123 : Rabs (X1 + X2 + X3) <= 6 * T).
  { eapply Rle_trans; [apply Rabs_triang |]. lra. }
  assert (E123 : Rabs (rnd (rnd (t1 + t2) + t3) - (X1 + X2 + X3))
                 <= 36 * u64 * T + 17 * eB + 7 * eta64).
  { eapply Rle_trans.
    - apply (rnd_close rnd Hrnd _ (X1 + X2 + X3)
               (29 * u64 * T + 16 * eB + 5 * eta64) (6 * T)).
      + replace (rnd (t1 + t2) + t3 - (X1 + X2 + X3))
          with ((rnd (t1 + t2) - (X1 + X2)) + (t3 - X3)) by ring.
        eapply Rle_trans; [apply Rabs_triang |]. lra.
      + exact M123.
      + rewrite Hu. lra.
    - rewrite Hu. lra. }
  set (d := rnd (rnd (t1 + t2) + t3)) in *.
  set (D := X1 + X2 + X3) in *.
  assert (MwD : Rabs (w * D) <= 6 * (W * T)).
  { replace (6 * (W * T)) with (W * (6 * T)) by ring.
    apply Rabs_mul_le; assumption. }
  eapply Rle_trans.
  - apply (rnd_close rnd Hrnd _ (w * D)
             (36 * u64 * (W * T) + 17 * (eB * W) + 7 * (eta64 * W))
             (6 * (W * T))).
    + eapply Rle_trans.
      * apply (mul_close w d w D 0
                 (36 * u64 * T + 17 * eB + 7 * eta64) W (6 * T)).
        -- replace (w - w) with 0 by ring. rewrite Rabs_R0. lra.
        -- exact E123.
        -- exact Hw.
        -- exact M123.
      * apply Req_le. ring.
    + exact MwD.
    + rewrite Hu. lra.
  - rewrite Hu. lra.
Qed.
End Determinant.

(** *** A rounding that meets the standard model *)

(** The integer nearest to [t]. *)
Lemma nearest_integer t : Rabs (IZR (Int_part (t + / 2)) - t) <= / 2.
Proof.
  destruct (base_Int_part (t + / 2)) as (H1 & H2).
  apply Rabs_le. lra.
Qed.

(** The binade is below the number. *)
Lemma binade_le x : x <> 0 -> powerRZ 2 (binade x) <= Rabs x.
Proof.
  intros Hx.
  assert (Ha : 0 < Rabs x) by (apply Rabs_pos_lt; exact Hx).
  assert (Hl : 0 < ln 2) by (pose proof ln_lt_2; lra).
  rewrite powerRZ_Rpower by lra. unfold Rpower, binade.
  destruct (base_Int_part (ln (Rabs x) / ln 2)) as (H1 & _).
  set (b := IZR (Int_part (ln (Rabs x) / ln 2))) in *.
  assert (Hb : b * ln 2 <= ln (Rabs x)).
  { replace (ln (Rabs x)) with (ln (Rabs x) / ln 2 * ln 2)
      by (field; lra).
    apply Rmult_le_compat_r; lra. }
  apply Rle_trans with (exp (ln (Rabs x))); [| rewrite exp_ln by exact Ha; lra].
  destruct Hb as [Hb | Hb].
  - left. apply exp_increasing. exact Hb.
  - right. rewrite Hb. reflexivity.
Qed.

(** Half a unit in the last place, of the subnormal doubles and of 1. *)
Lemma eta64_powerRZ : powerRZ 2 (-1074) * / 2 = eta64.
Proof.
  unfold eta64.
  change (-1074)%Z with (- Z.of_nat 1074)%Z.
  rewrite powerRZ_neg', <- pow_powerRZ.
  change (2 ^ 1075) with (2 * 2 ^ 1074).
  rewrite Rinv_mult. ring.
Qed.

Lemma u64_powerRZ : powerRZ 2 (-52) * / 2 = u64.
Proof.
  unfold u64.
  change (-52)%Z with (- Z.of_nat 52)%Z.
  rewrite powerRZ_neg', <- pow_powerRZ.
  change (2 ^ 53) with (2 * 2 ^ 52).
  rewrite Rinv_mult. ring.
Qed.

(** [round64] meets the standard model, whatever the magnitude. *)
Lemma round64_standard : standard_model round64.
Proof.
  intros x _. unfold round64.
  destruct (Req_dec_T x 0) as [-> | Hx].
  - replace (0 - 0) with 0 by ring. rewrite Rabs_R0.
    pose proof eta64_small.
    assert (0 < u64) by (rewrite u64_val; lra). lra.
  - cbv zeta.
    set (e := (Z.max (binade x) (-1022) - 52)%Z).
    assert (Hg : 0 < powerRZ 2 e) by (apply powerRZ_lt; lra).
    set (g := powerRZ 2 e) in *.
    assert (Hinv : powerRZ 2 (- e) = / g).
    { unfold g. apply powerRZ_neg'. }
    rewrite Hinv.
    pose proof (nearest_integer (x * / g)) as Hn.
    set (n := IZR (Int_part (x * / g + / 2))) in *.
    assert (Herr : Rabs (n * g - x) <= g * / 2).
    { replace (n * g - x) with ((n - x * / g) * g) by (field; lra).
      rewrite Rabs_mult, (Rabs_pos_eq g) by lra.
      pose proof (Rabs_pos (n - x * / g)). nra. }
    eapply Rle_trans; [exact Herr |].
    pose proof (Rabs_pos x) as Hx0.
    pose proof eta64_small as (He & _).
    assert (Hu : 0 < u64) by (rewrite u64_val; lra).
    destruct (Z.max_spec (binade x) (-1022)) as [(Hlt & Hm) | (Hle & Hm)].
    + (* a subnormal *)
      unfold g, e. rewrite Hm.
      change (-1022 - 52)%Z with (-1074)%Z.
      rewrite eta64_powerRZ. nra.
    + unfold g, e. rewrite Hm.
      replace (binade x - 52)%Z with (binade x + -52)%Z by lia.
      rewrite powerRZ_add by lra.
      rewrite Rmult_assoc, u64_powerRZ.
      pose proof (binade_le x Hx) as Hb.
      assert (Hp : 0 < powerRZ 2 (binade x)) by (apply powerRZ_lt; lra).
      nra.
Qed.

(** The correctly rounded [sin] is accurate. *)
Lemma rounded_sin_accurate : accurate_sin (fun x => round64 (sin x)).
Proof.
  intros x.
  assert (Hm : Rabs (sin x) <= max64).
  { apply Rle_trans with 1; [apply Rabs_sin_le_1 |].
    pose proof max64_large. lra. }
  pose proof (round64_standard (sin x) Hm) as Hr.
  pose proof (Rabs_sin_le_1 x) as Hs.
  pose proof eta64_tiny as He. rewrite u64_val in Hr.
  assert (H52 : / 2 ^ 52 = / 4503599627370496) by (f_equal; simpl; lra).
  rewrite H52. simpl in He. lra.
Qed.
End RoundingFacts.

(** The tolerance of the determinant. *)
Lemma tol_190 : (/ 10 ^ 190 = 1e-190)%R.
Proof. unfold Rdiv. rewrite Rmult_1_l, pow_IZR. reflexivity. Qed.

(** C6, as the code has it on binary64: in the standard model of rounding
    to nearest, with a [sin] that errs by at most [2^-52], and with the two
    output fields not overlapping.  At a point with the coordinates
    (1/4, 1/4, 1/4):
    - component 0 of the target is the product of the three sines, within
      1e-12;
    - component 0 of the forcing is [rho * pi^2 * (1+4+9)] times that
      target within [1e-12 |rho| + 1e-300], where [rho] is the weight times
      the determinant of the Jacobian as the code computes it, as long as
      [|rho| <= 1e290];
    - that [rho] is the weight times the determinant within
      [1e-14 W B^3 + 1e-190], when the entries of the Jacobian are at most
      [B <= 1e60] and the weight at most [W <= 1e60] in absolute value. *)
Theorem SetupDiff3Rhs_quarter_rounded (rnd sinf cosf expf : R -> R)
    (powf : R -> R -> R) Q iOf7 oOf7 (inp : Z -> R) m i :
  standard_model rnd -> accurate_sin sinf ->
  0 <= i < Q ->
  oOf7 0 + 3 * Q <= oOf7 1 \/ oOf7 1 + 3 * Q <= oOf7 0 ->
  inp (iOf7 0 + 0*Q + i) = (1/4)%R ->
  inp (iOf7 0 + 1*Q + i) = (1/4)%R ->
  inp (iOf7 0 + 2*Q + i) = (1/4)%R ->
  let HA := rounded_arith rnd in
  let HL := rounded_libm sinf cosf expf powf in
  let out := output (@SetupDiff3Rhs R HA HL Q iOf7 oOf7 inp) m in
  let rho := @SetupDiff3Rhs_rho R HA Q iOf7 inp i in
  let J := fun k => inp (iOf7 1 + i + Q * k) in
  let w := inp (iOf7 2 + i) in
  let det :=
    @spec_det3 R R_arith J.[0] J.[3] J.[6] J.[1] J.[4] J.[7] J.[2] J.[5]
      J.[8] in
  (Rabs (out.[oOf7 0 + i + 0*Q] -
         sin (PI * (0 + 1 * (1/4))) * sin (PI * (1 + 2 * (1/4))) *
         sin (PI * (2 + 3 * (1/4)))) <= 1e-12)%R /\
  (Rabs rho <= 10 ^ 290 ->
   Rabs (out.[oOf7 1 + i + 0*Q] -
         rho * PI ^ 2 * (1 + 4 + 9) * out.[oOf7 0 + i + 0*Q])
   <= 1e-12 * Rabs rho + 1e-300)%R /\
  (forall B W : R,
     (0 <= B <= 10 ^ 60)%R -> (0 <= W <= 10 ^ 60)%R ->
     (forall k, 0 <= k < 9 -> (Rabs (J k) <= B)%R) -> (Rabs w <= W)%R ->
     (Rabs (rho - w * det) <= 1e-14 * (W * (B * B * B)) + 1e-190)%R).
Proof.
  intros Hrnd Hsin Hi Ho X0 X1 X2 HA HL out rho J w det.
  destruct (SetupDiff3Rhs_comp0 R HA HL Q iOf7 oOf7 inp m i Hi Ho)
    as (E0 & E1).
  cbv zeta in E0, E1. subst out. rewrite E0, E1. clear E0 E1.
  fold rho.
  assert (Hdet : forall B W : R,
     (0 <= B <= 10 ^ 60)%R -> (0 <= W <= 10 ^ 60)%R ->
     (forall k, 0 <= k < 9 -> (Rabs (J k) <= B)%R) -> (Rabs w <= W)%R ->
     (Rabs (rho - w * det) <= 1e-14 * (W * (B * B * B)) + 1e-190)%R).
  { intros B W HB HW HJ Hw.
    rewrite <- tol_14, <- tol_190.
    subst rho det. unfold SetupDiff3Rhs_rho, spec_det3.
    cbn [fmul fadd fsub HA rounded_arith R_arith]. fold w.
    change (inp (iOf7 1 + i + Q * 0)) with (J 0).
    change (inp (iOf7 1 + i + Q * 1)) with (J 1).
    change (inp (iOf7 1 + i + Q * 2)) with (J 2).
    change (inp (iOf7 1 + i + Q * 3)) with (J 3).
    change (inp (iOf7 1 + i + Q * 4)) with (J 4).
    change (inp (iOf7 1 + i + Q * 5)) with (J 5).
    change (inp (iOf7 1 + i + Q * 6)) with (J 6).
    change (inp (iOf7 1 + i + Q * 7)) with (J 7).
    change (inp (iOf7 1 + i + Q * 8)) with (J 8).
    pose proof (rho_close rnd Hrnd B W HB HW w (J 0) (J 1) (J 2) (J 3) (J 4)
                  (J 5) (J 6) (J 7) (J 8) Hw
                  (HJ 0 ltac:(lia)) (HJ 1 ltac:(lia)) (HJ 2 ltac:(lia))
                  (HJ 3 ltac:(lia)) (HJ 4 ltac:(lia)) (HJ 5 ltac:(lia))
                  (HJ 6 ltac:(lia)) (HJ 7 ltac:(lia)) (HJ 8 ltac:(lia)))
      as Hr.
    match type of Hr with
    | (Rabs (?r - ?d) <= _)%R =>
        match goal with
        | |- (Rabs (?r' - ?d') <= _)%R =>
            replace d' with d by ring
        end
    end.
    exact Hr. }
  assert (Bs : forall x, (Rabs (sin x) <= 1)%R).
  { intros x. apply Rabs_le. destruct (SIN_bound x). split; lra. }
  split; [| split; [| exact Hdet]]; clear Hdet; clearbody rho;
    unfold SetupDiff3Rhs_target;
    cbn [vec3 Z.eqb Pos.eqb fsin M_PI fmul fadd fsub fofZ HA HL
         rounded_arith rounded_libm];
    rewrite X0, X1, X2.
  all: assert (H1 := sin_close rnd sinf Hrnd Hsin 0 (1 * (1/4))
                       ltac:(lra) ltac:(lra)).
  all: assert (H2 := sin_close rnd sinf Hrnd Hsin 1 (2 * (1/4))
                       ltac:(lra) ltac:(lra)).
  all: assert (H3 := sin_close rnd sinf Hrnd Hsin 2 (3 * (1/4))
                       ltac:(lra) ltac:(lra)).
  all: set (s1 := sinf (rnd (pi_double * rnd (0 + rnd (1 * (1/4)))))%R) in *.
  all: set (s2 := sinf (rnd (pi_double * rnd (1 + rnd (2 * (1/4)))))%R) in *.
  all: set (s3 := sinf (rnd (pi_double * rnd (2 + rnd (3 * (1/4)))))%R) in *.
  - eapply Rle_trans.
    + apply (product_close rnd Hrnd s1 s2 s3 _ _ _ H1 H2 H3); apply Bs.
    + simpl. lra.
  - intros Hrho.
    eapply Rle_trans.
    + apply (forcing_close rnd Hrnd rho s1 s2 s3);
        [apply (sinf_bound sinf Hsin) .. | exact Hrho].
    + pose proof (Rabs_pos rho).
      pose proof tol_300. pose proof tol_12. nra.
Qed.

Lemma SetupDiff3Rhs_quarter_rounded_witness :
  0 <= 0 < 1 /\
  (Rabs (output (@SetupDiff3Rhs R (rounded_arith round64)
                   (rounded_libm (fun x => round64 (sin x)) cos exp Rpow)
                   1 Sample.diff_iOf7 Sample.diff_oOf7 Sample.diff_in)
           Sample.diff_out0 0%Z -
         sin (PI * (0 + 1 * (1/4))) * sin (PI * (1 + 2 * (1/4))) *
         sin (PI * (2 + 3 * (1/4)))) <= 1e-12)%R.
Proof.
  split; [lia |].
  exact (proj1 (SetupDiff3Rhs_quarter_rounded round64
                  (fun x => round64 (sin x)) cos exp Rpow
                  1 Sample.diff_iOf7 Sample.diff_oOf7 Sample.diff_in
                  Sample.diff_out0 0 round64_standard rounded_sin_accurate
                  ltac:(lia) ltac:(left; vm_compute; discriminate)
                  eq_refl eq_refl eq_refl)).
Defined.

(** *** The sample on binary64

    The sines of the sample [Sample64.libm_quarter] are the doubles nearest
    to the sines of its arguments. *)

Section SineTable.
Local Open Scope R_scope.

(** Twenty digits of the square root of 2. *)
Lemma sqrt2_20_digits :
  14142135623730950488 / 10000000000000000000 <= sqrt 2
  <= 14142135623730950489 / 10000000000000000000.
Proof.
  assert (Hs : sqrt 2 * sqrt 2 = 2) by (apply sqrt_sqrt; lra).
  assert (Hp : 0 <= sqrt 2) by apply sqrt_pos.
  split.
  - destruct (Rle_lt_dec (14142135623730950488 / 10000000000000000000)
                (sqrt 2)) as [H | H]; [exact H | exfalso; nra].
  - destruct (Rle_lt_dec (sqrt 2)
                (14142135623730950489 / 10000000000000000000))
      as [H | H]; [exact H | exfalso; nra].
Qed.

(** [sin (pi/4)], to twenty digits. *)
Lemma half_sqrt2_20_digits :
  70710678118654752440 / 100000000000000000000 <= 1 / sqrt 2
  <= 70710678118654752445 / 100000000000000000000.
Proof.
  assert (Hs : sqrt 2 * sqrt 2 = 2) by (apply sqrt_sqrt; lra).
  pose proof sqrt2_20_digits as Hb.
  assert (Hn : sqrt 2 <> 0) by lra.
  replace (1 / sqrt 2) with (sqrt 2 / 2).
  - lra.
  - apply Rmult_eq_reg_r with (sqrt 2); [| exact Hn].
    unfold Rdiv. rewrite Rmult_assoc, (Rmult_comm (/ 2)), <- Rmult_assoc, Hs.
    field. exact Hn.
Qed.

(** [cos] near 0. *)
Lemma cos_near_0 x : 1 - x * x / 2 <= cos x <= 1.
Proof.
  split; [| destruct (COS_bound x); lra].
  replace x with (2 * (x / 2)) at 3 by field.
  rewrite cos_2a_sin.
  pose proof (Rabs_sin_le (x / 2)) as Hs.
  assert (H2 : sin (x / 2) * sin (x / 2) <= x / 2 * (x / 2)).
  { apply Rsqr_le_abs_1 in Hs. exact Hs. }
  lra.
Qed.

(** [sin] near 0, from above 0. *)
Lemma sin_near_0 x : 0 <= x <= / 10 ^ 14 -> x - / 10 ^ 40 <= sin x <= x.
Proof.
  intros Hx.
  assert (H14 : / 10 ^ 14 <= 1).
  { rewrite <- Rinv_1. apply Rinv_le_contravar; [lra |].
    apply pow_R1_Rle. lra. }
  pose proof PI_18_digits as Hpi.
  destruct (sin_bound x 0 ltac:(lra) ltac:(lra)) as (Hl & _).
  unfold sin_approx, sum_f_R0, sin_term in Hl. simpl in Hl.
  split.
  - assert (H2 : x * x <= / 10 ^ 14 * / 10 ^ 14).
    { apply Rmult_le_compat; lra. }
    assert (H3 : x * x * x <= / 10 ^ 14 * / 10 ^ 14 * / 10 ^ 14).
    { apply Rmult_le_compat; try lra. nra. }
    assert (E : / 10 ^ 14 * / 10 ^ 14 * / 10 ^ 14 <= / 10 ^ 40).
    { rewrite <- !Rinv_mult, <- !pow_add.
      apply Rinv_le_contravar; [apply pow_lt; lra |].
      apply Rle_pow; [lra | lia]. }
    lra.
  - pose proof (Rabs_sin_le x) as Ha.
    rewrite (Rabs_pos_eq x) in Ha by lra.
    pose proof (Rle_abs (sin x)). lra.
Qed.

(** [2^-53]. *)
Lemma u53_val : / 2 ^ 53 = / 9007199254740992.
Proof. f_equal. simpl. lra. Qed.

(** [sin (M_PI * 0.25)]: the argument is [pi/4 - d] with [d] about
    3.06e-17. *)
Lemma sin_table_1 :
  Rabs (1592262918131443 / 2251799813685248
        - sin (884279719003555 / 1125899906842624)) <= / 2 ^ 53.
Proof.
  pose proof PI_18_digits as Hpi.
  pose proof half_sqrt2_20_digits as Hh.
  set (d := PI / 4 - 884279719003555 / 1125899906842624).
  assert (Hd : 0 <= d <= 4 / 10 ^ 17) by (unfold d; simpl; lra).
  replace (884279719003555 / 1125899906842624) with (PI / 4 - d)
    by (unfold d; ring).
  rewrite sin_minus, sin_PI4, cos_PI4.
  assert (Hd14 : 0 <= d <= / 10 ^ 14) by (simpl in *; lra).
  pose proof (sin_near_0 d Hd14) as Hs.
  pose proof (cos_near_0 d) as Hc.
  assert (Hdd : 0 <= d * d <= / 10 ^ 17) by (simpl in *; nra).
  set (h := 1 / sqrt 2) in *.
  set (c := cos d) in *. set (s := sin d) in *.
  assert (Hs0 : 0 <= s) by (apply sin_ge_0; lra).
  assert (Hcs : 1 - 5 / 10 ^ 17 <= c - s <= 1) by (simpl in *; lra).
  replace (h * c - h * s) with (h * (c - s)) by ring.
  assert (Hp : h - 5 / 10 ^ 17 <= h * (c - s) <= h) by (simpl in *; nra).
  rewrite u53_val. apply Rabs_le. simpl in *. lra.
Qed.

(** [sin (M_PI * 1.5)]: the argument is [3 pi/2 - e] with [e] about
    1.84e-16. *)
Lemma sin_table_2 :
  Rabs (-1 - sin (2652839157010665 / 562949953421312)) <= / 2 ^ 53.
Proof.
  pose proof PI_18_digits as Hpi.
  set (e := 3 * (PI / 2) - 2652839157010665 / 562949953421312).
  assert (He : 0 <= e <= 2 / 10 ^ 16) by (unfold e; simpl; lra).
  replace (2652839157010665 / 562949953421312) with (3 * (PI / 2) - e)
    by (unfold e; ring).
  rewrite sin_minus, sin_3PI2, cos_3PI2.
  pose proof (cos_near_0 e) as Hc.
  assert (Hee : 0 <= e * e <= / 10 ^ 17) by (simpl in *; nra).
  rewrite u53_val. apply Rabs_le. simpl in *. lra.
Qed.

(** [sin (M_PI * 2.75)]: the argument is [11 pi/4 - e] with [e] about
    1.225e-15. *)
Lemma sin_table_3 :
  Rabs (1592262918131445 / 2251799813685248
        - sin (18998197087967 / 2199023255552)) <= / 2 ^ 53.
Proof.
  pose proof PI_18_digits as Hpi.
  pose proof half_sqrt2_20_digits as Hh.
  set (e := 11 * (PI / 4) - 18998197087967 / 2199023255552).
  assert (He : 1222 / 10 ^ 18 <= e <= 1228 / 10 ^ 18)
    by (unfold e; simpl; lra).
  replace (18998197087967 / 2199023255552)
    with (3 * (PI / 4) - e + 2 * PI) by (unfold e; field).
  rewrite sin_plus, sin_2PI, cos_2PI.
  rewrite sin_minus, sin_3PI4, cos_3PI4.
  replace (-1 / sqrt 2) with (- (1 / sqrt 2)) by (unfold Rdiv; ring).
  assert (He14 : 0 <= e <= / 10 ^ 14) by (simpl in *; lra).
  pose proof (sin_near_0 e He14) as Hs.
  pose proof (cos_near_0 e) as Hc.
  assert (Hee : 0 <= e * e <= / 10 ^ 20) by (simpl in *; nra).
  set (h := 1 / sqrt 2) in *.
  set (c := cos e) in *. set (s := sin e) in *.
  replace ((h * c - - h * s) * 1 + cos (3 * (PI / 4) - e) * 0)
    with (h * (c + s)) by ring.
  assert (Hcs : 1 + 1221 / 10 ^ 18 <= c + s <= 1 + 1228 / 10 ^ 18)
    by (simpl in *; lra).
  assert (Hp : h + h * (1221 / 10 ^ 18) <= h * (c + s)
               <= h + h * (1228 / 10 ^ 18)) by (simpl in *; nra).
  rewrite u53_val. apply Rabs_le. simpl in *. lra.
Qed.
(** The sine of the double [M_PI] is not 0: it is [pi - M_PI], about
    1.22e-16. *)
Lemma sin_pi_double :
  121 / 10 ^ 18 <= sin pi_double <= 124 / 10 ^ 18.
Proof.
  pose proof PI_18_digits as Hpi.
  set (d := PI - pi_double).
  assert (Hd : 1220 / 10 ^ 19 <= d <= 1231 / 10 ^ 19)
    by (unfold d, pi_double; simpl; lra).
  replace pi_double with (PI - d) by (unfold d; ring).
  rewrite sin_PI_x.
  assert (Hd14 : 0 <= d <= / 10 ^ 14) by (simpl in *; lra).
  pose proof (sin_near_0 d Hd14) as Hs.
  simpl in *. lra.
Qed.
End SineTable.

(** The value of a finite double, from its sign, its mantissa and its
    exponent. *)
Lemma float_value_finite f s m e :
  Prim2SF f = S754_finite s m e ->
  float_value f = ((if s then -1 else 1) * IZR (Z.pos m) * powerRZ 2 e)%R.
Proof. intros E. unfold float_value. rewrite E. reflexivity. Qed.

(** The sample [Sample64.libm_quarter] is within the assumptions made on
    [math.h]: its [M_PI] is the double nearest to pi, and at the three
    arguments that [SetupDiff3Rhs] passes to [sin] at the point
    (1/4, 1/4, 1/4) its [sin] is within [2^-53] of the sine. *)
Lemma libm_quarter_faithful :
  let pi := @M_PI float Sample64.libm_quarter in
  let arg := fun c k : float => (pi * (c + k * 0.25))%float in
  float_value pi = pi_double /\
  Forall (fun a => Rabs (float_value (Sample64.sin_quarter a)
                         - sin (float_value a)) <= / 2 ^ 53)%R
    [arg 0 1; arg 1 2; arg 2 3]%float.
Proof.
  intros pi arg.
  assert (A1 : arg 0%float 1%float = 0x1.921fb54442d18p-1%float)
    by (vm_compute; reflexivity).
  assert (A2 : arg 1%float 2%float = 0x1.2d97c7f3321d2p+2%float)
    by (vm_compute; reflexivity).
  assert (A3 : arg 2%float 3%float = 0x1.1475cc9eedf00p+3%float)
    by (vm_compute; reflexivity).
  rewrite A1, A2, A3. clear A1 A2 A3. subst pi arg.
  split.
  - rewrite (float_value_finite _ false 7074237752028440 (-51));
      [| vm_compute; reflexivity].
    unfold pi_double. simpl. lra.
  - apply Forall_cons; [| apply Forall_cons; [| apply Forall_cons;
      [| apply Forall_nil]]].
    + replace (Sample64.sin_quarter 0x1.921fb54442d18p-1)
        with 0x1.6a09e667f3bccp-1%float by (vm_compute; reflexivity).
      rewrite (float_value_finite _ false 6369051672525772 (-53));
        [| vm_compute; reflexivity].
      rewrite (float_value_finite _ false 7074237752028440 (-53));
        [| vm_compute; reflexivity].
      replace (1 * IZR (Z.pos 6369051672525772) * powerRZ 2 (-53))%R
        with (1592262918131443 / 2251799813685248)%R by (simpl; lra).
      replace (1 * IZR (Z.pos 7074237752028440) * powerRZ 2 (-53))%R
        with (884279719003555 / 1125899906842624)%R by (simpl; lra).
      exact sin_table_1.
    + replace (Sample64.sin_quarter 0x1.2d97c7f3321d2p+2)
        with (-1)%float by (vm_compute; reflexivity).
      rewrite (float_value_finite _ true 4503599627370496 (-52));
        [| vm_compute; reflexivity].
      rewrite (float_value_finite _ false 5305678314021330 (-50));
        [| vm_compute; reflexivity].
      replace (-1 * IZR (Z.pos 4503599627370496) * powerRZ 2 (-52))%R
        with (-1)%R by (simpl; lra).
      replace (1 * IZR (Z.pos 5305678314021330) * powerRZ 2 (-50))%R
        with (2652839157010665 / 562949953421312)%R by (simpl; lra).
      exact sin_table_2.
    + replace (Sample64.sin_quarter 0x1.1475cc9eedf00p+3)
        with 0x1.6a09e667f3bd4p-1%float by (vm_compute; reflexivity).
      rewrite (float_value_finite _ false 6369051672525780 (-53));
        [| vm_compute; reflexivity].
      rewrite (float_value_finite _ false 4863538454519552 (-49));
        [| vm_compute; reflexivity].
      replace (1 * IZR (Z.pos 6369051672525780) * powerRZ 2 (-53))%R
        with (1592262918131445 / 2251799813685248)%R by (simpl; lra).
      replace (1 * IZR (Z.pos 4863538454519552) * powerRZ 2 (-49))%R
        with (18998197087967 / 2199023255552)%R by (simpl; lra).
      exact sin_table_3.
Qed.

(** C6, as stated, fails on binary64: the forcing is not bit for bit
    [rho * pi^2 * (1+4+9) * target].  At the point (1/4, 1/4, 1/4) with
    the identity as Jacobian and the weight 0.3, and with the correctly
    rounded [sin] of [Sample64.libm_quarter], [rho] is 0.3, the target is
    -0.5000000000000006, the kernel stores -20.72616924228768 as the
    forcing, and the product of the claim, in either grouping of [pi^2],
    is -20.726169242287675, one unit in the last place away. *)
Lemma SetupDiff3Rhs_forcing_not_bitwise :
  let out :=
    output (@SetupDiff3Rhs float float_arith Sample64.libm_quarter 1
              Sample.diff_iOf7 Sample.diff_oOf7 Sample64.quarter_in)
      Sample.zeros in
  let rho :=
    @SetupDiff3Rhs_rho float float_arith 1 Sample.diff_iOf7
      Sample64.quarter_in 0 in
  let pi := (0x1.921fb54442d18p+1)%float in
  let target := out 0 in
  let forcing := out 3 in
  rho = (0x1.3333333333333p-2)%float /\
  target = (-0x1.0000000000005p-1)%float /\
  forcing = (-0x1.4b9e63a3afc97p+4)%float /\
  (rho * (pi * pi) * (1 + 4 + 9) * target = -0x1.4b9e63a3afc96p+4)%float /\
  (rho * pi * pi * (1 + 4 + 9) * target = -0x1.4b9e63a3afc96p+4)%float /\
  PrimFloat.eqb forcing (rho * (pi * pi) * (1 + 4 + 9) * target)%float
  = false.
Proof. vm_compute. repeat split. Qed.



(** ** The shallow-water kernels in detail *)

Section SWPoint.
Context {F : Type} `{Arith F} `{Libm F}.

(** After the kernel, an element of the point [i] is as the iteration [i]
    leaves it. *)
Lemma SWICs_at_point ctx Q (inp : Z -> Z -> F) m i a :
  0 <= i < Q ->
  point_cell cell [(0, 3); (1, 1); (2, 1); (3, 2)] Q i a ->
  exists m', output (SWICs ctx Q inp) m a
             = output (SWICs_body ctx Q inp i) m' a.
Proof.
  intros Hi Ha. unfold SWICs.
  destruct (output_for_loop_point
              (point_cell cell [(0, 3); (1, 1); (2, 1); (3, 2)] Q)
              (SWICs_body ctx Q inp) (RInt 0) Q m i a)
    as (m' & E & _); eauto.
  - intros j; apply SWICs_body_point.
  - intros j j' b; apply point_cell_disjoint_cell.
Qed.

Lemma SWExplicit_at_point ctx Q (inp : Z -> Z -> F) m i a :
  0 <= i < Q ->
  point_cell cell [(0, 3); (1, 6)] Q i a ->
  exists m', output (SWExplicit ctx Q inp) m a
             = output (SWExplicit_body ctx Q inp i) m' a.
Proof.
  intros Hi Ha. unfold SWExplicit.
  destruct (output_for_loop_point (point_cell cell [(0, 3); (1, 6)] Q)
              (SWExplicit_body ctx Q inp) (RInt 0) Q m i a)
    as (m' & E & _); eauto.
  - intros j; apply SWExplicit_body_point.
  - intros j j' b; apply point_cell_disjoint_cell.
Qed.

Lemma SWImplicit_at_point ctx Q (inp : Z -> Z -> F) m i a :
  0 <= i < Q ->
  point_cell cell [(0, 3); (1, 6)] Q i a ->
  exists m', output (SWImplicit ctx Q inp) m a
             = output (SWImplicit_body ctx Q inp i) m' a.
Proof.
  intros Hi Ha. unfold SWImplicit.
  destruct (output_for_loop_point (point_cell cell [(0, 3); (1, 6)] Q)
              (SWImplicit_body ctx Q inp) (RInt 0) Q m i a)
    as (m' & E & _); eauto.
  - intros j; apply SWImplicit_body_point.
  - intros j j' b; apply point_cell_disjoint_cell.
Qed.

Lemma SWJacobian_at_point ctx Q (inp : Z -> Z -> F) m i a :
  0 <= i < Q ->
  point_cell cell [(0, 3); (1, 6)] Q i a ->
  exists m', output (SWJacobian ctx Q inp) m a
             = output (SWJacobian_body ctx Q inp i) m' a.
Proof.
  intros Hi Ha. unfold SWJacobian.
  destruct (output_for_loop_point (point_cell cell [(0, 3); (1, 6)] Q)
              (SWJacobian_body ctx Q inp) (RInt 0) Q m i a)
    as (m' & E & _); eauto.
  - intros j; apply SWJacobian_body_point.
  - intros j j' b; apply point_cell_disjoint_cell.
Qed.
End SWPoint.

(** X12.  [SWICs] sets a uniform state: at every point [0 <= i < Q] the
    three components of [q0] are the context entries 0, 1 and 2, whatever
    the coordinates; the topography [h_s] is [sin(x) + cos(y)], the
    reference height [H_0] is 0, and [coords] holds the coordinates x
    and y of the point. *)
Theorem SWICs_outputs (F : Type) (HA : Arith F) (HL : Libm F) ctx Q
    (inp : Z -> Z -> F) m i :
  0 <= i < Q ->
  let out := output (SWICs ctx Q inp) m in
  let x := inp 0 (i + 0 * Q) in
  let y := inp 0 (i + 1 * Q) in
  out (cell 0 (i + 0 * Q)) = ctx 0 /\
  out (cell 0 (i + 1 * Q)) = ctx 1 /\
  out (cell 0 (i + 2 * Q)) = ctx 2 /\
  out (cell 1 (i + 0 * Q)) = (fsin x + fcos y)%sc /\
  out (cell 2 (i + 0 * Q)) = fofZ 0 /\
  out (cell 3 (i + 0 * Q)) = x /\
  out (cell 3 (i + 1 * Q)) = y.
Proof.
  intros Hi out x y. subst out x y.
  repeat split.
  all: match goal with
       | |- output _ _ ?a = _ =>
           destruct (SWICs_at_point ctx Q inp m i a Hi ltac:(solve_cell))
             as (m' & ->)
       end.
  all: unfold SWICs_body; run_body; reflexivity.
Qed.

Lemma SWICs_outputs_witness :
  0 <= 0 < 1 /\
  output (SWICs SampleR.sw_ctx 1 SampleR.sw_in) SampleR.zeros2 (cell 1 0)
  = (sin 2 + cos 3)%R.
Proof.
  split; [lia |].
  exact (proj1 (proj2 (proj2 (proj2
           (SWICs_outputs R R_arith R_libm SampleR.sw_ctx 1 SampleR.sw_in
              SampleR.zeros2 0 ltac:(lia)))))).
Defined.

(** X13.  [SWImplicit] at every point [0 <= i < Q], in every scalar
    arithmetic: the three components of [v] are 0; in [dv], the momentum
    rows hold [-g (h + h_s)] times the sums of the two entries of [wBJ] on
    the diagonal and 0 off the diagonal, and the height row holds
    [-(h + H_0)] times the velocity contracted with [wBJ].  Here [g] is
    the context entry 0, [wBJ] the components 1 to 4 of input field 2,
    [h_s] and [H_0] the input fields 4 and 5. *)
Theorem SWImplicit_outputs (F : Type) (HA : Arith F) ctx Q
    (inp : Z -> Z -> F) m i :
  0 <= i < Q ->
  let out := output (SWImplicit ctx Q inp) m in
  let g := ctx 0 in
  let u := vec2 (inp 0 (i + 0 * Q)) (inp 0 (i + 1 * Q)) in
  let h := inp 0 (i + 2 * Q) in
  let wBJ := fun k => inp 2 (i + (k + 1) * Q) in
  let h_s := inp 4 (i + 0 * Q) in
  let H_0 := inp 5 (i + 0 * Q) in
  (forall c, 0 <= c < 3 -> out (cell 0 (i + c * Q)) = fofZ 0) /\
  out (cell 1 (i + (0 + 3 * 0) * Q))
  = (- g*(h + h_s)*(wBJ.[0] + wBJ.[1]))%sc /\
  out (cell 1 (i + (0 + 3 * 1) * Q)) = fofZ 0 /\
  out (cell 1 (i + (1 + 3 * 0) * Q)) = fofZ 0 /\
  out (cell 1 (i + (1 + 3 * 1) * Q))
  = (- g*(h + h_s)*(wBJ.[2] + wBJ.[3]))%sc /\
  out (cell 1 (i + (2 + 3 * 0) * Q))
  = (- (h + H_0)*(u.[0]*wBJ.[0] + u.[1]*wBJ.[1]))%sc /\
  out (cell 1 (i + (2 + 3 * 1) * Q))
  = (- (h + H_0)*(u.[0]*wBJ.[2] + u.[1]*wBJ.[3]))%sc.
Proof.
  intros Hi out g u h wBJ h_s H_0. subst out g u h wBJ h_s H_0.
  split.
  { intros c Hc.
    destruct (SWImplicit_at_point ctx Q inp m i (cell 0 (i + c * Q)) Hi)
      as (m' & ->).
    { exists 0, 3, c. split; [simpl; tauto | split; [lia | addr_eq]]. }
    unfold SWImplicit_body.
    assert (Hc' : c = 0 \/ c = 1 \/ c = 2) by lia.
    destruct Hc' as [-> | [-> | ->]]; run_body; reflexivity. }
  repeat split.
  all: match goal with
       | |- output _ _ ?a = _ =>
           destruct (SWImplicit_at_point ctx Q inp m i a Hi
                       ltac:(solve_cell))
             as (m' & ->)
       end.
  all: unfold SWImplicit_body; run_body; reflexivity.
Qed.

Lemma SWImplicit_outputs_witness :
  0 <= 0 < 1 /\
  output (SWImplicit Sample.sw_ctx 1 Sample.sw_in) Sample.zeros2 (cell 1 0)
  = (-0.5)%float.
Proof.
  split; [lia |].
  exact (proj1 (proj2 (SWImplicit_outputs float float_arith Sample.sw_ctx 1
                         Sample.sw_in Sample.zeros2 0 ltac:(lia)))).
Defined.

(** X14.  [SWJacobian] at every point [0 <= i < Q], in every scalar
    arithmetic: the three components of [v] are 0; in [dv], the momentum
    rows hold [-g wBJ[0] dh[0]] and [-g wBJ[3] dh[1]] on the diagonal and
    0 off the diagonal, and the height row holds
    [-(du[0][0] wBJ[0] + u[0] dh[0] wBJ[1])] and
    [-(du[1][1] wBJ[2] + u[1] dh[1] wBJ[3])]. *)
Theorem SWJacobian_outputs (F : Type) (HA : Arith F) ctx Q
    (inp : Z -> Z -> F) m i :
  0 <= i < Q ->
  let out := output (SWJacobian ctx Q inp) m in
  let g := ctx 0 in
  let u := vec2 (inp 0 (i + 0 * Q)) (inp 0 (i + 1 * Q)) in
  let du := fun j k => inp 1 (i + (j + 4 * k) * Q) in
  let dh := fun k => inp 1 (i + (2 + 4 * k) * Q) in
  let wBJ := fun k => inp 2 (i + (k + 1) * Q) in
  (forall c, 0 <= c < 3 -> out (cell 0 (i + c * Q)) = fofZ 0) /\
  out (cell 1 (i + (0 + 3 * 0) * Q)) = (- g*wBJ.[0] * dh.[0])%sc /\
  out (cell 1 (i + (0 + 3 * 1) * Q)) = fofZ 0 /\
  out (cell 1 (i + (1 + 3 * 0) * Q)) = fofZ 0 /\
  out (cell 1 (i + (1 + 3 * 1) * Q)) = (- g*wBJ.[3] * dh.[1])%sc /\
  out (cell 1 (i + (2 + 3 * 0) * Q))
  = (- (du.[0].[0]*wBJ.[0] + u.[0]*dh.[0]*wBJ.[1]))%sc /\
  out (cell 1 (i + (2 + 3 * 1) * Q))
  = (- (du.[1].[1]*wBJ.[2] + u.[1]*dh.[1]*wBJ.[3]))%sc.
Proof.
  intros Hi out g u du dh wBJ. subst out g u du dh wBJ.
  split.
  { intros c Hc.
    destruct (SWJacobian_at_point ctx Q inp m i (cell 0 (i + c * Q)) Hi)
      as (m' & ->).
    { exists 0, 3, c. split; [simpl; tauto | split; [lia | addr_eq]]. }
    unfold SWJacobian_body.
    assert (Hc' : c = 0 \/ c = 1 \/ c = 2) by lia.
    destruct Hc' as [-> | [-> | ->]]; run_body; reflexivity. }
  repeat split.
  all: match goal with
       | |- output _ _ ?a = _ =>
           destruct (SWJacobian_at_point ctx Q inp m i a Hi
                       ltac:(solve_cell))
             as (m' & ->)
       end.
  all: unfold SWJacobian_body; run_body; reflexivity.
Qed.

Lemma SWJacobian_outputs_witness :
  0 <= 0 < 1 /\
  output (SWJacobian Sample.sw_ctx 1 Sample.sw_in) Sample.zeros2 (cell 1 5)
  = (-(4 * 0 + 3 * 0 * 1))%float.
Proof.
  split; [lia |].
  exact (proj2 (proj2 (proj2 (proj2 (proj2 (proj2
           (SWJacobian_outputs float float_arith Sample.sw_ctx 1
              Sample.sw_in Sample.zeros2 0 ltac:(lia)))))))).
Defined.

(** X15.  The Coriolis term of [SWExplicit] does no work.  In real
    arithmetic, at every point, the velocity paired with the two momentum
    components of [v] is minus the velocity paired with its own advection
    [(u . grad) u]: the Coriolis parameter [f], the context entry 0, drops
    out. *)
Theorem SWExplicit_coriolis_no_work ctx Q (inp : Z -> Z -> R) m i :
  0 <= i < Q ->
  let out := output (SWExplicit ctx Q inp) m in
  let u := vec2 (inp 0 (i + 0 * Q)) (inp 0 (i + 1 * Q)) in
  let du := fun j k => inp 1 (i + (j + 4 * k) * Q) in
  (u.[0] * out (cell 0 (i + 0 * Q)) + u.[1] * out (cell 0 (i + 1 * Q))
   = - (u.[0] * (u.[0] * du.[0].[0] + u.[1] * du.[0].[1]) +
        u.[1] * (u.[0] * du.[1].[0] + u.[1] * du.[1].[1])))%R.
Proof.
  intros Hi out u du. subst out u du.
  destruct (SWExplicit_at_point ctx Q inp m i (cell 0 (i + 0 * Q)) Hi
              ltac:(solve_cell)) as (m0 & ->).
  destruct (SWExplicit_at_point ctx Q inp m i (cell 0 (i + 1 * Q)) Hi
              ltac:(solve_cell)) as (m1 & ->).
  unfold SWExplicit_body. run_body.
  cbn [vec2 Z.eqb fmul fadd fsub fneg R_arith]. ring.
Qed.

Lemma SWExplicit_coriolis_no_work_witness :
  0 <= 0 < 1 /\
  (2 * output (SWExplicit SampleR.sw_ctx 1 SampleR.sw_in) SampleR.zeros2
         (cell 0 0) +
   3 * output (SWExplicit SampleR.sw_ctx 1 SampleR.sw_in) SampleR.zeros2
         (cell 0 1)
   = - (2 * (2 * 1 + 3 * 3) + 3 * (2 * 2 + 3 * 4)))%R.
Proof.
  split; [lia |].
  exact (SWExplicit_coriolis_no_work SampleR.sw_ctx 1 SampleR.sw_in
           SampleR.zeros2 0 ltac:(lia)).
Defined.

(** ** [ICsDC] in detail *)

Lemma Rpow_2 (t : R) : Rpow t 2 = (t * t)%R.
Proof.
  unfold Rpow. destruct (Rlt_dec 0 t) as [Ht | Ht].
  - replace 2%R with (INR 2) by (simpl; lra).
    rewrite Rpower_pow by assumption. simpl. ring.
  - assert (E : Int_part 2 = 2).
    { symmetry. apply Int_part_spec. lra. }
    rewrite E. destruct (Req_dec_T 2 2) as [_ | N]; [| contradiction].
    simpl. ring.
Qed.

Lemma Rpow_1_l (y : R) : Rpow 1 y = 1%R.
Proof.
  unfold Rpow. destruct (Rlt_dec 0 1) as [_ | N]; [| lra].
  unfold Rpower. rewrite ln_1, Rmult_0_r. apply exp_0.
Qed.

(** Split on the conditions of the [if] statements of the goal. *)
Ltac split_when :=
  repeat match goal with
         | |- context [when ?c _] =>
             lazymatch c with
             | true => fail
             | false => fail
             | _ => destruct c
             end
         end.

Section ICsDCPoint.
Context {F : Type} `{Arith F} `{Libm F}.

Lemma ICsDC_at_point ctx Q (inp : Z -> Z -> F) m i a :
  0 <= i < Q ->
  point_cell cell [(0, 5); (1, 3)] Q i a ->
  exists m', output (ICsDC ctx Q inp) m a
             = output (ICsDC_body ctx Q inp i) m' a.
Proof.
  intros Hi Ha. unfold ICsDC.
  destruct (output_for_loop_point (point_cell cell [(0, 5); (1, 3)] Q)
              (ICsDC_body ctx Q inp) (RInt 0) Q m i a)
    as (m' & E & _); eauto.
  - intros j; apply ICsDC_body_point.
  - intros j j' b; apply point_cell_disjoint_cell.
Qed.

(** The density and the total energy that [ICsDC] stores. *)
Lemma ICsDC_density_energy ctx Q (inp : Z -> Z -> F) m i :
  0 <= i < Q ->
  let out := output (ICsDC ctx Q inp) m in
  let X := rows Q inp.[0] in
  let theta0 := ctx.[0] in
  let thetaC := ctx.[1] in
  let P0 := ctx.[2] in
  let N := ctx.[3] in
  let cv := ctx.[4] in
  let cp := ctx.[5] in
  let Rd := ctx.[6] in
  let g := ctx.[7] in
  let rc := ctx.[8] in
  let lx := ctx.[9] in
  let ly := ctx.[10] in
  let lz := ctx.[11] in
  let center := (vec3 (fdec 5 (-1) * lx) (fdec 5 (-1) * ly)
                      (fdec 5 (-1) * lz))%sc in
  let x := X.[0].[i] in
  let y := X.[1].[i] in
  let z := X.[2].[i] in
  let r := (fsqrt (fpow (x - center.[0]) #2 +
                   fpow (y - center.[1]) #2 +
                   fpow (z - center.[2]) #2))%sc in
  let deltatheta :=
    (if fleb r rc then thetaC*(#1 + fcos (M_PI*r/rc))/#2 else #0)%sc in
  let theta := (theta0 * fexp (N*N*z/g) + deltatheta)%sc in
  let Pi := (#1 + g*g*(fexp (-N*N*z/g) - #1) / (cp*theta0*N*N))%sc in
  let rho := (P0 * fpow Pi (cv/Rd) / (Rd*theta))%sc in
  out (cell 0 (0 * Q + i)) = rho /\
  out (cell 0 (4 * Q + i)) = (rho * (cv*theta*Pi))%sc.
Proof.
  intros Hi. cbv zeta.
  split.
  all: match goal with
       | |- output _ _ ?a = _ =>
           destruct (ICsDC_at_point ctx Q inp m i a Hi ltac:(solve_cell))
             as (m' & ->)
       end.
  all: unfold ICsDC_body; cbv zeta; split_when; run_body; reflexivity.
Qed.
End ICsDCPoint.

(** X16.  [ICsDC] starts from rest: at every point [0 <= i < Q] the three
    momentum components of [q0] are 0, whether or not the test of the
    boundary succeeds, and [coords] holds the three coordinates of the
    point, in every scalar arithmetic. *)
Theorem ICsDC_momentum_coords (F : Type) (HA : Arith F) (HL : Libm F)
    ctx Q (inp : Z -> Z -> F) m i :
  0 <= i < Q ->
  let out := output (ICsDC ctx Q inp) m in
  (forall c, 1 <= c <= 3 -> out (cell 0 (c * Q + i)) = fofZ 0) /\
  (forall c, 0 <= c < 3 -> out (cell 1 (c * Q + i)) = inp 0 (c * Q + i)).
Proof.
  intros Hi out. subst out. split; intros c Hc.
  - destruct (ICsDC_at_point ctx Q inp m i (cell 0 (c * Q + i)) Hi)
      as (m' & ->).
    { exists 0, 5, c. split; [simpl; tauto | split; [lia | reflexivity]]. }
    unfold ICsDC_body. cbv zeta.
    assert (Hc' : c = 1 \/ c = 2 \/ c = 3) by lia.
    split_when; destruct Hc' as [-> | [-> | ->]]; run_body; reflexivity.
  - destruct (ICsDC_at_point ctx Q inp m i (cell 1 (c * Q + i)) Hi)
      as (m' & ->).
    { exists 1, 3, c. split; [simpl; tauto | split; [lia | reflexivity]]. }
    unfold ICsDC_body. cbv zeta.
    assert (Hc' : c = 0 \/ c = 1 \/ c = 2) by lia.
    split_when; destruct Hc' as [-> | [-> | ->]]; run_body; reflexivity.
Qed.

Lemma ICsDC_momentum_coords_witness :
  0 <= 0 < 1 /\
  output (ICsDC SampleR.ics_ctx 1 SampleR.ics_in) SampleR.zeros2 (cell 1 0)
  = 1%R.
Proof.
  split; [lia |].
  exact (proj2 (ICsDC_momentum_coords R R_arith R_libm SampleR.ics_ctx 1
                  SampleR.ics_in SampleR.zeros2 0 ltac:(lia)) 0 ltac:(lia)).
Defined.

(** X17.  The output of [ICsDC] does not depend on the periodicity flags,
    the context entries 12 to 14: the branch they guard stores again the
    zeros that the momentum components already hold.  Two contexts that
    agree on the entries 0 to 11 give the same eight output elements at
    every point, whatever the output arrays held before. *)
Theorem ICsDC_ignores_periodic (F : Type) (HA : Arith F) (HL : Libm F)
    ctx ctx' Q (inp : Z -> Z -> F) m m' i a :
  0 <= i < Q ->
  (forall k, 0 <= k < 12 -> ctx' k = ctx k) ->
  point_cell cell [(0, 5); (1, 3)] Q i a ->
  output (ICsDC ctx' Q inp) m' a = output (ICsDC ctx Q inp) m a.
Proof.
  intros Hi Hctx Ha.
  destruct (ICsDC_at_point ctx Q inp m i a Hi Ha) as (m0 & ->).
  destruct (ICsDC_at_point ctx' Q inp m' i a Hi Ha) as (m1 & ->).
  destruct Ha as (f & n & c & Hin & Hc & ->).
  unfold ICsDC_body. cbv zeta.
  rewrite ?(Hctx 0), ?(Hctx 1), ?(Hctx 2), ?(Hctx 3), ?(Hctx 4), ?(Hctx 5),
    ?(Hctx 6), ?(Hctx 7), ?(Hctx 8), ?(Hctx 9), ?(Hctx 10), ?(Hctx 11) by lia.
  simpl in Hin. destruct Hin as [[= <- <-] | [[= <- <-] | []]].
  - assert (Hc' : c = 0 \/ c = 1 \/ c = 2 \/ c = 3 \/ c = 4) by lia.
    split_when;
      destruct Hc' as [-> | [-> | [-> | [-> | ->]]]]; run_body; reflexivity.
  - assert (Hc' : c = 0 \/ c = 1 \/ c = 2) by lia.
    split_when;
      destruct Hc' as [-> | [-> | ->]]; run_body; reflexivity.
Qed.

Lemma ICsDC_ignores_periodic_witness :
  0 <= 0 < 1 /\
  output (ICsDC SampleR.ics_ctx_periodic 1 SampleR.ics_in) (fun _ => 1%R)
    (cell 0 0)
  = output (ICsDC SampleR.ics_ctx 1 SampleR.ics_in) SampleR.zeros2
      (cell 0 0).
Proof.
  split; [lia |].
  exact (ICsDC_ignores_periodic R R_arith R_libm SampleR.ics_ctx
           SampleR.ics_ctx_periodic 1 SampleR.ics_in SampleR.zeros2
           (fun _ => 1%R) 0 (cell 0 0) ltac:(lia)
           ltac:(intros k Hk; unfold SampleR.ics_ctx_periodic;
                 destruct (Z.ltb_spec k 12); [reflexivity | lia])
           ltac:(exists 0, 5, 0;
                 split; [simpl; tauto | split; [lia | reflexivity]])).
Defined.

(** X18.  The reference state of [ICsDC] at ground level.  In real
    arithmetic and with none of the divisors [theta0], [N], [cp], [Rd]
    and [g] equal to 0, at a point with z = 0 that lies outside the bubble
    of radius [rc] around the centre (lx/2, ly/2, lz/2), the density is
    [P0 / (Rd theta0)], the density of an ideal gas at the pressure [P0]
    and the temperature [theta0], and the total energy is that density
    times [cv theta0]. *)
Theorem ICsDC_ground_state ctx Q (inp : Z -> Z -> R) m i :
  0 <= i < Q ->
  let out := output (ICsDC ctx Q inp) m in
  let x := inp 0 (0 * Q + i) in
  let y := inp 0 (1 * Q + i) in
  let z := inp 0 (2 * Q + i) in
  let theta0 := ctx 0 in
  let P0 := ctx 2 in
  let N := ctx 3 in
  let cv := ctx 4 in
  let cp := ctx 5 in
  let Rd := ctx 6 in
  let g := ctx 7 in
  let rc := ctx 8 in
  let lx := ctx 9 in
  let ly := ctx 10 in
  let lz := ctx 11 in
  theta0 <> 0%R -> N <> 0%R -> cp <> 0%R -> Rd <> 0%R -> g <> 0%R ->
  z = 0%R ->
  (0 <= rc)%R ->
  (rc * rc < (x - lx / 2) * (x - lx / 2) + (y - ly / 2) * (y - ly / 2) +
             (z - lz / 2) * (z - lz / 2))%R ->
  out (cell 0 (0 * Q + i)) = (P0 / (Rd * theta0))%R /\
  out (cell 0 (4 * Q + i)) = (P0 / (Rd * theta0) * (cv * theta0))%R.
Proof.
  intros Hi out x y z theta0 P0 N cv cp Rd g rc lx ly lz
    Htheta0 HN Hcp HRd Hg Hz Hrc Hr.
  destruct (ICsDC_density_energy ctx Q inp m i Hi) as (E0 & E4).
  cbv zeta in E0, E4. subst out. rewrite E0, E4. clear E0 E4.
  unfold rows.
  fold x y z. fold theta0 P0 N cv cp Rd g rc lx ly lz.
  cbn [vec3 Z.eqb Pos.eqb fsqrt fpow fexp fcos M_PI fmul fadd fsub fdiv fneg
       fofZ fdec fleb R_arith R_libm].
  rewrite !Rpow_2.
  assert (Hhalf : (5 * powerRZ 10 (-1) = / 2)%R) by (simpl; lra).
  rewrite !Hhalf.
  match goal with
  | |- context [Rle_dec ?r rc] => destruct (Rle_dec r rc) as [Hle | _]
  end.
  { exfalso.
    match type of Hle with
    | (sqrt ?d <= _)%R =>
        assert (Hd : (0 <= d)%R) by nra;
        assert (Hlt : (sqrt (rc * rc) < sqrt d)%R)
          by (apply sqrt_lt_1; [nra | exact Hd | unfold Rdiv in Hr; nra])
    end.
    rewrite sqrt_square in Hlt by assumption. lra. }
  rewrite Hz.
  replace (N * N * 0 / g)%R with 0%R by (field; assumption).
  replace (- N * N * 0 / g)%R with 0%R by (field; assumption).
  rewrite exp_0.
  replace (1 + g * g * (1 - 1) / (cp * theta0 * N * N))%R
    with 1%R by (field; auto).
  rewrite Rpow_1_l.
  replace (theta0 * 1 + 0)%R with theta0 by ring.
  split; field; auto.
Qed.

Lemma ICsDC_ground_state_witness :
  0 <= 0 < 1 /\
  output (ICsDC SampleR.ics_ctx 1 SampleR.ics_in) SampleR.zeros2 (cell 0 0)
  = (100000 / (287 * 300))%R.
Proof.
  split; [lia |].
  exact (proj1 (ICsDC_ground_state SampleR.ics_ctx 1 SampleR.ics_in
                  SampleR.zeros2 0 ltac:(lia)
                  ltac:(sample_lra) ltac:(sample_lra) ltac:(sample_lra)
                  ltac:(sample_lra) ltac:(sample_lra) eq_refl
                  ltac:(sample_lra) ltac:(sample_lra))).
Defined.

(** ** [DC] in detail *)

(** X19.  The outputs of [DC] at every point [0 <= i < Q], for every
    input, every content of the uninitialised [du] and every scalar
    arithmetic.  The fifteen elements [dv[k][j][i]] hold the advective flux
    of the component [j] minus, for the momentum and the energy, the
    viscous flux ([DC_dv_value]); [v] holds 0 in the density and in the
    momentum-x and -y components, [-rho g wJ] in momentum-z and
    [-rho g u_z wJ] in the energy. *)
Theorem DC_point_outputs (F : Type) (HA : Arith F) ctx Q
    (inp : Z -> Z -> F) du0 m i :
  0 <= i < Q ->
  let out := output (DC ctx Q inp du0) m in
  let rho := DC_rho Q inp i in
  let g := DC_g ctx in
  let wJ := DC_wJ Q inp i in
  (forall k j, 0 <= k < 3 -> 0 <= j < 5 ->
     out (cell 1 ((k * 5 + j) * Q + i))
     = DC_dv_value ctx Q inp (du0 i) i k j) /\
  out (cell 0 (0 * Q + i)) = fofZ 0 /\
  out (cell 0 (1 * Q + i)) = fofZ 0 /\
  out (cell 0 (2 * Q + i)) = fofZ 0 /\
  out (cell 0 (3 * Q + i)) = (-rho*g*wJ)%sc /\
  out (cell 0 (4 * Q + i)) = (-rho*g*(DC_u Q inp i).[2]*wJ)%sc.
Proof.
  intros Hi out rho g wJ. split.
  - intros k j Hk Hj. apply DC_dv_point; assumption.
  - apply DC_v_point; assumption.
Qed.

Lemma DC_point_outputs_witness :
  0 <= 0 < 1 /\
  output (DC Sample.dc_ctx 1 Sample.dc_moving Sample.du_zeros) Sample.zeros2
    (cell 0 3)
  = (-9.5)%float.
Proof.
  split; [lia |].
  exact (proj1 (proj2 (proj2 (proj2 (proj2
           (DC_point_outputs float float_arith Sample.dc_ctx 1
              Sample.dc_moving Sample.du_zeros Sample.zeros2 0
              ltac:(lia))))))).
Defined.

(** X20.  The mass flux and the work of gravity in [DC], in terms of the
    momentum.  In real arithmetic, at a point with a density other than 0,
    the elements [dv[k][0][i]] hold [wJ] times the momentum [U] contracted
    with the row [k] of [dXdx], and the energy component of [v] holds
    [-g U_z wJ]: the division by [rho] that gives the velocity cancels. *)
Theorem DC_mass_flux ctx Q (inp : Z -> Z -> R) du0 m i k :
  0 <= i < Q -> 0 <= k < 3 ->
  let out := output (DC ctx Q inp du0) m in
  let rho := inp 0 (0 * Q + i) in
  let U := vec3 (inp 0 (1 * Q + i)) (inp 0 (2 * Q + i)) (inp 0 (3 * Q + i)) in
  let wJ := inp 2 (0 * Q + i) in
  let dXdx := DC_dXdx Q inp i in
  let g := ctx 5 in
  rho <> 0%R ->
  out (cell 1 ((k * 5 + 0) * Q + i))
  = (wJ * (U.[0] * dXdx.[k].[0] + U.[1] * dXdx.[k].[1] +
           U.[2] * dXdx.[k].[2]))%R /\
  out (cell 0 (4 * Q + i)) = (- (g * U.[2] * wJ))%R.
Proof.
  intros Hi Hk out rho U wJ dXdx g Hrho. subst out.
  rewrite (DC_dv_point R R_arith ctx Q inp du0 m i k 0 Hi Hk ltac:(lia)).
  destruct (DC_v_point R R_arith ctx Q inp du0 m i Hi)
    as (_ & _ & _ & _ & ->).
  unfold DC_dv_value, DC_u, DC_rho, DC_wJ, DC_q, DC_qdata, DC_g, rows.
  fold rho wJ dXdx g. subst U.
  cbn [vec3 Z.eqb Pos.eqb fmul fadd fsub fdiv fneg R_arith].
  split; field; assumption.
Qed.

Lemma DC_mass_flux_witness :
  0 <= 0 < 1 /\
  output (DC SampleR.dc_ctx 1 SampleR.dc_moving SampleR.du_ones)
    SampleR.zeros2 (cell 0 4)
  = (- (19 / 2 * 4 * 1))%R.
Proof.
  split; [lia |].
  exact (proj2 (DC_mass_flux SampleR.dc_ctx 1 SampleR.dc_moving
                  SampleR.du_ones SampleR.zeros2 0 0 ltac:(lia) ltac:(lia)
                  ltac:(sample_lra))).
Defined.

(** X21.  The state of rest, when the uninitialised [du] holds zeros.  In
    real arithmetic, with a density and a [cv] that are not 0, at a point
    with zero momentum and zero gradients of the state, and with 0 in
    every element of [du] when the iteration declares it, [dv] holds the
    pressure flux alone:
    [wJ P dXdx[k][j-1]] in the momentum components [j = 1, 2, 3], with
    the pressure [P = E (cp/cv - 1)], and 0 in the density and the energy
    components. *)
Theorem DC_rest_flux ctx Q (inp : Z -> Z -> R) du0 m i k j :
  0 <= i < Q -> 0 <= k < 3 -> 0 <= j < 5 ->
  inp 0 (0 * Q + i) <> 0%R -> ctx 3 <> 0%R ->
  (forall c, 1 <= c <= 3 -> inp 0 (c * Q + i) = 0%R) ->
  (forall n, inp 1 (n * Q + i) = 0%R) ->
  (forall j l, du0 i j l = 0%R) ->
  let out := output (DC ctx Q inp du0) m in
  let E := inp 0 (4 * Q + i) in
  let wJ := inp 2 (0 * Q + i) in
  let dXdx := DC_dXdx Q inp i in
  let gamma := (ctx.[4] / ctx.[3])%R in
  let P := (E * (gamma - 1))%R in
  out (cell 1 ((k * 5 + j) * Q + i))
  = if (1 <=? j) && (j <=? 3) then (wJ * (P * dXdx.[k].[j - 1]))%R else 0%R.
Proof.
  intros Hi Hk Hj Hrho Hcv Hrest Hunif Hdu out E wJ dXdx gamma P.
  subst out.
  rewrite (DC_dv_point R R_arith ctx Q inp du0 m i k j Hi Hk Hj).
  assert (Hrest' : forall c, 1 <= c <= 3 -> rows Q (inp 0) c i = 0%R)
    by (intros c Hc; unfold rows; apply Hrest; assumption).
  assert (Hunif' : forall k j, rows5 Q (inp 1) k j i = 0%R)
    by (intros k' j'; unfold rows5; apply Hunif).
  assert (Hdu' : forall j l, du0 i j l = DC_du Q inp i j l).
  { intros j' l. rewrite Hdu. symmetry.
    apply rest_du; assumption. }
  rewrite (rest_dv_value ctx Q inp (du0 i) i Hrest' Hunif' Hdu' k j Hj).
  destruct ((1 <=? j) && (j <=? 3)); [| reflexivity].
  assert (HP : DC_P ctx Q inp i = P).
  { unfold DC_P, DC_ke. cbv zeta.
    rewrite !(rest_u Q inp i Hrest').
    unfold DC_E, DC_gamma, DC_cp, DC_cv, DC_q, rows. fold E.
    subst P gamma. simpl. unfold Rdiv. ring. }
  rewrite HP. reflexivity.
Qed.

Lemma DC_rest_flux_witness :
  0 <= 0 < 1 /\
  output (DC SampleR.dc_ctx 1 SampleR.dc_rest SampleR.du_zeros)
    SampleR.zeros2 (cell 1 6)
  = (1 * (2 * (3 / 2 / 1 - 1) * 1))%R.
Proof.
  split; [lia |].
  exact (DC_rest_flux SampleR.dc_ctx 1 SampleR.dc_rest SampleR.du_zeros
           SampleR.zeros2 0 1 1 ltac:(lia) ltac:(lia) ltac:(lia)
           ltac:(sample_lra) ltac:(sample_lra)
           ltac:(intros c Hc;
                 assert (E : c = 1 \/ c = 2 \/ c = 3) by lia;
                 destruct E as [-> | [-> | ->]]; reflexivity)
           ltac:(intros n; reflexivity)
           ltac:(intros j l; reflexivity)).
Defined.

(** X22.  Without viscosity and heat conduction [DC] gives the Euler
    fluxes.  In real arithmetic, with [mu = 0] and [k = 0] (the context
    entries 1 and 2), with a density and a [cv] that are not 0, and for
    every real number in the elements of the uninitialised [du],
    [dv[k][j][i]] is [wJ] times: [rho un] for the density,
    [rho u_j un + P dXdx[k][j]] for the momentum, [(E + P) un] for the
    energy, where [un] is the velocity contracted with the row [k] of
    [dXdx].  (On the doubles a NaN or an infinity found in [du] would
    reach [dv] through [0 * du].) *)
Theorem DC_inviscid ctx Q (inp : Z -> Z -> R) du0 m i k j :
  0 <= i < Q -> 0 <= k < 3 -> 0 <= j < 5 ->
  ctx 1 = 0%R -> ctx 2 = 0%R ->
  inp 0 (0 * Q + i) <> 0%R -> ctx 3 <> 0%R ->
  let out := output (DC ctx Q inp du0) m in
  let rho := DC_rho Q inp i in
  let u := DC_u Q inp i in
  let E := DC_E Q inp i in
  let P := DC_P ctx Q inp i in
  let wJ := DC_wJ Q inp i in
  let dXdx := DC_dXdx Q inp i in
  let un := (u.[0] * dXdx.[k].[0] + u.[1] * dXdx.[k].[1] +
             u.[2] * dXdx.[k].[2])%R in
  out (cell 1 ((k * 5 + j) * Q + i))
  = if j =? 0 then (wJ * (rho * un))%R
    else if j =? 4 then (wJ * ((E + P) * un))%R
    else (wJ * (rho * u.[j - 1] * un + P * dXdx.[k].[j - 1]))%R.
Proof.
  intros Hi Hk Hj Hmu Hkappa Hrho Hcv out rho u E P wJ dXdx un. subst out.
  rewrite (DC_dv_point R R_arith ctx Q inp du0 m i k j Hi Hk Hj).
  assert (HFu : forall l, DC_Fu ctx Q inp (du0 i) i l = 0%R).
  { intros l. unfold DC_Fu, DC_mu. cbv zeta. rewrite Hmu.
    apply vec6_all; simpl; ring. }
  assert (HFe : forall l, DC_Fe ctx Q inp (du0 i) i l = 0%R).
  { intros l. unfold DC_Fe, DC_k. cbv zeta. rewrite Hkappa.
    apply vec3_all; rewrite !HFu; simpl; ring. }
  unfold DC_dv_value. cbv zeta.
  fold rho u E P wJ dXdx.
  assert (Hj' : j = 0 \/ j = 1 \/ j = 2 \/ j = 3 \/ j = 4) by lia.
  destruct Hj' as [-> | [-> | [-> | [-> | ->]]]];
    cbn [Z.eqb Pos.eqb vec3];
    change (1 - 1) with 0; change (2 - 1) with 1; change (3 - 1) with 2;
    cbn [Z.eqb Pos.eqb vec3];
    rewrite ?HFu, ?HFe; subst un; simpl; ring.
Qed.

Lemma DC_inviscid_witness :
  0 <= 0 < 1 /\
  output (DC SampleR.dc_ctx_inviscid 1 SampleR.dc_moving SampleR.du_ones)
    SampleR.zeros2 (cell 1 0)
  = (1 * (2 * (1 / 2 * 1 + 0 / 2 * 0 + 4 / 2 * 0)))%R.
Proof.
  split; [lia |].
  exact (DC_inviscid SampleR.dc_ctx_inviscid 1 SampleR.dc_moving
           SampleR.du_ones SampleR.zeros2 0 0 0 ltac:(lia) ltac:(lia)
           ltac:(lia) eq_refl eq_refl ltac:(sample_lra) ltac:(sample_lra)).
Defined.
